(** * Left-ventricle 17-segment partition (platipy/imaging/utils/ventricle.py)

    A shallow embedding of [extract] and [generate_left_ventricle_segments].

    Conventions of the embedding:
    - floating-point quantities (angles, physical coordinates, spacings) are
      real numbers ([R]); voxel indices, slice indices and pixel values are
      integers ([Z]);
    - a SimpleITK image is a record of its geometry and a voxel function
      indexed (x, y, z); a numpy view of it is indexed [z, y, x];
    - Python objects that are shared or updated in place (the [contours]
      dictionary, its images, the working dictionary, the segment images)
      live in an explicit object store, and the function is a program in a
      state-and-exception monad over that store;
    - SimpleITK filters and the platipy helpers imported by the module
      ([get_com], [label_to_roi], [crop_to_roi], [vector_angle]) are the
      fields of the [Toolkit] interface;
    - pixel arithmetic is on unbounded integers (binary masks do not
      overflow their pixel type), and what [optimiser_verbose] prints is
      left out.

    After the definitions of the partition come two smaller pieces of the
    repository: the arithmetic of the crop box of
    segmentation/cardiac/run.py (module [CardiacRun]) and the checks that
    open [generate_animation_from_image_sequence] of
    platipy/imaging/visualisation/animation.py (module [Animation]). *)

From Stdlib Require Import Reals Lra ZArith Lia List String Bool Permutation Sorted.
From stdpp Require Import base list.
Import ListNotations.

Local Open Scope Z_scope.

(** ** Numeric helpers *)

Definition Rleb (a b : R) : bool := if Rle_dec a b then true else false.
Definition Rltb (a b : R) : bool := if Rlt_dec a b then true else false.

(** Python's [int(r)] on a float: truncation towards zero. *)
Definition py_int (r : R) : Z :=
  if Rle_dec 0 r then Int_part r else (- Int_part (- r))%Z.

(** [int(extent / 3)] for an integer [extent]: true division, then truncation. *)
Definition int_div3 (extent : Z) : Z := Z.quot extent 3.

(** [range(a, b)] *)
Definition py_range (a b : Z) : list Z :=
  map (fun i => a + Z.of_nat i) (seq 0 (Z.to_nat (b - a))).

(** [np.arctan2(y, x)] on finite arguments (no negative zero arises from the
    integer differences the module feeds it). *)
Definition arctan2 (y x : R) : R :=
  if Rlt_dec 0 x then atan (y / x)
  else if Rlt_dec x 0 then
         (if Rle_dec 0 y then atan (y / x) + PI else atan (y / x) - PI)
  else if Rlt_dec 0 y then PI / 2
  else if Rlt_dec y 0 then - (PI / 2)
  else 0.

(** [theta[theta < 0] += 2 * np.pi], elementwise. *)
Definition add_2pi_if_negative (t : R) : R :=
  if Rlt_dec t 0 then t + 2 * PI else t.

(** Insertion sort, for [np.median]. *)
Fixpoint Rinsert (a : R) (l : list R) : list R :=
  match l with
  | [] => [a]
  | b :: l' => if Rle_dec a b then a :: b :: l' else b :: Rinsert a l'
  end.

Definition Rsort (l : list R) : list R := fold_right Rinsert [] l.

Definition Rsum (l : list R) : R := fold_right Rplus 0%R l.

(** [np.mean] of a one-dimensional array. *)
Definition np_mean (l : list R) : R := (Rsum l / INR (length l))%R.

(** [np.median]: the middle element of the sorted data, or the mean of the
    two middle elements. *)
Definition np_median (l : list R) : R :=
  let s := Rsort l in
  let n := length l in
  if Nat.even n
  then ((nth (n / 2 - 1) s 0 + nth (n / 2) s 0) / 2)%R
  else nth (n / 2) s 0%R.

(** [ndarray.min()] *)
Fixpoint Rmin_list (a : R) (l : list R) : R :=
  match l with
  | [] => a
  | b :: l' => Rmin_list (Rmin a b) l'
  end.

Fixpoint Zmin_list (a : Z) (l : list Z) : Z :=
  match l with
  | [] => a
  | b :: l' => Zmin_list (Z.min a b) l'
  end.

(** ** Images *)

Definition R3 : Type := R * R * R.
Definition Z3 : Type := Z * Z * Z.

(** Geometry metadata of a SimpleITK image. *)
Record Geometry := mkGeometry {
  g_size : Z3;            (* GetSize(): (nx, ny, nz) *)
  g_spacing : R3;         (* GetSpacing() *)
  g_origin : R3;
  g_direction : list R
}.

(** A three-dimensional image; [img_pix i x y z] is the voxel at index
    (x, y, z), which the numpy view addresses as [arr[z, y, x]]. *)
Record Image := mkImage {
  img_geom : Geometry;
  img_pixel_id : Z;
  img_pix : Z -> Z -> Z -> Z
}.

(** A two-dimensional image (one axial slice), voxel at index (x, y). *)
Record Slice := mkSlice {
  sl_size : Z * Z;        (* (nx, ny) *)
  sl_pixel_id : Z;
  sl_pix : Z -> Z -> Z
}.

Definition size_x (i : Image) : Z := fst (fst (g_size (img_geom i))).
Definition size_y (i : Image) : Z := snd (fst (g_size (img_geom i))).
Definition size_z (i : Image) : Z := snd (g_size (img_geom i)).

Definition sitkUInt8 : Z := 1.

(** [img > 0] *)
Definition img_gt0 (i : Image) : Image :=
  mkImage (img_geom i) sitkUInt8 (fun x y z => if 0 <? img_pix i x y z then 1 else 0).

(** [a + b], [a - b] on images of the same geometry *)
Definition img_add (a b : Image) : Image :=
  mkImage (img_geom a) (img_pixel_id a) (fun x y z => img_pix a x y z + img_pix b x y z).

Definition img_sub (a b : Image) : Image :=
  mkImage (img_geom a) (img_pixel_id a) (fun x y z => img_pix a x y z - img_pix b x y z).

(** [k * img] and [img * k] for an integer constant [k] *)
Definition img_scale (k : Z) (i : Image) : Image :=
  mkImage (img_geom i) (img_pixel_id i) (fun x y z => k * img_pix i x y z).

(** Exceptions.  The module defines no exception class of its own; what a
    helper raises under a name of its own is an [OtherError]. *)
Inductive exn :=
| KeyError
| ValueError
| IndexError
| TypeError
| OtherError (name : string).

(** An integer subscript [n] on an axis of length [size]: negative indices
    count from the end, anything out of range raises [IndexError]. *)
Definition py_index (size n : Z) : exn + Z :=
  if (0 <=? n) && (n <? size) then inr n
  else if (- size <=? n) && (n <? 0) then inr (n + size)
  else inl IndexError.

(** A bound [v] of a subscript [a:b] on an axis of length [size]
    ([slice.indices] with step 1). *)
Definition py_slice_bound (size v : Z) : Z :=
  if v <? 0 then Z.max (v + size) 0 else Z.min v size.

(** [img[:, :, n]] *)
Definition slice_of (i : Image) (n : Z) : exn + Slice :=
  match py_index (size_z i) n with
  | inl e => inl e
  | inr k => inr (mkSlice (size_x i, size_y i) (img_pixel_id i) (fun x y => img_pix i x y k))
  end.

(** [img] with its slice [k] replaced by [sl]. *)
Definition put_slice (i : Image) (k : Z) (sl : Slice) : Image :=
  mkImage (img_geom i) (img_pixel_id i)
    (fun x y z => if z =? k then sl_pix sl x y else img_pix i x y z).

(** [img[:, :, n] = sl] (the updated content of [img]) *)
Definition set_slice (i : Image) (n : Z) (sl : Slice) : exn + Image :=
  match py_index (size_z i) n with
  | inl e => inl e
  | inr k => inr (put_slice i k sl)
  end.

(** [img[:, :, a:] = 0] and [img[:, :, :b] = 0] *)
Definition zero_from (i : Image) (a : Z) : Image :=
  let lo := py_slice_bound (size_z i) a in
  mkImage (img_geom i) (img_pixel_id i)
    (fun x y z => if (lo <=? z) && (z <? size_z i) then 0 else img_pix i x y z).

Definition zero_upto (i : Image) (b : Z) : Image :=
  let hi := py_slice_bound (size_z i) b in
  mkImage (img_geom i) (img_pixel_id i)
    (fun x y z => if (0 <=? z) && (z <? hi) then 0 else img_pix i x y z).

Definition zrange (n : Z) : list Z := py_range 0 n.

(** [np.where] on the view of a slice: the (y, x) positions of the non-zero
    pixels, in row-major order. *)
Definition np_where2 (s : Slice) : list (Z * Z) :=
  flat_map (fun y =>
    flat_map (fun x => if sl_pix s x y =? 0 then [] else [(y, x)])
             (zrange (fst (sl_size s))))
    (zrange (snd (sl_size s))).

(** [np.where] on the view of an image: (z, y, x) positions. *)
Definition np_where3 (i : Image) : list (Z * Z * Z) :=
  flat_map (fun z =>
    flat_map (fun y =>
      flat_map (fun x => if img_pix i x y z =? 0 then [] else [(z, y, x)])
               (zrange (size_x i)))
      (zrange (size_y i)))
    (zrange (size_z i)).

(** ** [extract] (lines 28-49) *)

(** The condition list of [extract] (lines 38-41). *)
Definition in_segment_condition (cw : bool) (angle_min angle_max angle : R) : bool :=
  if cw
  then Rleb angle angle_min || Rleb angle_max angle
  else Rleb angle angle_max && Rleb angle_min angle.

Definition same_pos (p q : Z * Z) : bool :=
  (fst p =? fst q) && (snd p =? snd q).

(** The positions [(loc_y[c], loc_x[c])] selected by the condition (line 44). *)
Definition selected (angles : list R) (angle_min angle_max : R)
           (loc_x loc_y : list Z) (cw : bool) : list (Z * Z) :=
  map snd (List.filter (fun ap => in_segment_condition cw angle_min angle_max (fst ap))
                  (combine angles (combine loc_y loc_x))).

Definition extract (template_img : Slice) (angles : list R) (angle_min angle_max : R)
           (loc_x loc_y : list Z) (cw : bool) : Slice :=
  let sel := selected angles angle_min angle_max loc_x loc_y cw in
  mkSlice (sl_size template_img) (sl_pixel_id template_img)
    (fun x y => if existsb (same_pos (y, x)) sel then 1 else 0).

(** ** Angular windows

    One entry per call of [extract] in the three slice loops (lines
    344-355, 375-392 and 412-429), in the order of the calls: the segment
    written and [angle_min], [angle_max], [cw]. *)
Record window := mkWindow {
  w_seg : Z;
  w_min : R;
  w_max : R;
  w_cw : bool
}.

Definition apical_windows : list window :=
  [ mkWindow 13 (5 * PI / 4) (7 * PI / 4) false;
    mkWindow 14 (1 * PI / 4) (7 * PI / 4) true;
    mkWindow 15 (1 * PI / 4) (3 * PI / 4) false;
    mkWindow 16 (3 * PI / 4) (5 * PI / 4) false ]%R.

Definition mid_windows : list window :=
  [ mkWindow 8 0 (PI / 3) false;
    mkWindow 9 (1 * PI / 3) (2 * PI / 3) false;
    mkWindow 10 (2 * PI / 3) (3 * PI / 3) false;
    mkWindow 11 (3 * PI / 3) (4 * PI / 3) false;
    mkWindow 12 (4 * PI / 3) (5 * PI / 3) false;
    mkWindow 7 (5 * PI / 3) (2 * PI) false ]%R.

Definition basal_windows : list window :=
  [ mkWindow 2 0 (PI / 3) false;
    mkWindow 3 (1 * PI / 3) (2 * PI / 3) false;
    mkWindow 4 (2 * PI / 3) (3 * PI / 3) false;
    mkWindow 5 (3 * PI / 3) (4 * PI / 3) false;
    mkWindow 6 (4 * PI / 3) (5 * PI / 3) false;
    mkWindow 1 (5 * PI / 3) (2 * PI) false ]%R.

Definition selects (w : window) (theta : R) : bool :=
  in_segment_condition (w_cw w) (w_min w) (w_max w) theta.

(** How many windows of a band select [theta]. *)
Definition count_selecting (band : list window) (theta : R) : nat :=
  length (List.filter (fun w => selects w theta) band).

(** The relative polar angle of the voxel (x, y) about (x_0, y_0):
    [-np.arctan2(loc_y - y_0, loc_x - x_0) - reference], then
    [theta[theta < 0] += 2 * np.pi] (lines 339-341, 370-372, 407-409). *)
Definition relative_angle (y_0 x_0 reference : R) (p : Z * Z) : R :=
  add_2pi_if_negative (- arctan2 (IZR (fst p) - y_0) (IZR (snd p) - x_0) - reference)%R.

(** ** The object store and the monad of the embedding *)

(** Dictionary keys: label names for the anatomical masks, integers for the
    segments. *)
Inductive key :=
| KStr (s : string)
| KInt (n : Z).

Definition key_eqb (a b : key) : bool :=
  match a, b with
  | KStr s, KStr t => String.eqb s t
  | KInt n, KInt m => n =? m
  | _, _ => false
  end.

Abbreviation loc := nat.

(** A dictionary keeps its items in insertion order. *)
Abbreviation dict := (list (key * loc)).

Inductive obj :=
| OImage (i : Image)
| ODict (d : dict).

(** The store: object [l] is the [l]-th element. *)
Abbreviation heap := (list obj).

Definition M (A : Type) : Type := heap -> (exn + A) * heap.

Definition ret {A} (a : A) : M A := fun h => (inr a, h).

Definition raise {A} (e : exn) : M A := fun h => (inl e, h).

Definition bind {A B} (m : M A) (f : A -> M B) : M B :=
  fun h => match m h with
           | (inr a, h') => f a h'
           | (inl e, h') => (inl e, h')
           end.

Notation "'let*' x ':=' m 'in' k" := (bind m (fun x => k))
  (at level 10, x pattern, m at level 100, k at level 200).

(** A computation that may raise but does not touch the store. *)
Definition lift {A} (r : exn + A) : M A :=
  match r with
  | inl e => raise e
  | inr a => ret a
  end.

Fixpoint for_each {A} (l : list A) (body : A -> M unit) : M unit :=
  match l with
  | [] => ret tt
  | a :: l' => let* _ := body a in for_each l' body
  end.

(** [acc = []; for a in l: acc.append(body(a))] *)
Fixpoint collect {A B} (l : list A) (body : A -> M B) : M (list B) :=
  match l with
  | [] => ret []
  | a :: l' => let* b := body a in let* bs := collect l' body in ret (b :: bs)
  end.

Definition alloc (o : obj) : M loc := fun h => (inr (length h), h ++ [o]).

Definition store (l : loc) (o : obj) : M unit := fun h => (inr tt, <[l := o]> h).

Definition load_image (l : loc) : M Image :=
  fun h => match h !! l with
           | Some (OImage i) => (inr i, h)
           | _ => (inl TypeError, h)
           end.

Definition load_dict (l : loc) : M dict :=
  fun h => match h !! l with
           | Some (ODict d) => (inr d, h)
           | _ => (inl TypeError, h)
           end.

Fixpoint dict_lookup (k : key) (d : dict) : option loc :=
  match d with
  | [] => None
  | (k', l) :: d' => if key_eqb k k' then Some l else dict_lookup k d'
  end.

(** [d[k] = l] on the items of a dictionary: an existing key keeps its
    place, a new key goes last. *)
Fixpoint dict_update (k : key) (l : loc) (d : dict) : dict :=
  match d with
  | [] => [(k, l)]
  | (k', l') :: d' => if key_eqb k k' then (k, l) :: d' else (k', l') :: dict_update k l d'
  end.

(** [d[k]] *)
Definition dict_get (d : loc) (k : key) : M loc :=
  let* items := load_dict d in
  match dict_lookup k items with
  | Some l => ret l
  | None => raise KeyError
  end.

(** [d[k] = l] *)
Definition dict_set (d : loc) (k : key) (l : loc) : M unit :=
  let* items := load_dict d in
  store d (ODict (dict_update k l items)).

(** The image [d[k]]. *)
Definition dict_get_image (d : loc) (k : key) : M Image :=
  let* l := dict_get d k in load_image l.

(** [d[k] = img] for a newly created image [img]. *)
Definition dict_set_new (d : loc) (k : key) (img : Image) : M unit :=
  let* l := alloc (OImage img) in dict_set d k l.

Definition dict_keys (d : loc) : M (list key) :=
  let* items := load_dict d in ret (map fst items).

Fixpoint memo_lookup (l : loc) (memo : list (loc * loc)) : option loc :=
  match memo with
  | [] => None
  | (a, b) :: memo' => if Nat.eqb l a then Some b else memo_lookup l memo'
  end.

(** [copy.deepcopy] of the items of a dictionary of images: every image is
    copied once, an image stored under two keys stays shared in the copy. *)
Fixpoint deepcopy_items (items : dict) (memo : list (loc * loc)) : M dict :=
  match items with
  | [] => ret []
  | (k, l) :: rest =>
      match memo_lookup l memo with
      | Some l' =>
          let* rest' := deepcopy_items rest memo in ret ((k, l') :: rest')
      | None =>
          let* img := load_image l in
          let* l' := alloc (OImage img) in
          let* rest' := deepcopy_items rest ((l, l') :: memo) in
          ret ((k, l') :: rest')
      end
  end.

Definition deepcopy (d : loc) : M loc :=
  let* items := load_dict d in
  let* items' := deepcopy_items items [] in
  alloc (ODict items').

(** ** Transforms *)

(** [sitk.VersorRigid3DTransform] after [SetCenter] and [SetRotation]. *)
Record VersorRigid3DTransform := mkVersor {
  v_centre : R3;
  v_axis : R3;
  v_angle : R
}.

(** What [sitk.Resample] is given: one rigid transform, or the inverse of
    the composite of a list of them. *)
Inductive Transform :=
| Rigid (t : VersorRigid3DTransform)
| CompositeTransform (l : list VersorRigid3DTransform)
| InverseOfComposite (l : list VersorRigid3DTransform).

(** [overall_transform.GetInverse()] on a composite. *)
Definition GetInverse (t : Transform) : Transform :=
  match t with
  | CompositeTransform l => InverseOfComposite l
  | InverseOfComposite l => CompositeTransform l
  | Rigid v => InverseOfComposite [v]
  end.

(** ** The toolkit: SimpleITK and the imported platipy helpers *)

Class Toolkit := {
  (* platipy.imaging.utils.crop *)
  label_to_roi : Image -> R3 -> exn + (Z3 * Z3);       (* (size, index) *)
  crop_to_roi : Image -> Z3 -> Z3 -> exn + Image;
  (* platipy.imaging.utils.geometry *)
  vector_angle : R3 -> R3 -> R;
  (* platipy.imaging.label.utils.get_com: with [real_coords=True], on a
     volume (z, y, x) and on a slice (y, x) *)
  get_com_real : Image -> exn + R3;
  get_com : Image -> exn + Z3;
  get_com_slice : Slice -> exn + (R * R);
  (* sitk.LabelShapeStatisticsImageFilter: Execute, then GetPrincipalAxes
     or GetRegion of a label *)
  GetPrincipalAxes : Image -> Z -> exn + (R3 * R3 * R3);
  GetRegion : Image -> Z -> exn + (N * N * N * N * N * N);
  (* sitk.Resample(image, transform, sitkNearestNeighbor, default, pixel id) *)
  Resample : Image -> Transform -> Z -> option Z -> Image;
  (* the voxel a nearest-neighbour resampling reads for an output voxel,
     None when it falls outside the image *)
  resample_source : Geometry -> Transform -> Z3 -> option Z3;
  TransformContinuousIndexToPhysicalPoint : Image -> R3 -> R3;
  BinaryErode : Image -> Z3 -> Image;
  BinaryDilate : Image -> Z3 -> Image;
  BinaryMorphologicalClosing : Image -> Z3 -> Image;
  Mask : Image -> Image -> Image;
  Paste : Image -> Image -> Z3 -> Z3 -> Z3 -> Image;
  (* nearest-neighbour resampling onto the grid of the image itself copies
     voxels, and fills with the default value outside *)
  Resample_nearest : forall img T default x y z,
    img_pix (Resample img T default None) x y z =
    match resample_source (img_geom img) T (x, y, z) with
    | Some (x', y', z') => img_pix img x' y' z'
    | None => default
    end
}.

(** ** Small vector helpers *)

Definition neg3 (v : R3) : R3 :=
  let '(a, b, c) := v in (- a, - b, - c)%R.

Definition sub3 (u v : R3) : R3 :=
  let '(a, b, c) := u in let '(d, e, f) := v in (a - d, b - e, c - f)%R.

Definition add3 (u v : R3) : R3 :=
  let '(a, b, c) := u in let '(d, e, f) := v in (a + d, b + e, c + f)%R.

Definition scale3 (k : R) (v : R3) : R3 :=
  let '(a, b, c) := v in (k * a, k * b, k * c)%R.

(** [v[::-1]] *)
Definition rev3 (v : R3) : R3 :=
  let '(a, b, c) := v in (c, b, a).

(** [np.cross] *)
Definition cross (u v : R3) : R3 :=
  let '(a, b, c) := u in
  let '(d, e, f) := v in
  (b * f - c * e, c * d - a * f, a * e - b * d)%R.

Definition unit_z : R3 := (0, 0, 1)%R.

(** [ndarray.min()]: raises [ValueError] on an empty array. *)
Definition array_min_R (l : list R) : exn + R :=
  match l with
  | [] => inl ValueError
  | a :: l' => inr (Rmin_list a l')
  end.

Definition array_min_Z (l : list Z) : exn + Z :=
  match l with
  | [] => inl ValueError
  | a :: l' => inr (Zmin_list a l')
  end.

(** [np.mean(l, axis=0)] of a list of (y, x) pairs, where it is an array
    (on an empty list numpy returns a scalar nan). *)
Definition mean_axis0 (l : list (R * R)) : option (R * R) :=
  match l with
  | [] => None
  | _ => Some (np_mean (map fst l), np_mean (map snd l))
  end.

(** [_, _, zstart, _, _, _ = lsf.GetRegion(1)]: the region is
    [xstart, ystart, zstart, xsize, ysize, zsize]. *)
Definition region_zstart (region : N * N * N * N * N * N) : N :=
  let '(_, _, zstart, _, _, _) := region in zstart.

(** ** Configuration: the keyword arguments *)

Record Config := mkConfig {
  label_left_ventricle : key;
  label_left_atrium : key;
  label_right_ventricle : key;
  label_mitral_valve : key;
  label_heart : key;
  myocardium_thickness_mm : R;
  hole_fill_mm : R;
  optimiser_tol_degrees : R;
  optimiser_max_iter : Z;
  optimiser_verbose : bool
}.

Definition default_config : Config :=
  mkConfig (KStr "LEFTVENTRICLE") (KStr "LEFTATRIUM") (KStr "RIGHTVENTRICLE")
           (KStr "MITRALVALVE") (KStr "WHOLEHEART") 10 3 1 10 false.

(** [[int(mm / i) for i in img.GetSpacing()]] *)
Definition mm_to_voxels (mm : R) (img : Image) : Z3 :=
  let '(sx, sy, sz) := g_spacing (img_geom img) in
  (py_int (mm / sx), py_int (mm / sy), py_int (mm / sz)).

(** Module 3: the limits of the division into thirds (lines 241-247),
    [(dc, apical_extent, mid_extent, basal_extent)]. *)
Definition axial_limits (inf_limit_lv com_mv : Z) : Z * Z * Z * Z :=
  let extent := com_mv - inf_limit_lv in
  let dc := int_div3 extent in
  let apical_extent := inf_limit_lv + dc in
  let mid_extent := inf_limit_lv + 2 * dc in
  let basal_extent := com_mv in
  (dc, apical_extent, mid_extent, basal_extent).

(** The four copies of the myocardium cut along the long axis (lines 249-266). *)
Definition myo_apex (label_lv_myo : Image) (inf_limit_lv : Z) : Image :=
  zero_from (img_scale 1 label_lv_myo) inf_limit_lv.

Definition myo_band (label_lv_myo : Image) (lower upper : Z) : Image :=
  zero_from (zero_upto (img_scale 1 label_lv_myo) lower) upper.

Section Pipeline.

Context {tk : Toolkit}.
Variable cfg : Config.

(** [l[...] = ...]: an update in place of the image object [l]. *)
Definition modify_image (l : loc) (f : Image -> exn + Image) : M unit :=
  let* i := load_image l in
  let* i' := lift (f i) in
  store l (OImage i').

(** [for label in contours: working_contours[label] = crop_to_roi(contours[label], ...)]
    (lines 117-118) *)
Definition crop_all (contours working_contours : loc) (cb_size cb_index : Z3) : M unit :=
  let* labels := dict_keys contours in
  for_each labels (fun label =>
    let* img := dict_get_image contours label in
    let* cropped := lift (crop_to_roi img cb_size cb_index) in
    dict_set_new working_contours label cropped).

(** [for label in contours: working_contours[label] = sitk.Resample(...)]
    (lines 145-152 and 208-215) *)
Definition resample_all (contours working_contours : loc)
           (rotation_transform : VersorRigid3DTransform) : M unit :=
  let* labels := dict_keys contours in
  for_each labels (fun label =>
    let* img := dict_get_image working_contours label in
    dict_set_new working_contours label
      (Resample img (Rigid rotation_transform) 0 (Some (img_pixel_id img)))).

(** Module 1, second half: the initial rotation onto the cardiac axis
    (lines 120-152). *)
Definition initial_alignment (contours working_contours : loc)
  : M VersorRigid3DTransform :=
  let* lv := dict_get_image working_contours (label_left_ventricle cfg) in
  let* la := dict_get_image working_contours (label_left_atrium cfg) in
  let label_orient := img_gt0 (img_add lv la) in
  let* axes := lift (GetPrincipalAxes label_orient 1) in
  let cardiac_axis := fst (fst axes) in
  let cardiac_axis :=
    if Rlt_dec (snd cardiac_axis) 0 then neg3 cardiac_axis else cardiac_axis in
  let rotation_angle := vector_angle (rev3 cardiac_axis) unit_z in
  let rotation_axis := cross (rev3 cardiac_axis) unit_z in
  let* rotation_centre := lift (get_com_real label_orient) in
  let rotation_transform := mkVersor rotation_centre rotation_axis rotation_angle in
  let* _ := resample_all contours working_contours rotation_transform in
  ret rotation_transform.

(** Module 2: the body of the [while] loop (lines 168-215). *)
Definition refine_once (contours working_contours : loc)
  : M VersorRigid3DTransform :=
  let* lv := dict_get_image working_contours (label_left_ventricle cfg) in
  let lv_locations := np_where3 lv in
  let* lv_apex_z := lift (array_min_Z (map (fun p => fst (fst p)) lv_locations)) in
  let at_apex := List.filter (fun p => fst (fst p) =? lv_apex_z) lv_locations in
  let lv_apex_y := np_mean (map (fun p => IZR (snd (fst p))) at_apex) in
  let lv_apex_x := np_mean (map (fun p => IZR (snd p)) at_apex) in
  let lv_apex_loc := (lv_apex_x, lv_apex_y, IZR lv_apex_z) in
  let* mv := dict_get_image working_contours (label_mitral_valve cfg) in
  let* mv_com := lift (get_com_real mv) in
  let* lv' := dict_get_image working_contours (label_left_ventricle cfg) in
  let lv_apex_loc_img := TransformContinuousIndexToPhysicalPoint lv' lv_apex_loc in
  let lv_axis := sub3 lv_apex_loc_img mv_com in
  let rotation_axis := cross lv_axis unit_z in
  let rotation_angle := vector_angle lv_axis unit_z in
  let rotation_centre := scale3 (1 / 2) (add3 mv_com lv_apex_loc_img) in
  let rotation_transform := mkVersor rotation_centre rotation_axis rotation_angle in
  let* _ := resample_all contours working_contours rotation_transform in
  ret rotation_transform.

Definition optimiser_tol_radians : R := (optimiser_tol_degrees cfg * PI / 180)%R.

(** The loop guard (line 164),
    [n < optimiser_max_iter and np.abs(rotation_angle) > optimiser_tol_radians]. *)
Definition loop_guard (n : Z) (rotation_angle : R) : bool :=
  (n <? optimiser_max_iter cfg) && Rltb optimiser_tol_radians (Rabs rotation_angle).

(** Module 2: the [while] loop (lines 162-215), from the state
    [(n, overall_transform_list, rotation_angle)].  Every iteration adds one
    to [n], so the loop leaves after at most [optimiser_max_iter - n]
    iterations: that much [fuel] is enough, and more changes nothing. *)
Fixpoint refinement_loop (fuel : nat) (contours working_contours : loc) (n : Z)
         (overall_transform_list : list VersorRigid3DTransform) (rotation_angle : R)
  : M (list VersorRigid3DTransform) :=
  match fuel with
  | O => ret overall_transform_list
  | S fuel' =>
      if loop_guard n rotation_angle
      then
        let* rotation_transform := refine_once contours working_contours in
        refinement_loop fuel' contours working_contours (n + 1)
          (overall_transform_list ++ [rotation_transform])
          (v_angle rotation_transform)
      else ret overall_transform_list
  end.

(** The Axis Aligner: the initial alignment, then the refinement loop run
    with as much fuel as the iteration budget. *)
Definition axis_aligner (contours working_contours : loc)
  : M (list VersorRigid3DTransform) :=
  let* rotation_transform := initial_alignment contours working_contours in
  refinement_loop (Z.to_nat (optimiser_max_iter cfg)) contours working_contours 0
    [rotation_transform] (v_angle rotation_transform).

(** Module 3: the myocardium, [(label_lv_inner, label_lv_myo)] (lines 224-230). *)
Definition extract_myocardium (working_contours : loc) (erode_img : Z3)
  : M (Image * Image) :=
  let* lv := dict_get_image working_contours (label_left_ventricle cfg) in
  let label_lv_inner := BinaryErode lv erode_img in
  let* lv' := dict_get_image working_contours (label_left_ventricle cfg) in
  let label_lv_myo := img_sub lv' label_lv_inner in
  let label_lv_myo_mask := BinaryDilate label_lv_inner erode_img in
  ret (label_lv_inner, Mask label_lv_myo label_lv_myo_mask).

(** Module 3: [inf_limit_lv] and [com_mv] (lines 236-239). *)
Definition long_axis_limits (working_contours : loc) (label_lv_inner : Image)
  : M (Z * Z) :=
  let* region := lift (GetRegion label_lv_inner 1) in
  let inf_limit_lv := Z.of_N (region_zstart region) in
  let* mv := dict_get_image working_contours (label_mitral_valve cfg) in
  let* com := lift (get_com mv) in
  let com_mv := fst (fst com) in
  ret (inf_limit_lv, com_mv).

(** Module 3: the four copies of the myocardium, cut in place; the apex
    copy is returned. *)
Definition cut_myocardium (label_lv_myo : Image)
           (inf_limit_lv apical_extent mid_extent basal_extent : Z) : M loc :=
  let* label_lv_myo_apex := alloc (OImage (img_scale 1 label_lv_myo)) in
  let* _ := modify_image label_lv_myo_apex (fun i => inr (zero_from i inf_limit_lv)) in
  let* label_lv_myo_apical := alloc (OImage (img_scale 1 label_lv_myo)) in
  let* _ := modify_image label_lv_myo_apical (fun i => inr (zero_upto i inf_limit_lv)) in
  let* _ := modify_image label_lv_myo_apical (fun i => inr (zero_from i apical_extent)) in
  let* label_lv_myo_mid := alloc (OImage (img_scale 1 label_lv_myo)) in
  let* _ := modify_image label_lv_myo_mid (fun i => inr (zero_upto i apical_extent)) in
  let* _ := modify_image label_lv_myo_mid (fun i => inr (zero_from i mid_extent)) in
  let* label_lv_myo_basal := alloc (OImage (img_scale 1 label_lv_myo)) in
  let* _ := modify_image label_lv_myo_basal (fun i => inr (zero_upto i mid_extent)) in
  let* _ := modify_image label_lv_myo_basal (fun i => inr (zero_from i basal_extent)) in
  ret label_lv_myo_apex.

(** Module 4: the angles of the right-ventricle voxels of slice [z] about
    the centre of the left ventricle on that slice, after
    [theta_rv[theta_rv < 0] += 2 * np.pi]. *)
Definition rv_angles (lv_com : R * R) (loc_rv : list (Z * Z * Z)) (z : Z) : list R :=
  let loc_rv_basal := List.filter (fun p => fst (fst p) =? z) loc_rv in
  let lv_com_basal_x := snd lv_com in
  let lv_com_basal_y := fst lv_com in
  map (fun p => add_2pi_if_negative
                  (arctan2 (lv_com_basal_y - IZR (snd (fst p)))
                           (IZR (snd p) - lv_com_basal_x))%R)
      loc_rv_basal.

(** Module 4: one pass of the loop over [loc_rv_z_basal] (lines 289-302). *)
Definition rv_insertion_angle (working_contours : loc) (loc_rv : list (Z * Z * Z))
           (z : Z) : M R :=
  let* lv := dict_get_image working_contours (label_left_ventricle cfg) in
  let* lv_slice := lift (slice_of lv z) in
  let* lv_com := lift (get_com_slice lv_slice) in
  lift (array_min_R (rv_angles lv_com loc_rv z)).

(** Module 4: [theta_0] (lines 283-304). *)
Definition basal_reference_angle (working_contours : loc) (mid_extent : Z) : M R :=
  let* rv := dict_get_image working_contours (label_right_ventricle cfg) in
  let loc_rv := np_where3 rv in
  let loc_rv_z_basal := py_range mid_extent (mid_extent + 5) in
  let* theta_rv_insertion :=
    collect loc_rv_z_basal (rv_insertion_angle working_contours loc_rv) in
  ret (np_median theta_rv_insertion).

(** Module 4: [theta_0_apical] (lines 307-318); on an empty apical band the
    means are scalars and the subscript [lv_com_apical[0]] raises. *)
Definition apical_reference_angle (working_contours : loc)
           (inf_limit_lv apical_extent : Z) : M R :=
  let* coms := collect (py_range inf_limit_lv apical_extent) (fun n =>
    let* lv := dict_get_image working_contours (label_left_ventricle cfg) in
    let* lv_slice := lift (slice_of lv n) in
    let* lv_com := lift (get_com_slice lv_slice) in
    let* rv := dict_get_image working_contours (label_right_ventricle cfg) in
    let* rv_slice := lift (slice_of rv n) in
    let* rv_com := lift (get_com_slice rv_slice) in
    ret (lv_com, rv_com)) in
  match mean_axis0 (map fst coms), mean_axis0 (map snd coms) with
  | Some lv_com_apical, Some rv_com_apical =>
      ret (arctan2 (fst lv_com_apical - fst rv_com_apical)
                   (snd rv_com_apical - snd lv_com_apical))%R
  | _, _ => raise IndexError
  end.

(** Module 4: [working_contours[seg][:, :, n] = sl]. *)
Definition assign_slice (working_contours : loc) (n : Z) (seg : Z) (sl : Slice) : M unit :=
  let* l := dict_get working_contours (KInt seg) in
  modify_image l (fun i => set_slice i n sl).

(** Module 4: the body of a slice loop, for the windows of its band (lines
    327-355, 358-392 and 395-429). *)
Definition segment_slice (working_contours : loc) (label_lv_myo : Image)
           (reference : R) (band : list window) (n : Z) : M unit :=
  let* label_lv_myo_slice := lift (slice_of label_lv_myo n) in
  let loc_yx := np_where2 label_lv_myo_slice in
  let loc_y := map fst loc_yx in
  let loc_x := map snd loc_yx in
  let* com := lift (get_com_slice label_lv_myo_slice) in
  let '(y_0, x_0) := com in
  let theta := map (relative_angle y_0 x_0 reference) (combine loc_y loc_x) in
  for_each band (fun w =>
    assign_slice working_contours n (w_seg w)
      (extract label_lv_myo_slice theta (w_min w) (w_max w) loc_x loc_y (w_cw w))).

(** Module 4: the seventeen empty segments, the apex cap, and the three
    slice loops (lines 320-429). *)
Definition angular_segmenter (working_contours : loc) (label_lv_myo : Image)
           (label_lv_myo_apex : loc)
           (inf_limit_lv apical_extent mid_extent basal_extent : Z)
           (theta_0 theta_0_apical : R) : M unit :=
  let* _ := for_each (py_range 0 17) (fun i =>
    let* heart := dict_get_image working_contours (label_heart cfg) in
    dict_set_new working_contours (KInt (i + 1)) (img_scale 0 heart)) in
  let* _ := dict_set working_contours (KInt 17) label_lv_myo_apex in
  let* _ := for_each (py_range inf_limit_lv apical_extent)
              (segment_slice working_contours label_lv_myo theta_0_apical apical_windows) in
  let* _ := for_each (py_range apical_extent mid_extent)
              (segment_slice working_contours label_lv_myo theta_0 mid_windows) in
  for_each (py_range mid_extent basal_extent)
    (segment_slice working_contours label_lv_myo theta_0 basal_windows).

(** Module 5: a segment resampled into the reference space, before any
    hole filling. *)
Definition rotate_back (img : Image) (inverse_transform : Transform) : Image :=
  Resample img inverse_transform 0 None.

(** Module 5: the body of the loop over the segments (lines 441-460). *)
Definition reproject_segment (contours working_contours output_contours : loc)
           (inverse_transform : Transform) (hole_fill_img cb_index : Z3)
           (segment : Z) : M unit :=
  let* seg := dict_get_image working_contours (KInt (segment + 1)) in
  let new_structure := rotate_back seg inverse_transform in
  let new_structure :=
    if Rlt_dec 0 (hole_fill_mm cfg)
    then BinaryMorphologicalClosing new_structure hole_fill_img
    else new_structure in
  let* heart := dict_get_image contours (label_heart cfg) in
  let new_structure :=
    Paste (img_scale 0 heart) new_structure (g_size (img_geom new_structure))
          (0, 0, 0) cb_index in
  dict_set_new output_contours (KInt (segment + 1)) new_structure.

(** Everything after the initial set up. *)
Definition run_modules (contours working_contours output_contours : loc) : M loc :=
  (* Some conversions *)
  let* lv := dict_get_image working_contours (label_left_ventricle cfg) in
  let erode_img := mm_to_voxels (myocardium_thickness_mm cfg) lv in
  let* heart := dict_get_image working_contours (label_heart cfg) in
  let hole_fill_img := mm_to_voxels (hole_fill_mm cfg) heart in
  (* Module 1 *)
  let* heart' := dict_get_image working_contours (label_heart cfg) in
  let* roi := lift (label_to_roi (img_gt0 heart') (30, 30, 60)%R) in
  let '(cb_size, cb_index) := roi in
  let* _ := crop_all contours working_contours cb_size cb_index in
  (* Modules 1 and 2 *)
  let* overall_transform_list := axis_aligner contours working_contours in
  (* Module 3 *)
  let* myo := extract_myocardium working_contours erode_img in
  let '(label_lv_inner, label_lv_myo) := myo in
  let* limits := long_axis_limits working_contours label_lv_inner in
  let '(inf_limit_lv, com_mv) := limits in
  let '(dc, apical_extent, mid_extent, basal_extent) :=
    axial_limits inf_limit_lv com_mv in
  let* label_lv_myo_apex :=
    cut_myocardium label_lv_myo inf_limit_lv apical_extent mid_extent basal_extent in
  (* Module 4 *)
  let* theta_0 := basal_reference_angle working_contours mid_extent in
  let* theta_0_apical :=
    apical_reference_angle working_contours inf_limit_lv apical_extent in
  let* _ := angular_segmenter working_contours label_lv_myo label_lv_myo_apex
              inf_limit_lv apical_extent mid_extent basal_extent
              theta_0 theta_0_apical in
  (* Module 5 *)
  let overall_transform := CompositeTransform overall_transform_list in
  let inverse_transform := GetInverse overall_transform in
  let* _ := for_each (py_range 0 17)
              (reproject_segment contours working_contours output_contours
                 inverse_transform hole_fill_img cb_index) in
  ret output_contours.

Definition generate_left_ventricle_segments (contours : loc) : M loc :=
  (* Initial set up *)
  let* working_contours := deepcopy contours in
  let* output_contours := alloc (ODict []) in
  run_modules contours working_contours output_contours.

End Pipeline.

(** ** Definitions used to state the properties *)

Definition Reqb (a b : R) : bool := if Req_dec_T a b then true else false.

(** [theta] is an end of the window [w]. *)
Definition endpoint_of (w : window) (theta : R) : bool :=
  Reqb theta (w_min w) || Reqb theta (w_max w).

(** How many windows of a band have [theta] as an end. *)
Definition count_endpoint (band : list window) (theta : R) : nat :=
  length (List.filter (fun w => endpoint_of w theta) band).

(** ** Definitions used to state the frame properties *)

(** Computations that leave the store as it is. *)
Definition read_only {A} (m : M A) : Prop := forall h, snd (m h) = h.

(** Every object of the store [h0] is still there, unchanged, in [h]. *)
Definition preserved (h0 h : heap) : Prop :=
  forall l o, h0 !! l = Some o -> h !! l = Some o.

(** [l] is not an object of [h0]: it was created later. *)
Definition fresh (h0 : heap) (l : loc) : Prop := h0 !! l = None.

(** The invariant of a run started in [h0]: the objects of [h0] are
    unchanged, and a dictionary created since only refers to objects
    created since. *)
Definition run_inv (h0 h : heap) : Prop :=
  preserved h0 h
  /\ forall d items, fresh h0 d -> h !! d = Some (ODict items) ->
       Forall (fun kl => fresh h0 (snd kl)) items.

(** Dictionaries stay dictionaries. *)
Definition dicts_stay (h h' : heap) : Prop :=
  forall d items, h !! d = Some (ODict items) -> exists items', h' !! d = Some (ODict items').

(** [m] keeps the invariant, whether it returns or raises, and what it
    returns satisfies [Q]. *)
Definition keeps (h0 : heap) {A} (m : M A) (Q : A -> Prop) : Prop :=
  forall h, run_inv h0 h ->
    run_inv h0 (snd (m h)) /\ dicts_stay h (snd (m h))
    /\ forall a, fst (m h) = inr a -> Q a.

(** [items'] is a copy of [items]: same keys in the same order, and under
    each key an image equal to the original. *)
Definition copy_of (h h' : heap) (items items' : dict) : Prop :=
  Forall2 (fun kl kl' =>
             fst kl = fst kl'
             /\ exists img, h !! snd kl = Some (OImage img)
                            /\ h' !! snd kl' = Some (OImage img))
          items items'.


(** ** The segment images during Module 4 *)

(** [S] with the image of segment [seg] replaced. *)
Definition paint (S : Z -> Image) (seg : Z) (img : Image) : Z -> Image :=
  fun j => if j =? seg then img else S j.

(** The working dictionary [wc] holds seventeen distinct image objects under
    the keys 1 to 17, with contents [S 1], ..., [S 17]. *)
Definition seg_store (h : heap) (wc : loc) (S : Z -> Image) : Prop :=
  exists (items : dict) (L : Z -> loc),
    h !! wc = Some (ODict items)
    /\ (forall k, 1 <= k <= 17 ->
          dict_lookup (KInt k) items = Some (L k) /\ h !! (L k) = Some (OImage (S k)))
    /\ (forall j k, 1 <= j <= 17 -> 1 <= k <= 17 -> L j = L k -> j = k).

(** What a slice loop passes to [working_contours[seg][:, :, n] = ...] for
    the window [w], on the slice [sl] with centre [com]. *)
Definition window_slice (sl : Slice) (com : R * R) (reference : R) (w : window) : Slice :=
  let loc_yx := np_where2 sl in
  let loc_y := map fst loc_yx in
  let loc_x := map snd loc_yx in
  let '(y_0, x_0) := com in
  let theta := map (relative_angle y_0 x_0 reference) (combine loc_y loc_x) in
  extract sl theta (w_min w) (w_max w) loc_x loc_y (w_cw w).

(** The pixel (x, y) of that slice, for the slice [n] of the myocardium. *)
Definition band_pixel {tk : Toolkit} (label_lv_myo : Image) (reference : R)
           (w : window) (n x y : Z) : Z :=
  match slice_of label_lv_myo n with
  | inr sl =>
      match get_com_slice sl with
      | inr com => sl_pix (window_slice sl com reference w) x y
      | inl _ => 0
      end
  | inl _ => 0
  end.

Definition band_segments (band : list window) : list Z := map w_seg band.

(** The first [m] segment images exist, were created at or after [base],
    are distinct, have the geometry [G] and are zero everywhere. *)
Definition zero_segments (m : Z) (h : heap) (wc : loc) (S : Z -> Image)
           (base : nat) (G : Geometry) : Prop :=
  exists (items : dict) (L : Z -> loc),
    h !! wc = Some (ODict items)
    /\ (forall k, 1 <= k <= m ->
          dict_lookup (KInt k) items = Some (L k)
          /\ h !! (L k) = Some (OImage (S k))
          /\ (base <= L k)%nat
          /\ img_geom (S k) = G
          /\ forall x y z, img_pix (S k) x y z = 0)
    /\ (forall j k, 1 <= j <= m -> 1 <= k <= m -> L j = L k -> j = k).

(** The result of a slice loop over the slices [a, b): every slice was cut
    and centred, and the images of the segments of the band hold the
    extracted sectors on those slices and zero elsewhere. *)
Definition band_done {tk : Toolkit} (label_lv_myo : Image) (reference : R)
           (band : list window) (a b : Z) (S : Z -> Image) : Prop :=
  (forall n, a <= n < b ->
     n < size_z label_lv_myo
     /\ exists sl com, slice_of label_lv_myo n = inr sl /\ get_com_slice sl = inr com)
  /\ forall w, In w band -> forall x y z,
       img_pix (S (w_seg w)) x y z =
       if (a <=? z) && (z <? b) then band_pixel label_lv_myo reference w z x y else 0.

(** The value of a successful result. *)
Definition result_of {A} (default : A) (r : exn + A) : A :=
  match r with
  | inr a => a
  | inl _ => default
  end.

(** ** A small instance of the toolkit, and a small input

    The instance keeps every image on its grid: cropping, resampling,
    dilation, closing and masking return their argument, and erosion removes
    every voxel (the wall is the whole mask).  Its helpers are modelled from
    the spec where the spec says how they behave. *)

(** Modelled from the spec: platipy's [get_com] is not among the sources
    read; the glossary defines the centre of mass as the mean position of
    the positive voxels of a region. *)
Definition centroid_slice (sl : Slice) : exn + (R * R) :=
  match np_where2 sl with
  | [] => inl (OtherError "EmptyMaskError")
  | loc_yx => inr (np_mean (map (fun p => IZR (fst p)) loc_yx),
                   np_mean (map (fun p => IZR (snd p)) loc_yx))
  end.

(** Modelled from the spec: platipy's [label_to_roi] is not among the
    sources read; the ROI Cropper fails with [MissingStructureError] if the
    mask has no positive voxels.  The box returned is the whole grid. *)
Definition whole_grid_roi (img : Image) (expansion_mm : R3) : exn + (Z3 * Z3) :=
  match np_where3 img with
  | [] => inl (OtherError "MissingStructureError")
  | _ => inr (g_size (img_geom img), (0, 0, 0))
  end.

(** Modelled from the spec: [get_com] with [real_coords=True] is not among
    the sources read; the Axis Aligner fails with [EmptyMaskError] if the
    mask has no positive voxels.  The point returned is the origin. *)
Definition origin_com (img : Image) : exn + R3 :=
  match np_where3 img with
  | [] => inl (OtherError "EmptyMaskError")
  | _ => inr (0, 0, 0)%R
  end.

#[local] Instance grid_toolkit : Toolkit := {|
  label_to_roi := whole_grid_roi;
  crop_to_roi := fun img _ _ => inr img;
  vector_angle := fun _ _ => 0%R;
  get_com_real := origin_com;
  get_com := fun _ => inr (6, 0, 0);
  get_com_slice := centroid_slice;
  GetPrincipalAxes := fun _ _ => inr ((0, 0, 1), (0, 1, 0), (1, 0, 0))%R;
  GetRegion := fun _ _ => inr (0, 0, 0, 0, 0, 0)%N;
  Resample := fun img _ _ _ => img;
  resample_source := fun _ _ p => Some p;
  TransformContinuousIndexToPhysicalPoint := fun _ p => p;
  BinaryErode := fun img _ => img_scale 0 img;
  BinaryDilate := fun img _ => img;
  BinaryMorphologicalClosing := fun img _ => img;
  Mask := fun img _ => img;
  Paste := fun dst src _ _ _ => src;
  Resample_nearest := fun _ _ _ _ _ _ => eq_refl
|}.

Definition grid : Geometry :=
  mkGeometry (5, 5, 12) (1, 1, 1)%R (0, 0, 0)%R [1; 0; 0; 0; 1; 0; 0; 0; 1]%R.

Definition on_grid (z : Z) : bool := (0 <=? z) && (z <? 12).

(** A tube: on every slice the four neighbours of the centre (2, 2). *)
Definition tube : Image :=
  mkImage grid sitkUInt8
    (fun x y z =>
       if on_grid z &&
          (((x =? 2) && ((y =? 1) || (y =? 3))) || ((y =? 2) && ((x =? 1) || (x =? 3))))
       then 1 else 0).

(** A right ventricle on the positive x side of the tube: the voxel (4, 2)
    of every slice. *)
Definition rv_side : Image :=
  mkImage grid sitkUInt8
    (fun x y z => if on_grid z && (x =? 4) && (y =? 2) then 1 else 0).

(** A right ventricle on the positive y side of the tube: the voxel (2, 4)
    of every slice. *)
Definition rv_below : Image :=
  mkImage grid sitkUInt8
    (fun x y z => if on_grid z && (x =? 2) && (y =? 4) then 1 else 0).

Definition toy_config : Config :=
  mkConfig (KStr "LEFTVENTRICLE") (KStr "LEFTATRIUM") (KStr "RIGHTVENTRICLE")
           (KStr "MITRALVALVE") (KStr "WHOLEHEART") 10 0 1 10 false.

Definition toy_items : dict :=
  [ (KStr "WHOLEHEART", 1%nat); (KStr "LEFTVENTRICLE", 2%nat);
    (KStr "RIGHTVENTRICLE", 3%nat); (KStr "LEFTATRIUM", 4%nat);
    (KStr "MITRALVALVE", 5%nat) ].

(** A store as Module 4 finds it: the working dictionary at 0, the five
    masks, and the apex copy of the myocardium at 6. *)
Definition toy_store (rv : Image) : heap :=
  [ ODict toy_items; OImage tube; OImage tube; OImage rv; OImage tube; OImage tube;
    OImage (myo_apex tube 0) ].

(** An input: the [contours] dictionary at 0 and its five masks. *)
Definition toy_input : heap :=
  [ ODict toy_items; OImage tube; OImage tube; OImage rv_side; OImage tube; OImage tube ].

(** An input without the whole-heart mask: the dictionary at 0. *)
Definition heartless_store : heap :=
  [ ODict [ (KStr "LEFTVENTRICLE", 1%nat); (KStr "RIGHTVENTRICLE", 2%nat);
            (KStr "LEFTATRIUM", 3%nat); (KStr "MITRALVALVE", 4%nat) ];
    OImage tube; OImage rv_side; OImage tube; OImage tube ].

(** Inputs in which one mask has no voxel: the whole heart, the left
    ventricle, the mitral valve. *)
Definition empty_heart_store : heap :=
  [ ODict toy_items; OImage (img_scale 0 tube); OImage tube; OImage rv_side;
    OImage tube; OImage tube ].

Definition empty_lv_store : heap :=
  [ ODict toy_items; OImage tube; OImage (img_scale 0 tube); OImage rv_side;
    OImage tube; OImage tube ].

Definition empty_mv_store : heap :=
  [ ODict toy_items; OImage tube; OImage tube; OImage rv_side;
    OImage tube; OImage (img_scale 0 tube) ].

(** The configuration with no refinement iteration. *)
Definition no_refinement_config : Config :=
  mkConfig (KStr "LEFTVENTRICLE") (KStr "LEFTATRIUM") (KStr "RIGHTVENTRICLE")
           (KStr "MITRALVALVE") (KStr "WHOLEHEART") 10 3 1 0 false.

(** The initial alignment on the small input, and its transform. *)
Definition toy_initial_run : (exn + VersorRigid3DTransform) * heap :=
  initial_alignment (tk := grid_toolkit) toy_config 0%nat 0%nat (toy_store rv_side).

Definition toy_initial_transform : VersorRigid3DTransform :=
  result_of (mkVersor (0, 0, 0) (0, 0, 0) 0)%R (fst toy_initial_run).

(** The slice [z] of the tube. *)
Definition tube_slice (z : Z) : Slice :=
  mkSlice (5, 5) sitkUInt8 (fun x y => img_pix tube x y z).

(** ** Definitions used to state what a run keeps in the store *)

(** The dictionary [d] holds the keys [K], in that order. *)
Definition has_keys (h : heap) (d : loc) (K : list key) : Prop :=
  exists items, h !! d = Some (ODict items) /\ map fst items = K.

(** [m] keeps the property [P] of the store, whether it returns or raises,
    and what it returns satisfies [Q]. *)
Definition stable (P : heap -> Prop) {A} (m : M A) (Q : A -> Prop) : Prop :=
  forall h, P h -> P (snd (m h)) /\ forall a, fst (m h) = inr a -> Q a.

(** A property of the store that survives a new object, an update in place
    of an image, and an assignment [wc[k] = ...] under a key [k] that is
    [allowed]; the keys of [contours] are allowed. *)
Record closed_invariant (P : heap -> Prop) (contours wc : loc)
       (allowed : key -> Prop) : Prop := {
  closed_alloc : forall h o, P h -> P (h ++ [o]);
  closed_image : forall h l i i',
      P h -> h !! l = Some (OImage i) -> P (<[l := OImage i']> h);
  closed_assign : forall h items k l,
      P h -> h !! wc = Some (ODict items) -> allowed k ->
      P (<[wc := ODict (dict_update k l items)]> h);
  closed_labels : forall h items k,
      P h -> h !! contours = Some (ODict items) -> In k (map fst items) -> allowed k
}.

(** The keys of [contours] and of the working dictionary are the keys [K]. *)
Definition labels_kept (contours wc : loc) (K : list key) (h : heap) : Prop :=
  has_keys h contours K /\ has_keys h wc K.

(** ** Definitions used to state what Module 5 returns *)

(** Module 5 on one segment image (lines 442-458): resampled with the
    inverse transform, closed when [hole_fill_mm > 0], and pasted into a
    zero copy of the whole-heart mask. *)
Definition reprojected {tk : Toolkit} (cfg : Config) (seg heart : Image)
           (inverse_transform : Transform) (hole_fill_img cb_index : Z3) : Image :=
  let new_structure := rotate_back seg inverse_transform in
  let new_structure :=
    if Rlt_dec 0 (hole_fill_mm cfg)
    then BinaryMorphologicalClosing new_structure hole_fill_img
    else new_structure in
  Paste (img_scale 0 heart) new_structure (g_size (img_geom new_structure))
        (0, 0, 0) cb_index.

(** The dictionary [out] holds the keys 1 to [m], in that order, each with
    an image object of its own, created at or after [base], that holds
    [R k] under the key [k]. *)
Definition output_upto (m : Z) (h : heap) (out : loc) (R : Z -> Image)
           (base : nat) : Prop :=
  exists items,
    h !! out = Some (ODict items)
    /\ map fst items = map KInt (py_range 1 (m + 1))
    /\ List.NoDup (map snd items)
    /\ forall k l, In (k, l) items ->
         (base <= l)%nat
         /\ exists n, k = KInt n /\ h !! l = Some (OImage (R n)).

(** ** Definitions used to state what the transforms are *)

(** [t] rotates by the angle between a vector and the z axis, about their
    cross product. *)
Definition rotates_onto_z {tk : Toolkit} (t : VersorRigid3DTransform) : Prop :=
  exists v : R3,
    v_axis t = cross v unit_z /\ v_angle t = vector_angle v unit_z.

(** ** More of the small input *)

(** The apical reference angle of the small input. *)
Definition toy_theta_0_apical : R :=
  result_of 0%R (fst (apical_reference_angle (tk := grid_toolkit) toy_config 0%nat 0 2
                        (toy_store rv_side))).

(** * The crop box of the cardiac segmentation (segmentation/cardiac/run.py)

    The arithmetic of Step 1 of [run_cardiac_segmentation] (lines 222-236):
    the bounding box of the registered atlases is grown by
    [expansion * spacing] on each side, clipped to the image, and truncated
    to whole voxels. *)

Module CardiacRun.

(** One axis of [crop_box_index] and [crop_box_size]: [bb_index] and
    [bb_size] are the entries of [bounding_box[:3]] and [bounding_box[3:]]
    for the axis, [img_size] the entry of [img.GetSize()]. *)
Definition crop_box_axis (bb_index bb_size : Z) (expansion spacing : R) (img_size : Z)
  : Z * Z :=
  let expansion_array := (expansion * spacing)%R in
  (* np.max([bounding_box[:3] - expansion_array, np.array([0, 0, 0])], axis=0) *)
  let crop_box_index := Rmax (IZR bb_index - expansion_array) 0 in
  (* np.min([np.array(img.GetSize()) - crop_box_index,
             bounding_box[3:] + 2 * expansion_array], axis=0) *)
  let crop_box_size :=
    Rmin (IZR img_size - crop_box_index) (IZR bb_size + 2 * expansion_array) in
  (* [int(i) for i in crop_box_index], [int(i) for i in crop_box_size] *)
  (py_int crop_box_index, py_int crop_box_size).

(** [(crop_box_index, crop_box_size)] for the three axes. *)
Definition crop_box (bounding_box : Z3 * Z3) (expansion spacing : R3) (img_size : Z3)
  : Z3 * Z3 :=
  let '((bx, by_, bz), (sx, sy, sz)) := bounding_box in
  let '(ex, ey, ez) := expansion in
  let '(px, py, pz) := spacing in
  let '(nx, ny, nz) := img_size in
  let '(ix, wx) := crop_box_axis bx sx ex px nx in
  let '(iy, wy) := crop_box_axis by_ sy ey py ny in
  let '(iz, wz) := crop_box_axis bz sz ez pz nz in
  ((ix, iy, iz), (wx, wy, wz)).

End CardiacRun.

(** * Animations (platipy/imaging/visualisation/animation.py)

    [generate_animation_from_image_sequence] up to the call of
    [plt.subplots] (lines 74-92): the check for ImageMagick, the check of
    the images, and the size of the figure.  What follows, the drawing and
    the saving done by matplotlib, is the parameter [render]. *)

Module Animation.

(** An element of [image_list]: a SimpleITK image, with what [GetSize()]
    and [GetSpacing()] return, or an object of another type. *)
Inductive pyobj :=
| SitkImage (size : list Z) (spacing : list R)
| NotAnImage.

Inductive error :=
| RuntimeError
| ValueError
| IndexError
| ZeroDivisionError
| AttributeError.

(** What the function reads and writes outside its arguments. *)
Record World := mkWorld {
  convert_path : string;          (* rcParams["animation.convert_path"] *)
  path_exists : string -> bool    (* pathlib.Path(p).exists() *)
}.

(** [isinstance(i, sitk.Image)] *)
Definition is_image (i : pyobj) : bool :=
  match i with
  | SitkImage _ _ => true
  | NotAnImage => false
  end.

Definition GetSize (i : pyobj) : error + list Z :=
  match i with
  | SitkImage size _ => inr size
  | NotAnImage => inl AttributeError
  end.

Definition GetSpacing (i : pyobj) : error + list R :=
  match i with
  | SitkImage _ spacing => inr spacing
  | NotAnImage => inl AttributeError
  end.

(** [a, b = t] *)
Definition unpack2 {A} (t : list A) : error + (A * A) :=
  match t with
  | [a; b] => inr (a, b)
  | _ => inl ValueError
  end.

(** [l[n]] for an index that is not negative. *)
Definition subscript {A} (l : list A) (n : nat) : error + A :=
  match nth_error l n with
  | Some a => inr a
  | None => inl IndexError
  end.

(** [a / b] on floats. *)
Definition true_divide (a b : R) : error + R :=
  if Req_dec_T b 0 then inl ZeroDivisionError else inr (a / b)%R.

Definition and_then {A B} (r : error + A) (k : A -> error + B) : error + B :=
  match r with
  | inl e => inl e
  | inr a => k a
  end.

(** Lines 85-92: [(asp, figure_size)]. *)
Definition figure_geometry (image_list : list pyobj) (figure_size_in : R)
  : error + (R * (R * R)) :=
  and_then (subscript image_list 0) (fun first =>
  and_then (GetSize first) (fun size =>
  and_then (unpack2 size) (fun xy =>
  let '(x_size, y_size) := xy in
  and_then (subscript image_list 1) (fun second =>
  and_then (GetSpacing second) (fun spacing =>
  and_then (unpack2 spacing) (fun sp =>
  let '(x_spacing, y_spacing) := sp in
  and_then (true_divide y_spacing x_spacing) (fun asp =>
  and_then (true_divide (figure_size_in * (asp * IZR y_size)) (1 * IZR x_size))
    (fun height => inr (asp, (figure_size_in, height)))))))))).

Section Function.

(** The animation returned, and the other keyword arguments. *)
Variables Result PlotArguments : Type.

(** Lines 93-209. *)
Variable render :
  R * R -> R -> list pyobj -> PlotArguments -> World -> (error + Result) * World.

Definition generate_animation_from_image_sequence
           (image_list : list pyobj) (figure_size_in : R) (arguments : PlotArguments)
  : World -> (error + Result) * World :=
  fun w =>
    let w := mkWorld "/usr/bin/convert" (path_exists w) in
    if negb (path_exists w (convert_path w)) then (inl RuntimeError, w)
    else if negb (forallb is_image image_list) then (inl ValueError, w)
    else match figure_geometry image_list figure_size_in with
         | inl e => (inl e, w)
         | inr (asp, figure_size) => render figure_size asp image_list arguments w
         end.

End Function.

End Animation.

(** ** Definitions used to state where a run raises *)

(** The passes of the [while] loop of Module 2 (lines 164-215): from the
    test of the guard with [n], [overall_transform_list] and
    [rotation_angle] in the store [h], passes of the body that return lead
    to the test of the guard with [n'], [overall_transform_list'] and
    [rotation_angle'] in the store [h']. *)
Inductive loop_reaches {tk : Toolkit} (cfg : Config) (contours working_contours : loc)
  : Z -> list VersorRigid3DTransform -> R -> heap ->
    Z -> list VersorRigid3DTransform -> R -> heap -> Prop :=
| loop_reaches_here n overall_transform_list rotation_angle h :
    loop_reaches cfg contours working_contours
      n overall_transform_list rotation_angle h
      n overall_transform_list rotation_angle h
| loop_reaches_pass n overall_transform_list rotation_angle h rotation_transform h1
                    n' overall_transform_list' rotation_angle' h' :
    loop_guard cfg n rotation_angle = true ->
    refine_once cfg contours working_contours h = (inr rotation_transform, h1) ->
    loop_reaches cfg contours working_contours
      (n + 1) (overall_transform_list ++ [rotation_transform])
      (v_angle rotation_transform) h1
      n' overall_transform_list' rotation_angle' h' ->
    loop_reaches cfg contours working_contours
      n overall_transform_list rotation_angle h
      n' overall_transform_list' rotation_angle' h'.

(** The run on the store [h] gets to a test of the loop guard, with [n],
    [overall_transform_list] and [rotation_angle] in the store [h1]: the
    initial set up, the conversions, the crop and the initial alignment
    return, and then passes of the loop. *)
Definition run_reaches_pass {tk : Toolkit} (cfg : Config) (contours : loc) (h : heap)
           (working_contours : loc) (n : Z)
           (overall_transform_list : list VersorRigid3DTransform) (rotation_angle : R)
           (h1 : heap) : Prop :=
  exists (h0 : heap) (output_contours : loc) (h2 : heap) (lv heart : Image)
         (cb_size cb_index : Z3) (h5 : heap) (rotation_transform : VersorRigid3DTransform)
         (h7 : heap),
    deepcopy contours h = (inr working_contours, h0)
    /\ alloc (ODict []) h0 = (inr output_contours, h2)
    /\ dict_get_image working_contours (label_left_ventricle cfg) h2 = (inr lv, h2)
    /\ dict_get_image working_contours (label_heart cfg) h2 = (inr heart, h2)
    /\ label_to_roi (img_gt0 heart) (30, 30, 60)%R = inr (cb_size, cb_index)
    /\ crop_all contours working_contours cb_size cb_index h2 = (inr tt, h5)
    /\ initial_alignment cfg contours working_contours h5 = (inr rotation_transform, h7)
    /\ loop_reaches cfg contours working_contours
         0 [rotation_transform] (v_angle rotation_transform) h7
         n overall_transform_list rotation_angle h1.

(** The small instance of the toolkit with an angle of one radian between
    any two vectors, so that the loop of Module 2 is entered. *)
Definition tilted_toolkit : Toolkit := {|
  label_to_roi := whole_grid_roi;
  crop_to_roi := fun img _ _ => inr img;
  vector_angle := fun _ _ => 1%R;
  get_com_real := origin_com;
  get_com := fun _ => inr (6, 0, 0);
  get_com_slice := centroid_slice;
  GetPrincipalAxes := fun _ _ => inr ((0, 0, 1), (0, 1, 0), (1, 0, 0))%R;
  GetRegion := fun _ _ => inr (0, 0, 0, 0, 0, 0)%N;
  Resample := fun img _ _ _ => img;
  resample_source := fun _ _ p => Some p;
  TransformContinuousIndexToPhysicalPoint := fun _ p => p;
  BinaryErode := fun img _ => img_scale 0 img;
  BinaryDilate := fun img _ => img;
  BinaryMorphologicalClosing := fun img _ => img;
  Mask := fun img _ => img;
  Paste := fun dst src _ _ _ => src;
  Resample_nearest := fun _ _ _ _ _ _ => eq_refl
|}.

(** Modelled from the spec: [label_to_roi] and [get_com] are not among the
    sources read; the spec's ROI Cropper fails with [MissingStructureError]
    if the mask it is given has no positive voxels, and its Axis Aligner with
    [EmptyMaskError] if the mask whose centre it takes has none. *)
Definition helpers_fail_as_specified {tk : Toolkit} : Prop :=
  (forall img expansion_mm,
      np_where3 img = [] ->
      label_to_roi img expansion_mm = inl (OtherError "MissingStructureError"))
  /\ (forall img,
         np_where3 img = [] ->
         get_com_real img = inl (OtherError "EmptyMaskError")).

(** The run on the store [h] gets to Module 3 in the store [h6]: the
    initial set up (lines 95-96), the conversions (99-103), the crop
    (111-117) and the axis aligner (120-215) return; [lv] and [heart] are
    the masks the conversions and the crop read, before the crop. *)
Definition run_reaches_module_3 {tk : Toolkit} (cfg : Config) (contours : loc) (h : heap)
           (working_contours output_contours : loc) (lv heart : Image)
           (cb_size cb_index : Z3)
           (overall_transform_list : list VersorRigid3DTransform) (h6 : heap) : Prop :=
  exists (h0 h2 h5 : heap),
    deepcopy contours h = (inr working_contours, h0)
    /\ alloc (ODict []) h0 = (inr output_contours, h2)
    /\ dict_get_image working_contours (label_left_ventricle cfg) h2 = (inr lv, h2)
    /\ dict_get_image working_contours (label_heart cfg) h2 = (inr heart, h2)
    /\ label_to_roi (img_gt0 heart) (30, 30, 60)%R = inr (cb_size, cb_index)
    /\ crop_all contours working_contours cb_size cb_index h2 = (inr tt, h5)
    /\ axis_aligner cfg contours working_contours h5 = (inr overall_transform_list, h6).

(** The small instance of the toolkit with the mitral valve below the
    eroded left ventricle: the region starts at slice 11 and the centre of
    the mitral valve is on slice 3. *)
Definition low_valve_toolkit : Toolkit := {|
  label_to_roi := whole_grid_roi;
  crop_to_roi := fun img _ _ => inr img;
  vector_angle := fun _ _ => 0%R;
  get_com_real := origin_com;
  get_com := fun _ => inr (3, 0, 0);
  get_com_slice := centroid_slice;
  GetPrincipalAxes := fun _ _ => inr ((0, 0, 1), (0, 1, 0), (1, 0, 0))%R;
  GetRegion := fun _ _ => inr (0, 0, 11, 0, 0, 0)%N;
  Resample := fun img _ _ _ => img;
  resample_source := fun _ _ p => Some p;
  TransformContinuousIndexToPhysicalPoint := fun _ p => p;
  BinaryErode := fun img _ => img_scale 0 img;
  BinaryDilate := fun img _ => img;
  BinaryMorphologicalClosing := fun img _ => img;
  Mask := fun img _ => img;
  Paste := fun dst src _ _ _ => src;
  Resample_nearest := fun _ _ _ _ _ _ => eq_refl
|}.

(** * Properties *)

(** ** Real-number comparisons *)

Lemma Rleb_true a b : (a <= b)%R -> Rleb a b = true.
Proof. intros H. unfold Rleb. destruct (Rle_dec a b); [reflexivity | contradiction]. Qed.

Lemma Rleb_false a b : (b < a)%R -> Rleb a b = false.
Proof. intros H. unfold Rleb. destruct (Rle_dec a b); [lra | reflexivity]. Qed.

Lemma Rleb_spec a b : Rleb a b = true <-> (a <= b)%R.
Proof. unfold Rleb. destruct (Rle_dec a b); split; intros; easy. Qed.

Lemma Rltb_true a b : (a < b)%R -> Rltb a b = true.
Proof. intros H. unfold Rltb. destruct (Rlt_dec a b); [reflexivity | contradiction]. Qed.

Lemma Rltb_false a b : (b <= a)%R -> Rltb a b = false.
Proof. intros H. unfold Rltb. destruct (Rlt_dec a b); [lra | reflexivity]. Qed.

Lemma Reqb_true a b : a = b -> Reqb a b = true.
Proof. intros H. unfold Reqb. destruct (Req_dec_T a b); [reflexivity | contradiction]. Qed.

Lemma Reqb_false a b : a <> b -> Reqb a b = false.
Proof. intros H. unfold Reqb. destruct (Req_dec_T a b); [contradiction | reflexivity]. Qed.

(** Decide every comparison of the goal by linear arithmetic. *)
Ltac eval_Rcmp :=
  repeat match goal with
         | |- context [Rleb ?a ?b] =>
             first [ rewrite (Rleb_true a b) by lra
                   | rewrite (Rleb_false a b) by lra ]
         | |- context [Reqb ?a ?b] =>
             first [ rewrite (Reqb_true a b) by lra
                   | rewrite (Reqb_false a b) by lra ]
         end.

(** Split on the position of [t] relative to [b], dropping impossible cases. *)
Ltac split_at t b :=
  destruct (Rtotal_order t b) as [?|[?|?]]; try (exfalso; lra).

(** ** [arctan2] and the normalisation of angles *)

Lemma arctan2_bounds y x : (- PI < arctan2 y x <= PI)%R.
Proof.
  pose proof PI_RGT_0. pose proof (atan_bound (y / x)) as Hb.
  unfold arctan2.
  destruct (Rlt_dec 0 x); [lra|].
  destruct (Rlt_dec x 0).
  - assert (Hx : (/ x < 0)%R) by (apply Rinv_lt_0_compat; assumption).
    destruct (Rle_dec 0 y).
    + assert (y / x <= 0)%R.
      { unfold Rdiv. replace 0%R with (y * 0)%R by ring.
        apply Rmult_le_compat_l; lra. }
      assert (atan (y / x) <= 0)%R.
      { rewrite <- atan_0. destruct (Req_dec (y / x) 0) as [->|]; [lra|].
        left. apply atan_increasing. lra. }
      lra.
    + assert (0 < y / x)%R.
      { unfold Rdiv. replace (y * / x)%R with ((- y) * (- / x))%R by ring.
        apply Rmult_lt_0_compat; lra. }
      assert (0 < atan (y / x))%R.
      { rewrite <- atan_0. apply atan_increasing. lra. }
      lra.
  - destruct (Rlt_dec 0 y); [lra|]. destruct (Rlt_dec y 0); lra.
Qed.

Lemma arctan2_neg_x_axis x : (x < 0)%R -> arctan2 0 x = PI.
Proof.
  intros Hx. unfold arctan2.
  destruct (Rlt_dec 0 x); [lra|]. destruct (Rlt_dec x 0); [|lra].
  destruct (Rle_dec 0 0); [|lra].
  unfold Rdiv. rewrite Rmult_0_l, atan_0. lra.
Qed.

Lemma arctan2_pos_x_axis x : (0 < x)%R -> arctan2 0 x = 0%R.
Proof.
  intros Hx. unfold arctan2.
  destruct (Rlt_dec 0 x); [|lra].
  unfold Rdiv. rewrite Rmult_0_l. apply atan_0.
Qed.

Lemma arctan2_neg_y_axis y : (y < 0)%R -> arctan2 y 0 = (- (PI / 2))%R.
Proof.
  intros Hy. unfold arctan2.
  destruct (Rlt_dec 0 0); [lra|].
  destruct (Rlt_dec 0 y); [lra|]. destruct (Rlt_dec y 0); [reflexivity | lra].
Qed.

Lemma arctan2_second_diagonal : arctan2 1 (-1) = (3 * PI / 4)%R.
Proof.
  unfold arctan2.
  destruct (Rlt_dec 0 (-1)); [lra|]. destruct (Rlt_dec (-1) 0); [|lra].
  destruct (Rle_dec 0 1); [|lra].
  replace (1 / -1)%R with (Ropp 1) by field.
  rewrite atan_opp, atan_1. lra.
Qed.

Lemma add_2pi_if_negative_nonneg t : (0 <= t)%R -> add_2pi_if_negative t = t.
Proof. intros H. unfold add_2pi_if_negative. destruct (Rlt_dec t 0); [lra | reflexivity]. Qed.

Lemma add_2pi_if_negative_neg t : (t < 0)%R -> add_2pi_if_negative t = (t + 2 * PI)%R.
Proof. intros H. unfold add_2pi_if_negative. destruct (Rlt_dec t 0); [reflexivity | lra]. Qed.


(** With a reference angle in (-π, π], such as [theta_0_apical], the
    relative angle lands in [0, 2π). *)
Lemma relative_angle_range_apical y_0 x_0 reference p :
  (- PI < reference <= PI)%R ->
  (0 <= relative_angle y_0 x_0 reference p < 2 * PI)%R.
Proof.
  intros Href. pose proof PI_RGT_0.
  pose proof (arctan2_bounds (IZR (fst p) - y_0) (IZR (snd p) - x_0)).
  unfold relative_angle, add_2pi_if_negative.
  destruct (Rlt_dec _ 0); lra.
Qed.

(** With a reference angle in [0, 2π), such as [theta_0], one addition of 2π
    only guarantees (-π, 2π). *)
Lemma relative_angle_range_basal y_0 x_0 reference p :
  (0 <= reference < 2 * PI)%R ->
  (- PI < relative_angle y_0 x_0 reference p < 2 * PI)%R.
Proof.
  intros Href. pose proof PI_RGT_0.
  pose proof (arctan2_bounds (IZR (fst p) - y_0) (IZR (snd p) - x_0)).
  unfold relative_angle, add_2pi_if_negative.
  destruct (Rlt_dec _ 0); lra.
Qed.

Lemma relative_angle_range_small_reference y_0 x_0 reference p :
  (0 <= reference <= PI)%R ->
  (0 <= relative_angle y_0 x_0 reference p < 2 * PI)%R.
Proof.
  intros Href. pose proof PI_RGT_0.
  pose proof (arctan2_bounds (IZR (fst p) - y_0) (IZR (snd p) - x_0)).
  unfold relative_angle, add_2pi_if_negative.
  destruct (Rlt_dec _ 0); lra.
Qed.

(** ** The angular windows *)

Lemma in_segment_condition_closed angle_min angle_max angle :
  in_segment_condition false angle_min angle_max angle = true <->
  (angle_min <= angle <= angle_max)%R.
Proof.
  unfold in_segment_condition. rewrite andb_true_iff, !Rleb_spec. lra.
Qed.

Lemma in_segment_condition_wrap angle_min angle_max angle :
  in_segment_condition true angle_min angle_max angle = true <->
  (angle <= angle_min \/ angle_max <= angle)%R.
Proof.
  unfold in_segment_condition. rewrite orb_true_iff, !Rleb_spec. reflexivity.
Qed.

Lemma count_apical theta :
  (0 <= theta < 2 * PI)%R ->
  count_selecting apical_windows theta =
  (if (2 <=? count_endpoint apical_windows theta)%nat then 2 else 1)%nat.
Proof.
  intros H. pose proof PI_RGT_0.
  unfold count_selecting, count_endpoint, apical_windows, selects, endpoint_of,
    in_segment_condition;
    cbn [List.filter w_cw w_min w_max].
  split_at theta (PI / 4)%R; split_at theta (3 * PI / 4)%R;
    split_at theta (5 * PI / 4)%R; split_at theta (7 * PI / 4)%R;
    eval_Rcmp; reflexivity.
Qed.

Lemma count_six s1 s2 s3 s4 s5 s6 theta :
  (0 <= theta < 2 * PI)%R ->
  let band :=
    [ mkWindow s1 0 (PI / 3) false;
      mkWindow s2 (1 * PI / 3) (2 * PI / 3) false;
      mkWindow s3 (2 * PI / 3) (3 * PI / 3) false;
      mkWindow s4 (3 * PI / 3) (4 * PI / 3) false;
      mkWindow s5 (4 * PI / 3) (5 * PI / 3) false;
      mkWindow s6 (5 * PI / 3) (2 * PI) false ]%R in
  count_selecting band theta =
  (if (2 <=? count_endpoint band theta)%nat then 2 else 1)%nat.
Proof.
  intros H band. pose proof PI_RGT_0.
  unfold band, count_selecting, count_endpoint, selects, endpoint_of,
    in_segment_condition;
    cbn [List.filter w_cw w_min w_max].
  split_at theta (0)%R;
  split_at theta (PI / 3)%R; split_at theta (2 * PI / 3)%R; split_at theta (PI)%R;
    split_at theta (4 * PI / 3)%R; split_at theta (5 * PI / 3)%R;
    eval_Rcmp; reflexivity.
Qed.

Lemma count_selecting_bands (band : list window) (theta : R) :
  band = apical_windows \/ band = mid_windows \/ band = basal_windows ->
  (0 <= theta < 2 * PI)%R ->
  count_selecting band theta =
  (if (2 <=? count_endpoint band theta)%nat then 2 else 1)%nat.
Proof.
  intros [-> | [-> | ->]] Htheta.
  - apply count_apical; assumption.
  - apply (count_six 8 9 10 11 12 7); assumption.
  - apply (count_six 2 3 4 5 6 1); assumption.
Qed.

(** C2, as the code has it: the windows are closed intervals [min, max]
    (the wrap window selects theta <= min or theta >= max); every theta of
    [0, 2π) is selected by exactly one window of its band, unless it is an
    end of two windows of the band, and then by exactly two. *)
Theorem windows_cover_with_shared_ends (band : list window) (theta : R) :
  band = apical_windows \/ band = mid_windows \/ band = basal_windows ->
  (0 <= theta < 2 * PI)%R ->
  (forall w, In w band ->
     selects w theta = true <->
     if w_cw w then (theta <= w_min w \/ w_max w <= theta)%R
     else (w_min w <= theta <= w_max w)%R)
  /\ count_selecting band theta =
     (if (2 <=? count_endpoint band theta)%nat then 2 else 1)%nat.
Proof.
  intros Hband Htheta. split.
  - intros w _. unfold selects. destruct (w_cw w).
    + apply in_segment_condition_wrap.
    + apply in_segment_condition_closed.
  - apply count_selecting_bands; assumption.
Qed.

Lemma windows_cover_with_shared_ends_witness :
  count_selecting mid_windows 0 =
  (if (2 <=? count_endpoint mid_windows 0)%nat then 2 else 1)%nat.
Proof.
  apply (windows_cover_with_shared_ends mid_windows 0).
  - right; left; reflexivity.
  - pose proof PI_RGT_0; lra.
Defined.

(** C2 fails as stated: π lies in [0, 2π) and two windows of the mid band
    select it, the one of segment 10 at its upper end. *)
Lemma windows_overlap_at_pi :
  (0 <= PI < 2 * PI)%R
  /\ selects (mkWindow 10 (2 * PI / 3) (3 * PI / 3) false) PI = true
  /\ selects (mkWindow 11 (3 * PI / 3) (4 * PI / 3) false) PI = true
  /\ count_selecting mid_windows PI = 2%nat.
Proof.
  pose proof PI_RGT_0.
  unfold count_selecting, mid_windows, selects, in_segment_condition;
    cbn [List.filter w_cw w_min w_max].
  eval_Rcmp. repeat split; try reflexivity; lra.
Qed.

(** ** The monad *)

Lemma bind_inr {A B} (m : M A) (f : A -> M B) h b h' :
  bind m f h = (inr b, h') ->
  exists a h1, m h = (inr a, h1) /\ f a h1 = (inr b, h').
Proof.
  unfold bind. destruct (m h) as [[e | a] h1]; [discriminate|].
  intros H. exists a, h1. split; [reflexivity | exact H].
Qed.

Lemma bind_ok {A B} (m : M A) (f : A -> M B) h a h1 :
  m h = (inr a, h1) -> bind m f h = f a h1.
Proof. intros H. unfold bind. rewrite H. reflexivity. Qed.

Lemma bind_err {A B} (m : M A) (f : A -> M B) h e h1 :
  m h = (inl e, h1) -> bind m f h = (inl e, h1).
Proof. intros H. unfold bind. rewrite H. reflexivity. Qed.

Lemma lift_inr {A} (r : exn + A) h a h' :
  lift r h = (inr a, h') -> r = inr a /\ h' = h.
Proof. destruct r; cbn; intros H; inversion H; auto. Qed.

Lemma ret_inr {A} (a b : A) h h' : ret a h = (inr b, h') -> a = b /\ h' = h.
Proof. cbn. intros H; inversion H; auto. Qed.

Lemma read_only_ret {A} (a : A) : read_only (ret a).
Proof. intros h. reflexivity. Qed.

Lemma read_only_raise {A} e : read_only (@raise A e).
Proof. intros h. reflexivity. Qed.

Lemma read_only_lift {A} (r : exn + A) : read_only (lift r).
Proof. destruct r; intros h; reflexivity. Qed.

Lemma read_only_bind {A B} (m : M A) (f : A -> M B) :
  read_only m -> (forall a, read_only (f a)) -> read_only (bind m f).
Proof.
  intros Hm Hf h. unfold bind. specialize (Hm h).
  destruct (m h) as [[e | a] h1]; cbn in *; subst; [reflexivity | apply Hf].
Qed.

Lemma read_only_load_image l : read_only (load_image l).
Proof. intros h. unfold load_image. destruct (h !! l) as [[|]|]; reflexivity. Qed.

Lemma read_only_load_dict l : read_only (load_dict l).
Proof. intros h. unfold load_dict. destruct (h !! l) as [[|]|]; reflexivity. Qed.

Lemma read_only_dict_get d k : read_only (dict_get d k).
Proof.
  apply read_only_bind; [apply read_only_load_dict|].
  intros items. destruct (dict_lookup k items);
    [apply read_only_ret | apply read_only_raise].
Qed.

Lemma read_only_dict_get_image d k : read_only (dict_get_image d k).
Proof.
  apply read_only_bind; [apply read_only_dict_get | intros; apply read_only_load_image].
Qed.

Lemma read_only_collect {A B} (l : list A) (body : A -> M B) :
  (forall a, read_only (body a)) -> read_only (collect l body).
Proof.
  intros Hb. induction l as [|a l IH]; cbn [collect].
  - apply read_only_ret.
  - apply read_only_bind; [apply Hb|]. intros b.
    apply read_only_bind; [apply IH|]. intros bs. apply read_only_ret.
Qed.

Lemma read_only_run {A} (m : M A) h r h' : read_only m -> m h = (r, h') -> h' = h.
Proof. intros Hm H. specialize (Hm h). rewrite H in Hm. exact Hm. Qed.


Lemma run_fst {A} (m : M A) (h : heap) a :
  fst (m h) = inr a -> m h = (inr a, snd (m h)).
Proof. intros H. destruct (m h) as [r h']. cbn in *. congruence. Qed.

Lemma run_result {A} (m : M A) (h : heap) (default : A) :
  (exists a, fst (m h) = inr a) ->
  m h = (inr (result_of default (fst (m h))), snd (m h)).
Proof. intros [a H]. destruct (m h) as [r h']. cbn in *. subst r. reflexivity. Qed.

(** ** The refinement loop *)

Section Refinement.

Context {tk : Toolkit}.
Variable cfg : Config.

(** More fuel than the iteration budget leaves does not change the loop. *)
Lemma refinement_loop_fuel fuel1 : forall fuel2 contours wc n transforms angle h,
  (Z.to_nat (optimiser_max_iter cfg - n) <= fuel1)%nat ->
  (Z.to_nat (optimiser_max_iter cfg - n) <= fuel2)%nat ->
  refinement_loop cfg fuel1 contours wc n transforms angle h =
  refinement_loop cfg fuel2 contours wc n transforms angle h.
Proof.
  induction fuel1 as [|fuel1 IH]; intros fuel2 contours wc n transforms angle h H1 H2.
  - assert (Hg : loop_guard cfg n angle = false).
    { unfold loop_guard. replace (n <? optimiser_max_iter cfg) with false; [reflexivity|].
      symmetry. apply Z.ltb_ge. lia. }
    destruct fuel2; cbn [refinement_loop]; [reflexivity | rewrite Hg; reflexivity].
  - destruct fuel2 as [|fuel2].
    + assert (Hg : loop_guard cfg n angle = false).
      { unfold loop_guard. replace (n <? optimiser_max_iter cfg) with false; [reflexivity|].
        symmetry. apply Z.ltb_ge. lia. }
      cbn [refinement_loop]. rewrite Hg. reflexivity.
    + cbn [refinement_loop]. destruct (loop_guard cfg n angle) eqn:Hg; [|reflexivity].
      unfold loop_guard in Hg. apply andb_true_iff in Hg as [Hn _].
      apply Z.ltb_lt in Hn.
      unfold bind. destruct (refine_once cfg contours wc h) as [[e | t] h1]; [reflexivity|].
      apply IH; lia.
Qed.

(** When the guard is false the loop returns at once. *)
Lemma refinement_loop_exit fuel contours wc n transforms angle h :
  loop_guard cfg n angle = false ->
  refinement_loop cfg fuel contours wc n transforms angle h = (inr transforms, h).
Proof.
  intros Hg. destruct fuel; cbn [refinement_loop]; [reflexivity|].
  rewrite Hg. reflexivity.
Qed.

(** When the guard is true and fuel is left, the body runs. *)
Lemma refinement_loop_step fuel contours wc n transforms angle h :
  loop_guard cfg n angle = true ->
  refinement_loop cfg (S fuel) contours wc n transforms angle h =
  bind (refine_once cfg contours wc)
       (fun t => refinement_loop cfg fuel contours wc (n + 1) (transforms ++ [t]) (v_angle t)) h.
Proof. intros Hg. cbn [refinement_loop]. rewrite Hg. reflexivity. Qed.

End Refinement.

(** C8: with [optimiser_max_iter = 0] the guard of the loop is false from
    the start, whatever the fuel, so the Axis Aligner is the initial
    alignment alone and the transform list holds its one transform. *)
Theorem max_iter_zero_initial_alignment_only
        {tk : Toolkit} (cfg : Config) (contours wc : loc) (h : heap) :
  optimiser_max_iter cfg = 0 ->
  (forall fuel transforms angle h1,
      refinement_loop cfg fuel contours wc 0 transforms angle h1 = (inr transforms, h1))
  /\ axis_aligner cfg contours wc h =
     match initial_alignment cfg contours wc h with
     | (inr t, h') => (inr [t], h')
     | (inl e, h') => (inl e, h')
     end
  /\ (forall transforms h', axis_aligner cfg contours wc h = (inr transforms, h') ->
        length transforms = 1%nat).
Proof.
  intros Hmax.
  assert (Hloop : forall fuel transforms angle h1,
             refinement_loop cfg fuel contours wc 0 transforms angle h1 = (inr transforms, h1)).
  { intros. apply refinement_loop_exit. unfold loop_guard. rewrite Hmax. reflexivity. }
  assert (Hal : axis_aligner cfg contours wc h =
     match initial_alignment cfg contours wc h with
     | (inr t, h') => (inr [t], h')
     | (inl e, h') => (inl e, h')
     end).
  { unfold axis_aligner, bind.
    destruct (initial_alignment cfg contours wc h) as [[e | t] h']; [reflexivity|].
    apply Hloop. }
  repeat split; [exact Hloop | exact Hal |].
  intros transforms h' Hrun. rewrite Hal in Hrun.
  destruct (initial_alignment cfg contours wc h) as [[e | t] h1]; inversion Hrun; reflexivity.
Qed.

(** C10: when the angle of the initial rotation is within the tolerance, the
    first test of the guard, made on that angle, is false: the loop body does
    not run, whatever the iteration budget. *)
Theorem initial_angle_within_tolerance_skips_loop
        {tk : Toolkit} (cfg : Config) (contours wc : loc) (h : heap)
        (t : VersorRigid3DTransform) (h' : heap) :
  initial_alignment cfg contours wc h = (inr t, h') ->
  (Rabs (v_angle t) <= optimiser_tol_radians cfg)%R ->
  (forall fuel n, loop_guard cfg n (v_angle t) = false
                  /\ refinement_loop cfg fuel contours wc n [t] (v_angle t) h' = (inr [t], h'))
  /\ axis_aligner cfg contours wc h = (inr [t], h').
Proof.
  intros Hinit Htol.
  assert (Hg : forall n, loop_guard cfg n (v_angle t) = false).
  { intros n. unfold loop_guard. rewrite Rltb_false by exact Htol. apply andb_false_r. }
  split.
  - intros fuel n. split; [apply Hg | apply refinement_loop_exit, Hg].
  - unfold axis_aligner. rewrite (bind_ok _ _ _ _ _ Hinit).
    apply refinement_loop_exit, Hg.
Qed.

(** ** Ranges and [np.where] *)

Lemma In_py_range a b z : In z (py_range a b) <-> a <= z < b.
Proof.
  unfold py_range. rewrite in_map_iff. split.
  - intros (i & <- & Hi). apply in_seq in Hi. lia.
  - intros H. exists (Z.to_nat (z - a)). split; [lia|]. apply in_seq. lia.
Qed.

Lemma py_range_empty a b : b <= a -> py_range a b = [].
Proof.
  intros H. unfold py_range. replace (Z.to_nat (b - a)) with 0%nat by lia. reflexivity.
Qed.

Lemma py_range_cons a b : a < b -> py_range a b = a :: py_range (a + 1) b.
Proof.
  intros H. unfold py_range.
  replace (Z.to_nat (b - a)) with (S (Z.to_nat (b - (a + 1)))) by lia.
  cbn [seq map]. f_equal; [lia|].
  rewrite <- seq_shift, map_map. apply map_ext. intros i. lia.
Qed.

Lemma py_range_five a :
  py_range a (a + 5) = [a; a + 1; a + 2; a + 3; a + 4].
Proof.
  rewrite (py_range_cons a) by lia.
  rewrite (py_range_cons (a + 1)) by lia.
  rewrite (py_range_cons (a + 1 + 1)) by lia.
  rewrite (py_range_cons (a + 1 + 1 + 1)) by lia.
  rewrite (py_range_cons (a + 1 + 1 + 1 + 1)) by lia.
  rewrite py_range_empty by lia.
  replace (a + 1 + 1) with (a + 2) by lia.
  replace (a + 2 + 1) with (a + 3) by lia.
  replace (a + 3 + 1) with (a + 4) by lia.
  reflexivity.
Qed.

Lemma In_np_where2 s y x :
  In (y, x) (np_where2 s) <->
  0 <= x < fst (sl_size s) /\ 0 <= y < snd (sl_size s) /\ sl_pix s x y <> 0.
Proof.
  unfold np_where2, zrange. rewrite in_flat_map. split.
  - intros (y' & Hy & H). rewrite in_flat_map in H. destruct H as (x' & Hx & H).
    apply In_py_range in Hy, Hx.
    destruct (sl_pix s x' y' =? 0) eqn:E; [contradiction|].
    destruct H as [H | []]. inversion H; subst.
    apply Z.eqb_neq in E. repeat split; try lia; assumption.
  - intros (Hx & Hy & Hp). exists y. split; [apply In_py_range; lia|].
    rewrite in_flat_map. exists x. split; [apply In_py_range; lia|].
    apply Z.eqb_neq in Hp. rewrite Hp. left; reflexivity.
Qed.

Lemma In_np_where3 i z y x :
  In (z, y, x) (np_where3 i) <->
  0 <= x < size_x i /\ 0 <= y < size_y i /\ 0 <= z < size_z i /\ img_pix i x y z <> 0.
Proof.
  unfold np_where3, zrange. rewrite in_flat_map. split.
  - intros (z' & Hz & H). rewrite in_flat_map in H. destruct H as (y' & Hy & H).
    rewrite in_flat_map in H. destruct H as (x' & Hx & H).
    apply In_py_range in Hz, Hy, Hx.
    destruct (img_pix i x' y' z' =? 0) eqn:E; [contradiction|].
    destruct H as [H | []]. inversion H; subst.
    apply Z.eqb_neq in E. repeat split; try lia; assumption.
  - intros (Hx & Hy & Hz & Hp). exists z. split; [apply In_py_range; lia|].
    rewrite in_flat_map. exists y. split; [apply In_py_range; lia|].
    rewrite in_flat_map. exists x. split; [apply In_py_range; lia|].
    apply Z.eqb_neq in Hp. rewrite Hp. left; reflexivity.
Qed.

(** ** Minimum and median *)



Lemma array_min_R_total l : l <> [] -> exists m, array_min_R l = inr m.
Proof. destruct l; [congruence|]. intros _. eexists; reflexivity. Qed.







Lemma np_median_constant a : np_median [a; a; a; a; a] = a.
Proof.
  unfold np_median. cbn [length Nat.even Nat.div Nat.divmod fst Rsort fold_right Rinsert].
  repeat match goal with
         | |- context [Rle_dec a a] => destruct (Rle_dec a a); [|lra]; cbn [Rinsert]
         end.
  reflexivity.
Qed.

Lemma In_rv_angles lv_com loc_rv z a :
  In a (rv_angles lv_com loc_rv z) <->
  exists y x, In (z, y, x) loc_rv
              /\ a = add_2pi_if_negative (arctan2 (fst lv_com - IZR y) (IZR x - snd lv_com)).
Proof.
  unfold rv_angles. rewrite in_map_iff. split.
  - intros ([[z' y] x] & <- & Hin). apply filter_In in Hin as [Hin Hz].
    cbn in Hz. apply Z.eqb_eq in Hz. subst z'. exists y, x. split; [exact Hin | reflexivity].
  - intros (y & x & Hin & ->). exists (z, y, x). split; [reflexivity|].
    apply filter_In. split; [exact Hin | cbn; apply Z.eqb_refl].
Qed.

(** ** The basal reference angle *)

Section ReferenceAngles.

Context {tk : Toolkit}.
Variable cfg : Config.

Lemma read_only_rv_insertion_angle wc loc_rv z :
  read_only (rv_insertion_angle cfg wc loc_rv z).
Proof.
  apply read_only_bind; [apply read_only_dict_get_image|]. intros lv.
  apply read_only_bind; [apply read_only_lift|]. intros sl.
  apply read_only_bind; [apply read_only_lift|]. intros com.
  apply read_only_lift.
Qed.

Lemma read_only_basal_reference_angle wc mid_extent :
  read_only (basal_reference_angle cfg wc mid_extent).
Proof.
  apply read_only_bind; [apply read_only_dict_get_image|]. intros rv.
  apply read_only_bind; [|intros; apply read_only_ret].
  apply read_only_collect. intros z. apply read_only_rv_insertion_angle.
Qed.


End ReferenceAngles.


(** ** The division into thirds *)

Lemma collect_nil_inv {A B} (l : list A) (body : A -> M B) h h' :
  collect l body h = (inr [], h') -> l = [].
Proof.
  destruct l as [|a l]; [reflexivity|]. cbn [collect]. intros H.
  apply bind_inr in H as (b & h1 & _ & H).
  apply bind_inr in H as (bs & h2 & _ & H).
  apply ret_inr in H as [H _]. discriminate.
Qed.

(** The apical reference angle is only computed when the apical band has a
    slice: on an empty band, subscripting the mean raises. *)
Lemma apical_reference_angle_needs_slices
      {tk : Toolkit} (cfg : Config) wc inf_limit_lv apical_extent h theta h' :
  apical_reference_angle cfg wc inf_limit_lv apical_extent h = (inr theta, h') ->
  inf_limit_lv < apical_extent.
Proof.
  intros H. unfold apical_reference_angle in H.
  apply bind_inr in H as (coms & h1 & Hcol & H).
  destruct coms as [|c coms]; [discriminate|].
  destruct (Z_lt_le_dec inf_limit_lv apical_extent) as [Hlt | Hge]; [exact Hlt|].
  rewrite py_range_empty in Hcol by lia. apply ret_inr in Hcol as [Hcol _]. discriminate.
Qed.

Lemma int_div3_floor extent : 0 <= extent -> int_div3 extent = extent / 3.
Proof. intros H. unfold int_div3. apply Z.quot_div_nonneg; lia. Qed.

Lemma int_div3_pos extent : 0 < int_div3 extent -> 3 <= extent.
Proof.
  unfold int_div3. intros H.
  destruct (Z_lt_le_dec extent 3) as [Hlt | Hge]; [|exact Hge].
  destruct (Z_lt_le_dec extent 0) as [Hneg | Hnn].
  - pose proof (Z.quot_opp_l extent 3 ltac:(lia)) as Ho.
    assert (0 <= Z.quot (- extent) 3) by (apply Z.quot_pos; lia). lia.
  - rewrite Z.quot_small in H by lia. lia.
Qed.

Lemma py_slice_bound_in_range size v : 0 <= v <= size -> py_slice_bound size v = v.
Proof. intros H. unfold py_slice_bound. destruct (v <? 0) eqn:E; lia. Qed.

Lemma myo_apex_pix myo inf_limit_lv x y z :
  0 <= inf_limit_lv -> 0 <= z < size_z myo ->
  img_pix (myo_apex myo inf_limit_lv) x y z =
  if z <? inf_limit_lv then img_pix myo x y z else 0.
Proof.
  intros Hinf Hz. unfold myo_apex, zero_from, img_scale, py_slice_bound, size_z.
  cbn [img_pix img_geom]. fold (size_z myo).
  destruct (inf_limit_lv <? 0) eqn:E; [lia|].
  destruct (z <? inf_limit_lv) eqn:Ez.
  - replace (Z.min inf_limit_lv (size_z myo) <=? z) with false by (symmetry; apply Z.leb_gt; lia).
    cbn. destruct (img_pix myo x y z); reflexivity.
  - replace (Z.min inf_limit_lv (size_z myo) <=? z) with true by (symmetry; apply Z.leb_le; lia).
    replace (z <? size_z myo) with true by (symmetry; apply Z.ltb_lt; lia).
    reflexivity.
Qed.

Lemma myo_band_pix myo lower upper x y z :
  0 <= lower -> 0 <= upper -> 0 <= z < size_z myo ->
  img_pix (myo_band myo lower upper) x y z =
  if (lower <=? z) && (z <? upper) then img_pix myo x y z else 0.
Proof.
  intros Hlo Hup Hz. unfold myo_band, zero_from, zero_upto, img_scale, py_slice_bound, size_z.
  cbn [img_pix img_geom]. fold (size_z myo).
  destruct (lower <? 0) eqn:E1; [lia|]. destruct (upper <? 0) eqn:E2; [lia|].
  destruct (lower <=? z) eqn:El; destruct (z <? upper) eqn:Eu; cbn [andb].
  - replace (Z.min upper (size_z myo) <=? z) with false by (symmetry; apply Z.leb_gt; lia).
    replace (z <? Z.min lower (size_z myo)) with false by (symmetry; apply Z.ltb_ge; lia).
    rewrite andb_false_r. cbn. destruct (img_pix myo x y z); reflexivity.
  - replace (Z.min upper (size_z myo) <=? z) with true by (symmetry; apply Z.leb_le; lia).
    replace (z <? size_z myo) with true by (symmetry; apply Z.ltb_lt; lia).
    reflexivity.
  - replace (0 <=? z) with true by (symmetry; apply Z.leb_le; lia).
    replace (z <? Z.min lower (size_z myo)) with true by (symmetry; apply Z.ltb_lt; lia).
    cbn [andb]. destruct ((Z.min upper (size_z myo) <=? z) && (z <? size_z myo)); reflexivity.
  - replace (Z.min upper (size_z myo) <=? z) with true by (symmetry; apply Z.leb_le; lia).
    replace (z <? size_z myo) with true by (symmetry; apply Z.ltb_lt; lia).
    reflexivity.
Qed.

(** On a run that gets as far as the slice loops (the apical reference angle
    has been computed): [dc] is the floor of a third of the extent, and the
    loops and the cut images cover the slices stated. *)
Lemma axial_limits_thirds
      {tk : Toolkit} (cfg : Config) (wc : loc) (zstart : N) (com_mv : Z)
      (dc apical_extent mid_extent basal_extent : Z)
      (h : heap) (theta_0_apical : R) (h' : heap) :
  let inf_limit_lv := Z.of_N zstart in
  axial_limits inf_limit_lv com_mv = (dc, apical_extent, mid_extent, basal_extent) ->
  apical_reference_angle cfg wc inf_limit_lv apical_extent h = (inr theta_0_apical, h') ->
  dc = (com_mv - inf_limit_lv) / 3
  /\ (forall z, In z (py_range inf_limit_lv apical_extent) <->
                inf_limit_lv <= z < inf_limit_lv + dc)
  /\ (forall z, In z (py_range apical_extent mid_extent) <->
                inf_limit_lv + dc <= z < inf_limit_lv + 2 * dc)
  /\ (forall z, In z (py_range mid_extent basal_extent) <->
                inf_limit_lv + 2 * dc <= z < com_mv)
  /\ (forall myo x y z, 0 <= z < size_z myo ->
        img_pix (myo_apex myo inf_limit_lv) x y z =
          (if z <? inf_limit_lv then img_pix myo x y z else 0)
        /\ img_pix (myo_band myo inf_limit_lv apical_extent) x y z =
          (if (inf_limit_lv <=? z) && (z <? inf_limit_lv + dc)
           then img_pix myo x y z else 0)
        /\ img_pix (myo_band myo apical_extent mid_extent) x y z =
          (if (inf_limit_lv + dc <=? z) && (z <? inf_limit_lv + 2 * dc)
           then img_pix myo x y z else 0)
        /\ img_pix (myo_band myo mid_extent basal_extent) x y z =
          (if (inf_limit_lv + 2 * dc <=? z) && (z <? com_mv)
           then img_pix myo x y z else 0)).
Proof.
  intros inf_limit_lv Hlim Hap.
  apply apical_reference_angle_needs_slices in Hap.
  unfold axial_limits in Hlim. injection Hlim as Hdc Hae Hme Hbe.
  assert (Hinf : 0 <= inf_limit_lv) by (unfold inf_limit_lv; lia).
  assert (Hpos : 0 < int_div3 (com_mv - inf_limit_lv)) by lia.
  pose proof (int_div3_pos _ Hpos) as Hext.
  assert (Hfloor : dc = (com_mv - inf_limit_lv) / 3).
  { rewrite <- Hdc. apply int_div3_floor. lia. }
  split; [exact Hfloor|].
  subst apical_extent mid_extent basal_extent. rewrite Hdc in *.
  split; [intros z; rewrite In_py_range; lia|].
  split; [intros z; rewrite In_py_range; lia|].
  split; [intros z; rewrite In_py_range; lia|].
  intros myo x y z Hz. rewrite myo_apex_pix, !myo_band_pix by lia.
  repeat split; reflexivity.
Qed.

(** ** The frame: what a run may write *)

Lemma run_inv_init h0 : run_inv h0 h0.
Proof.
  split; [intros l o H; exact H|].
  intros d items Hf Hd. unfold fresh in Hf. congruence.
Qed.

Lemma dicts_stay_refl h : dicts_stay h h.
Proof. intros d items H. eauto. Qed.

Lemma dicts_stay_trans h1 h2 h3 : dicts_stay h1 h2 -> dicts_stay h2 h3 -> dicts_stay h1 h3.
Proof. intros H12 H23 d items H. apply H12 in H as [items' H]. eapply H23, H. Qed.

Lemma preserved_length h0 h : preserved h0 h -> (length h0 <= length h)%nat.
Proof.
  intros Hp. destruct (le_lt_dec (length h0) (length h)) as [|Hlt]; [assumption|].
  destruct (lookup_lt_is_Some_2 h0 (length h) Hlt) as [o Ho].
  apply Hp in Ho. apply lookup_lt_Some in Ho. lia.
Qed.

Lemma fresh_length h0 h : preserved h0 h -> fresh h0 (length h).
Proof. intros Hp. apply lookup_ge_None. apply preserved_length, Hp. Qed.

Section Keeps.

Variable h0 : heap.

Lemma keeps_ret {A} (Q : A -> Prop) a : Q a -> keeps h0 (ret a) Q.
Proof.
  intros HQ h Hinv. cbn. repeat split; try apply Hinv; [apply dicts_stay_refl|].
  intros b Hb. inversion Hb; subst; exact HQ.
Qed.

Lemma keeps_raise {A} (Q : A -> Prop) e : keeps h0 (raise e) Q.
Proof.
  intros h Hinv. cbn. repeat split; try apply Hinv; [apply dicts_stay_refl|].
  intros b Hb. discriminate.
Qed.

Lemma keeps_read_only {A} (m : M A) : read_only m -> keeps h0 m (fun _ => True).
Proof.
  intros Hro h Hinv. rewrite (Hro h).
  repeat split; try apply Hinv; apply dicts_stay_refl.
Qed.

Lemma keeps_lift {A} (r : exn + A) : keeps h0 (lift r) (fun _ => True).
Proof. apply keeps_read_only, read_only_lift. Qed.

Lemma keeps_bind {A B} (m : M A) (f : A -> M B) (Q : A -> Prop) (Q' : B -> Prop) :
  keeps h0 m Q -> (forall a, Q a -> keeps h0 (f a) Q') -> keeps h0 (bind m f) Q'.
Proof.
  intros Hm Hf h Hinv. destruct (Hm h Hinv) as (Hi & Hd & HQ).
  unfold bind. destruct (m h) as [[e | a] h1]; cbn [fst snd] in *.
  - repeat split; try apply Hi; [exact Hd | discriminate].
  - destruct (Hf a (HQ a eq_refl) h1 Hi) as (Hi2 & Hd2 & HQ2).
    repeat split; try apply Hi2; [eapply dicts_stay_trans; eassumption | exact HQ2].
Qed.

Lemma keeps_weaken {A} (m : M A) (Q Q' : A -> Prop) :
  keeps h0 m Q -> (forall a, Q a -> Q' a) -> keeps h0 m Q'.
Proof.
  intros Hm HQ h Hinv. destruct (Hm h Hinv) as (Hi & Hd & Hq).
  repeat split; try apply Hi; [exact Hd | intros a Ha; apply HQ, Hq, Ha].
Qed.

Lemma keeps_for_each {A} (l : list A) (body : A -> M unit) :
  (forall a, keeps h0 (body a) (fun _ => True)) ->
  keeps h0 (for_each l body) (fun _ => True).
Proof.
  intros Hb. induction l as [|a l IH]; cbn [for_each].
  - apply keeps_ret. exact I.
  - eapply keeps_bind; [apply Hb|]. intros _ _. exact IH.
Qed.

Lemma keeps_alloc o :
  (forall items, o = ODict items -> Forall (fun kl => fresh h0 (snd kl)) items) ->
  keeps h0 (alloc o) (fresh h0).
Proof.
  intros Ho h [Hp Hd]. unfold alloc. cbn [fst snd]. repeat split.
  - intros l x Hl. apply lookup_app_l_Some, Hp, Hl.
  - intros d items Hf Hlook.
    destruct (le_lt_dec (length h) d) as [Hge | Hlt].
    + rewrite lookup_app_r in Hlook by exact Hge.
      destruct (d - length h)%nat as [|n] eqn:E; cbn in Hlook; [|discriminate].
      inversion Hlook; subst. apply Ho. reflexivity.
    + rewrite lookup_app_l in Hlook by exact Hlt. eapply Hd; eassumption.
  - intros d items Hlook. exists items. apply lookup_app_l_Some, Hlook.
  - intros a Ha. inversion Ha; subst. apply fresh_length, Hp.
Qed.

Lemma keeps_alloc_image i : keeps h0 (alloc (OImage i)) (fresh h0).
Proof. apply keeps_alloc. intros items H. discriminate. Qed.

(** Writing an image over an image created since [h0]. *)
Lemma keeps_modify_image l f :
  fresh h0 l -> keeps h0 (modify_image l f) (fun _ => True).
Proof.
  intros Hl h [Hp Hd]. unfold modify_image, bind, load_image.
  destruct (h !! l) as [[i | d] |] eqn:El; cbn [fst snd];
    try (repeat split; try assumption; apply dicts_stay_refl).
  destruct (f i) as [e | i']; cbn [lift raise ret store fst snd];
    try (repeat split; try assumption; apply dicts_stay_refl).
  repeat split.
  - intros l' o Hl'. rewrite list_lookup_insert_ne; [apply Hp, Hl'|].
    intros ->. unfold fresh in Hl. congruence.
  - intros d items Hf Hlook.
    destruct (Nat.eq_dec l d) as [-> | Hne].
    + rewrite list_lookup_insert_eq in Hlook by (eapply lookup_lt_Some, El). discriminate.
    + rewrite list_lookup_insert_ne in Hlook by exact Hne. eapply Hd; eassumption.
  - intros d items Hlook. destruct (Nat.eq_dec l d) as [-> | Hne]; [congruence|].
    exists items. rewrite list_lookup_insert_ne by exact Hne. exact Hlook.
Qed.

Lemma dict_update_fresh k l items :
  fresh h0 l ->
  Forall (fun kl => fresh h0 (snd kl)) items ->
  Forall (fun kl => fresh h0 (snd kl)) (dict_update k l items).
Proof.
  intros Hl. induction 1 as [|[k' l'] items Hk Hitems IH]; cbn [dict_update].
  - repeat constructor. exact Hl.
  - destruct (key_eqb k k'); constructor; assumption.
Qed.

Lemma dict_lookup_fresh k items l :
  Forall (fun kl => fresh h0 (snd kl)) items ->
  dict_lookup k items = Some l -> fresh h0 l.
Proof.
  induction 1 as [|[k' l'] items Hk Hitems IH]; cbn [dict_lookup]; [discriminate|].
  destruct (key_eqb k k'); [|exact IH]. intros H. inversion H; subst. exact Hk.
Qed.

(** A dictionary created since [h0] yields objects created since. *)
Lemma keeps_dict_get d k : fresh h0 d -> keeps h0 (dict_get d k) (fresh h0).
Proof.
  intros Hfd h [Hp Hd].
  rewrite (read_only_dict_get d k h).
  repeat split; try assumption; [apply dicts_stay_refl|].
  intros l Hl. unfold dict_get, bind, load_dict in Hl.
  destruct (h !! d) as [[i | items] |] eqn:El; cbn in Hl; try discriminate.
  destruct (dict_lookup k items) as [l' |] eqn:Ek; cbn in Hl; inversion Hl; subst.
  eapply dict_lookup_fresh; [|exact Ek]. eapply Hd; eassumption.
Qed.

Lemma keeps_dict_set d k l :
  fresh h0 d -> fresh h0 l -> keeps h0 (dict_set d k l) (fun _ => True).
Proof.
  intros Hfd Hfl h [Hp Hd]. unfold dict_set, bind, load_dict.
  destruct (h !! d) as [[i | items] |] eqn:El; cbn [fst snd store];
    try (repeat split; try assumption; apply dicts_stay_refl).
  repeat split.
  - intros l' o Hl'. rewrite list_lookup_insert_ne; [apply Hp, Hl'|].
    intros ->. unfold fresh in Hfd. congruence.
  - intros d' items' Hf Hlook.
    destruct (Nat.eq_dec d d') as [-> | Hne].
    + rewrite list_lookup_insert_eq in Hlook by (eapply lookup_lt_Some, El).
      inversion Hlook; subst. apply dict_update_fresh; [exact Hfl|].
      eapply Hd; eassumption.
    + rewrite list_lookup_insert_ne in Hlook by exact Hne. eapply Hd; eassumption.
  - intros d' items' Hlook. destruct (Nat.eq_dec d d') as [-> | Hne].
    + eexists. apply list_lookup_insert_eq. eapply lookup_lt_Some, El.
    + exists items'. rewrite list_lookup_insert_ne by exact Hne. exact Hlook.
Qed.

Lemma keeps_dict_set_new d k img :
  fresh h0 d -> keeps h0 (dict_set_new d k img) (fun _ => True).
Proof.
  intros Hfd. eapply keeps_bind; [apply keeps_alloc_image|].
  intros l Hl. apply keeps_dict_set; assumption.
Qed.

Lemma keeps_dict_get_image d k : keeps h0 (dict_get_image d k) (fun _ => True).
Proof. apply keeps_read_only, read_only_dict_get_image. Qed.

Lemma keeps_dict_keys d : keeps h0 (dict_keys d) (fun _ => True).
Proof.
  apply keeps_read_only, read_only_bind; [apply read_only_load_dict|].
  intros; apply read_only_ret.
Qed.

Lemma memo_lookup_fresh l memo l' :
  Forall (fun p => fresh h0 (snd p)) memo -> memo_lookup l memo = Some l' -> fresh h0 l'.
Proof.
  induction 1 as [|[a b] memo Hb Hmemo IH]; cbn [memo_lookup]; [discriminate|].
  destruct (Nat.eqb l a); [|exact IH]. intros H; inversion H; subst; exact Hb.
Qed.

Lemma keeps_deepcopy_items items : forall memo,
  Forall (fun p => fresh h0 (snd p)) memo ->
  keeps h0 (deepcopy_items items memo) (Forall (fun kl => fresh h0 (snd kl))).
Proof.
  induction items as [|[k l] items IH]; intros memo Hmemo; cbn [deepcopy_items].
  - apply keeps_ret. constructor.
  - destruct (memo_lookup l memo) as [l' |] eqn:E.
    + eapply keeps_bind; [apply IH, Hmemo|]. intros rest Hrest.
      apply keeps_ret. constructor; [|exact Hrest].
      eapply memo_lookup_fresh; eassumption.
    + eapply keeps_bind; [apply keeps_read_only, read_only_load_image|]. intros img _.
      eapply keeps_bind; [apply keeps_alloc_image|]. intros l' Hl'.
      eapply keeps_bind; [apply IH; constructor; assumption|]. intros rest Hrest.
      apply keeps_ret. constructor; assumption.
Qed.

Lemma keeps_deepcopy d : keeps h0 (deepcopy d) (fresh h0).
Proof.
  eapply keeps_bind; [apply keeps_read_only, read_only_load_dict|]. intros items _.
  eapply keeps_bind; [apply keeps_deepcopy_items; constructor|]. intros items' Hitems'.
  apply keeps_alloc. intros its H. inversion H; subst. exact Hitems'.
Qed.

Context {tk : Toolkit}.
Variable cfg : Config.

Lemma keeps_crop_all contours wc cb_size cb_index :
  fresh h0 wc -> keeps h0 (crop_all contours wc cb_size cb_index) (fun _ => True).
Proof.
  intros Hwc. eapply keeps_bind; [apply keeps_dict_keys|]. intros labels _.
  apply keeps_for_each. intros label.
  eapply keeps_bind; [apply keeps_dict_get_image|]. intros img _.
  eapply keeps_bind; [apply keeps_lift|]. intros cropped _.
  apply keeps_dict_set_new, Hwc.
Qed.

Lemma keeps_resample_all contours wc t :
  fresh h0 wc -> keeps h0 (resample_all contours wc t) (fun _ => True).
Proof.
  intros Hwc. eapply keeps_bind; [apply keeps_dict_keys|]. intros labels _.
  apply keeps_for_each. intros label.
  eapply keeps_bind; [apply keeps_dict_get_image|]. intros img _.
  apply keeps_dict_set_new, Hwc.
Qed.

Lemma keeps_initial_alignment contours wc :
  fresh h0 wc -> keeps h0 (initial_alignment cfg contours wc) (fun _ => True).
Proof.
  intros Hwc. unfold initial_alignment.
  eapply keeps_bind; [apply keeps_dict_get_image|]. intros lv _.
  eapply keeps_bind; [apply keeps_dict_get_image|]. intros la _.
  eapply keeps_bind; [apply keeps_lift|]. intros axes _.
  eapply keeps_bind; [apply keeps_lift|]. intros centre _.
  eapply keeps_bind; [apply keeps_resample_all, Hwc|]. intros _ _.
  apply keeps_ret. exact I.
Qed.

Lemma keeps_refine_once contours wc :
  fresh h0 wc -> keeps h0 (refine_once cfg contours wc) (fun _ => True).
Proof.
  intros Hwc. unfold refine_once.
  eapply keeps_bind; [apply keeps_dict_get_image|]. intros lv _.
  eapply keeps_bind; [apply keeps_lift|]. intros lv_apex_z _.
  eapply keeps_bind; [apply keeps_dict_get_image|]. intros mv _.
  eapply keeps_bind; [apply keeps_lift|]. intros mv_com _.
  eapply keeps_bind; [apply keeps_dict_get_image|]. intros lv' _.
  eapply keeps_bind; [apply keeps_resample_all, Hwc|]. intros _ _.
  apply keeps_ret. exact I.
Qed.

Lemma keeps_refinement_loop fuel : forall contours wc n transforms angle,
  fresh h0 wc ->
  keeps h0 (refinement_loop cfg fuel contours wc n transforms angle) (fun _ => True).
Proof.
  induction fuel as [|fuel IH]; intros contours wc n transforms angle Hwc;
    cbn [refinement_loop].
  - apply keeps_ret. exact I.
  - destruct (loop_guard cfg n angle); [|apply keeps_ret; exact I].
    eapply keeps_bind; [apply keeps_refine_once, Hwc|]. intros t _.
    apply IH, Hwc.
Qed.

Lemma keeps_axis_aligner contours wc :
  fresh h0 wc -> keeps h0 (axis_aligner cfg contours wc) (fun _ => True).
Proof.
  intros Hwc. eapply keeps_bind; [apply keeps_initial_alignment, Hwc|]. intros t _.
  apply keeps_refinement_loop, Hwc.
Qed.

Lemma read_only_extract_myocardium wc erode_img :
  read_only (extract_myocardium cfg wc erode_img).
Proof.
  apply read_only_bind; [apply read_only_dict_get_image|]. intros lv.
  apply read_only_bind; [apply read_only_dict_get_image|]. intros lv'.
  apply read_only_ret.
Qed.

Lemma read_only_long_axis_limits wc label_lv_inner :
  read_only (long_axis_limits cfg wc label_lv_inner).
Proof.
  apply read_only_bind; [apply read_only_lift|]. intros region.
  apply read_only_bind; [apply read_only_dict_get_image|]. intros mv.
  apply read_only_bind; [apply read_only_lift|]. intros com.
  apply read_only_ret.
Qed.

Lemma keeps_cut_myocardium label_lv_myo inf_limit_lv apical_extent mid_extent basal_extent :
  keeps h0 (cut_myocardium label_lv_myo inf_limit_lv apical_extent mid_extent basal_extent)
        (fresh h0).
Proof.
  unfold cut_myocardium.
  eapply keeps_bind; [apply keeps_alloc_image|]. intros apex Hapex.
  eapply keeps_bind; [apply keeps_modify_image, Hapex|]. intros _ _.
  eapply keeps_bind; [apply keeps_alloc_image|]. intros apical Hapical.
  eapply keeps_bind; [apply keeps_modify_image, Hapical|]. intros _ _.
  eapply keeps_bind; [apply keeps_modify_image, Hapical|]. intros _ _.
  eapply keeps_bind; [apply keeps_alloc_image|]. intros mid Hmid.
  eapply keeps_bind; [apply keeps_modify_image, Hmid|]. intros _ _.
  eapply keeps_bind; [apply keeps_modify_image, Hmid|]. intros _ _.
  eapply keeps_bind; [apply keeps_alloc_image|]. intros basal Hbasal.
  eapply keeps_bind; [apply keeps_modify_image, Hbasal|]. intros _ _.
  eapply keeps_bind; [apply keeps_modify_image, Hbasal|]. intros _ _.
  apply keeps_ret. exact Hapex.
Qed.

Lemma read_only_apical_reference_angle wc inf_limit_lv apical_extent :
  read_only (apical_reference_angle cfg wc inf_limit_lv apical_extent).
Proof.
  apply read_only_bind.
  - apply read_only_collect. intros n.
    apply read_only_bind; [apply read_only_dict_get_image|]. intros lv.
    apply read_only_bind; [apply read_only_lift|]. intros lv_slice.
    apply read_only_bind; [apply read_only_lift|]. intros lv_com.
    apply read_only_bind; [apply read_only_dict_get_image|]. intros rv.
    apply read_only_bind; [apply read_only_lift|]. intros rv_slice.
    apply read_only_bind; [apply read_only_lift|]. intros rv_com.
    apply read_only_ret.
  - intros coms. destruct (mean_axis0 (map fst coms)); [|apply read_only_raise].
    destruct (mean_axis0 (map snd coms)); [apply read_only_ret | apply read_only_raise].
Qed.

Lemma keeps_assign_slice wc n seg sl :
  fresh h0 wc -> keeps h0 (assign_slice wc n seg sl) (fun _ => True).
Proof.
  intros Hwc. eapply keeps_bind; [apply keeps_dict_get, Hwc|]. intros l Hl.
  apply keeps_modify_image, Hl.
Qed.

Lemma keeps_segment_slice wc label_lv_myo reference band n :
  fresh h0 wc ->
  keeps h0 (segment_slice wc label_lv_myo reference band n) (fun _ => True).
Proof.
  intros Hwc. unfold segment_slice.
  eapply keeps_bind; [apply keeps_lift|]. intros sl _.
  eapply keeps_bind; [apply keeps_lift|]. intros [y_0 x_0] _.
  apply keeps_for_each. intros w. apply keeps_assign_slice, Hwc.
Qed.

Lemma keeps_angular_segmenter wc label_lv_myo apex inf_limit_lv apical_extent
      mid_extent basal_extent theta_0 theta_0_apical :
  fresh h0 wc -> fresh h0 apex ->
  keeps h0 (angular_segmenter cfg wc label_lv_myo apex inf_limit_lv apical_extent
              mid_extent basal_extent theta_0 theta_0_apical) (fun _ => True).
Proof.
  intros Hwc Hapex. unfold angular_segmenter.
  eapply keeps_bind.
  { apply keeps_for_each. intros i.
    eapply keeps_bind; [apply keeps_dict_get_image|]. intros heart _.
    apply keeps_dict_set_new, Hwc. }
  intros _ _.
  eapply keeps_bind; [apply keeps_dict_set; assumption|]. intros _ _.
  eapply keeps_bind; [apply keeps_for_each; intros n; apply keeps_segment_slice, Hwc|].
  intros _ _.
  eapply keeps_bind; [apply keeps_for_each; intros n; apply keeps_segment_slice, Hwc|].
  intros _ _.
  apply keeps_for_each; intros n; apply keeps_segment_slice, Hwc.
Qed.

Lemma keeps_reproject_segment contours wc out inverse_transform hole_fill_img cb_index segment :
  fresh h0 out ->
  keeps h0 (reproject_segment cfg contours wc out inverse_transform hole_fill_img
              cb_index segment) (fun _ => True).
Proof.
  intros Hout. unfold reproject_segment.
  eapply keeps_bind; [apply keeps_dict_get_image|]. intros seg _.
  eapply keeps_bind; [apply keeps_dict_get_image|]. intros heart _.
  apply keeps_dict_set_new, Hout.
Qed.

(** The modules keep the invariant and return the output dictionary. *)
Lemma keeps_run_modules contours wc out :
  fresh h0 wc -> fresh h0 out ->
  keeps h0 (run_modules cfg contours wc out) (fun a => a = out).
Proof.
  intros Hwc Hout. unfold run_modules.
  eapply keeps_bind; [apply keeps_dict_get_image|]. intros lv _.
  eapply keeps_bind; [apply keeps_dict_get_image|]. intros heart _.
  eapply keeps_bind; [apply keeps_dict_get_image|]. intros heart' _.
  eapply keeps_bind; [apply keeps_lift|]. intros [cb_size cb_index] _.
  eapply keeps_bind; [apply keeps_crop_all, Hwc|]. intros _ _.
  eapply keeps_bind; [apply keeps_axis_aligner, Hwc|]. intros transforms _.
  eapply keeps_bind; [apply keeps_read_only, read_only_extract_myocardium|].
  intros [label_lv_inner label_lv_myo] _.
  eapply keeps_bind; [apply keeps_read_only, read_only_long_axis_limits|].
  intros [inf_limit_lv com_mv] _.
  destruct (axial_limits inf_limit_lv com_mv) as [[[dc apical_extent] mid_extent] basal_extent].
  eapply keeps_bind; [apply keeps_cut_myocardium|]. intros apex Hapex.
  eapply keeps_bind; [apply keeps_read_only, read_only_basal_reference_angle|].
  intros theta_0 _.
  eapply keeps_bind; [apply keeps_read_only, read_only_apical_reference_angle|].
  intros theta_0_apical _.
  eapply keeps_bind; [apply keeps_angular_segmenter; assumption|]. intros _ _.
  eapply keeps_bind.
  { apply keeps_for_each. intros segment. apply keeps_reproject_segment, Hout. }
  intros _ _. apply keeps_ret. reflexivity.
Qed.

Lemma keeps_generate_left_ventricle_segments contours :
  keeps h0 (generate_left_ventricle_segments cfg contours) (fresh h0).
Proof.
  unfold generate_left_ventricle_segments.
  eapply keeps_bind; [apply keeps_deepcopy|]. intros wc Hwc.
  eapply keeps_bind; [apply keeps_alloc; intros items H; inversion H; constructor|].
  intros out Hout.
  eapply keeps_weaken; [apply keeps_run_modules; assumption|].
  intros a ->. exact Hout.
Qed.

End Keeps.

(** C9: a run never writes to an object that existed before the call: the
    [contours] dictionary and every image of the initial store, voxels and
    geometry, are the same afterwards, whether the run returns or raises;
    the dictionary returned and the images in it were all created by the
    run. *)
Theorem inputs_never_mutated
        {tk : Toolkit} (cfg : Config) (contours : loc) (h : heap) :
  (forall l o, h !! l = Some o ->
     snd (generate_left_ventricle_segments cfg contours h) !! l = Some o)
  /\ (forall out, fst (generate_left_ventricle_segments cfg contours h) = inr out ->
        h !! out = None
        /\ exists items,
             snd (generate_left_ventricle_segments cfg contours h) !! out = Some (ODict items)
             /\ forall k l, In (k, l) items -> h !! l = None).
Proof.
  destruct (keeps_generate_left_ventricle_segments h cfg contours h (run_inv_init h))
    as ([Hp Hd] & _ & HQ).
  split; [exact Hp|].
  intros out Hout. pose proof (HQ out Hout) as Hfresh. split; [exact Hfresh|].
  assert (Hdict : exists items,
             snd (generate_left_ventricle_segments cfg contours h) !! out = Some (ODict items)).
  { destruct (generate_left_ventricle_segments cfg contours h) as [r h'] eqn:Hrun.
    cbn [fst snd] in *. subst r.
    unfold generate_left_ventricle_segments in Hrun.
    apply bind_inr in Hrun as (wc & h1 & Hcopy & Hrun).
    apply bind_inr in Hrun as (out' & h2 & Halloc & Hrun).
    destruct (keeps_deepcopy h contours h (run_inv_init h)) as (Hi1 & _ & Hq1).
    rewrite Hcopy in Hi1, Hq1. cbn [fst snd] in Hi1, Hq1.
    assert (Ha : keeps h (alloc (ODict [])) (fresh h))
      by (apply keeps_alloc; intros items H; inversion H; constructor).
    destruct (Ha h1 Hi1) as (Hi2 & _ & Hq2).
    rewrite Halloc in Hi2, Hq2. cbn [fst snd] in Hi2, Hq2.
    destruct (keeps_run_modules h cfg contours wc out' (Hq1 wc eq_refl) (Hq2 out' eq_refl)
                h2 Hi2) as (_ & Hstay & Hq3).
    rewrite Hrun in Hstay, Hq3. cbn [fst snd] in Hstay, Hq3.
    rewrite (Hq3 out eq_refl).
    unfold alloc in Halloc. inversion Halloc; subst.
    apply (Hstay (length h1) []). apply list_lookup_middle. reflexivity. }
  destruct Hdict as [items Hitems]. exists items. split; [exact Hitems|].
  intros k l Hin.
  specialize (Hd out items Hfresh Hitems).
  rewrite List.Forall_forall in Hd. exact (Hd (k, l) Hin).
Qed.

(** ** Running dictionary reads on a known store *)

Lemma load_dict_ok (h : heap) d items :
  h !! d = Some (ODict items) -> load_dict d h = (inr items, h).
Proof. intros H. unfold load_dict. rewrite H. reflexivity. Qed.

Lemma load_image_ok (h : heap) l img :
  h !! l = Some (OImage img) -> load_image l h = (inr img, h).
Proof. intros H. unfold load_image. rewrite H. reflexivity. Qed.

Lemma dict_get_ok (h : heap) d items k l :
  h !! d = Some (ODict items) -> dict_lookup k items = Some l ->
  dict_get d k h = (inr l, h).
Proof.
  intros Hd Hk. unfold dict_get. rewrite (bind_ok _ _ _ _ _ (load_dict_ok _ _ _ Hd)).
  rewrite Hk. reflexivity.
Qed.

Lemma dict_get_image_ok (h : heap) d items k l img :
  h !! d = Some (ODict items) -> dict_lookup k items = Some l ->
  h !! l = Some (OImage img) ->
  dict_get_image d k h = (inr img, h).
Proof.
  intros Hd Hk Hl. unfold dict_get_image.
  rewrite (bind_ok _ _ _ _ _ (dict_get_ok _ _ _ _ _ Hd Hk)).
  apply load_image_ok, Hl.
Qed.

Lemma dict_get_image_missing (h : heap) d items k :
  h !! d = Some (ODict items) -> dict_lookup k items = None ->
  dict_get_image d k h = (inl KeyError, h).
Proof.
  intros Hd Hk. unfold dict_get_image, dict_get, bind, load_dict.
  rewrite Hd, Hk. reflexivity.
Qed.

Lemma dict_get_image_inr (h : heap) d k img h' :
  dict_get_image d k h = (inr img, h') ->
  h' = h /\ exists items l,
    h !! d = Some (ODict items) /\ dict_lookup k items = Some l
    /\ h !! l = Some (OImage img).
Proof.
  intros H.
  pose proof (read_only_run _ _ _ _ (read_only_dict_get_image d k) H) as ->.
  split; [reflexivity|].
  unfold dict_get_image, dict_get, bind, load_dict, load_image in H.
  destruct (h !! d) as [[i | items] |] eqn:Ed; try discriminate.
  destruct (dict_lookup k items) as [l |] eqn:Ek; cbn in H; try discriminate.
  destruct (h !! l) as [[i | items'] |] eqn:El; try discriminate.
  inversion H; subst. exists items, l. repeat split; assumption.
Qed.

(** ** [copy.deepcopy] *)

Lemma memo_lookup_In l memo l' : memo_lookup l memo = Some l' -> In (l, l') memo.
Proof.
  induction memo as [|[a b] memo IH]; cbn [memo_lookup]; [discriminate|].
  destruct (Nat.eqb l a) eqn:E.
  - intros H. inversion H; subst. apply Nat.eqb_eq in E. subst. left; reflexivity.
  - intros H. right. apply IH, H.
Qed.

Lemma deepcopy_items_spec items : forall memo (h : heap),
  (forall k l, In (k, l) items -> exists img, h !! l = Some (OImage img)) ->
  (forall a b, In (a, b) memo ->
     exists img, h !! a = Some (OImage img) /\ h !! b = Some (OImage img)) ->
  exists items' t,
    deepcopy_items items memo h = (inr items', h ++ t)
    /\ copy_of h (h ++ t) items items'.
Proof.
  induction items as [|[k l] items IH]; intros memo h Hitems Hmemo; cbn [deepcopy_items].
  - exists [], []. rewrite app_nil_r. split; [reflexivity | constructor].
  - destruct (Hitems k l (or_introl eq_refl)) as [img Himg].
    destruct (memo_lookup l memo) as [l' |] eqn:E.
    + destruct (IH memo h) as (rest & t & Hrun & Hcopy).
      { intros k' l0 Hin. apply (Hitems k' l0). right; exact Hin. }
      { exact Hmemo. }
      exists ((k, l') :: rest), t. rewrite (bind_ok _ _ _ _ _ Hrun). split; [reflexivity|].
      constructor; [|exact Hcopy]. split; [reflexivity|]. cbn [snd].
      apply memo_lookup_In in E. destruct (Hmemo _ _ E) as (img' & Ha & Hb).
      exists img'. split; [exact Ha | apply lookup_app_l_Some, Hb].
    + rewrite (bind_ok _ _ _ _ _ (load_image_ok _ _ _ Himg)).
      unfold alloc at 1. unfold bind at 1.
      destruct (IH ((l, length h) :: memo) (h ++ [OImage img])) as (rest & t & Hrun & Hcopy).
      { intros k' l0 Hin. destruct (Hitems k' l0 (or_intror Hin)) as [img0 H0].
        exists img0. apply lookup_app_l_Some, H0. }
      { intros a b [Hab | Hab].
        - inversion Hab; subst. exists img. split.
          + apply lookup_app_l_Some, Himg.
          + apply list_lookup_middle. reflexivity.
        - destruct (Hmemo a b Hab) as (img0 & Ha & Hb). exists img0.
          split; apply lookup_app_l_Some; assumption. }
      exists ((k, length h) :: rest), ([OImage img] ++ t).
      rewrite (bind_ok _ _ _ _ _ Hrun). rewrite app_assoc. split; [reflexivity|].
      constructor.
      * split; [reflexivity|]. cbn [snd]. exists img. split; [exact Himg|].
        apply lookup_app_l_Some, list_lookup_middle. reflexivity.
      * clear -Hcopy Hitems. unfold copy_of in *.
        assert (Hall : forall kl, In kl items -> exists img, h !! snd kl = Some (OImage img)).
        { intros [k' l0] Hin. apply (Hitems k' l0). right; exact Hin. }
        clear Hitems. induction Hcopy as [|kl kl' items items' Hkl Hrest IHc]; constructor.
        -- destruct Hkl as (Hk & img0 & H1 & H2). split; [exact Hk|].
           destruct (Hall kl (or_introl eq_refl)) as [img1 H3].
           exists img0. split; [|exact H2].
           rewrite (lookup_app_l_Some _ _ _ _ H3) in H1. congruence.
        -- apply IHc. intros kl0 Hin. apply Hall. right; exact Hin.
Qed.

Lemma copy_of_lookup h h' items items' k :
  copy_of h h' items items' ->
  match dict_lookup k items with
  | None => dict_lookup k items' = None
  | Some l => exists l' img, dict_lookup k items' = Some l'
                             /\ h !! l = Some (OImage img) /\ h' !! l' = Some (OImage img)
  end.
Proof.
  induction 1 as [|[k1 l1] [k2 l2] items items' Hkl Hrest IH]; cbn [dict_lookup].
  - reflexivity.
  - destruct Hkl as (Hk & img & H1 & H2). cbn [fst snd] in *. subst k2.
    destruct (key_eqb k k1); [|exact IH].
    exists l2, img. repeat split; assumption.
Qed.

(** On a dictionary of images, [deepcopy] returns a new dictionary that is
    a copy of it. *)
Lemma deepcopy_spec (h : heap) contours items :
  h !! contours = Some (ODict items) ->
  (forall k l, In (k, l) items -> exists img, h !! l = Some (OImage img)) ->
  exists items' t,
    deepcopy contours h = (inr (length (h ++ t)), (h ++ t) ++ [ODict items'])
    /\ copy_of h (h ++ t) items items'.
Proof.
  intros Hc Hitems.
  destruct (deepcopy_items_spec items [] h Hitems) as (items' & t & Hrun & Hcopy).
  { intros a b []. }
  exists items', t. split; [|exact Hcopy].
  unfold deepcopy. rewrite (bind_ok _ _ _ _ _ (load_dict_ok _ _ _ Hc)).
  rewrite (bind_ok _ _ _ _ _ Hrun). reflexivity.
Qed.

(** The store in which the modules start, after the initial set up. *)
Lemma initial_set_up {tk : Toolkit} (cfg : Config) (h : heap) contours items :
  h !! contours = Some (ODict items) ->
  (forall k l, In (k, l) items -> exists img, h !! l = Some (OImage img)) ->
  exists wc out h2 items',
    generate_left_ventricle_segments cfg contours h = run_modules cfg contours wc out h2
    /\ h2 !! wc = Some (ODict items')
    /\ copy_of h h2 items items'.
Proof.
  intros Hc Hitems.
  destruct (deepcopy_spec h contours items Hc Hitems) as (items' & t & Hrun & Hcopy).
  exists (length (h ++ t)), (length ((h ++ t) ++ [ODict items'])),
    (((h ++ t) ++ [ODict items']) ++ [ODict []]), items'.
  split; [|split].
  - unfold generate_left_ventricle_segments. rewrite (bind_ok _ _ _ _ _ Hrun).
    reflexivity.
  - apply lookup_app_l_Some, list_lookup_middle. reflexivity.
  - unfold copy_of in *. eapply Forall2_impl; [exact Hcopy|].
    intros kl kl' (Hk & img & H1 & H2). split; [exact Hk|]. exists img.
    split; [exact H1|]. apply lookup_app_l_Some, lookup_app_l_Some, H2.
Qed.

Lemma refine_once_empty_lv {tk : Toolkit} (cfg : Config) contours wc (h1 : heap) lv :
  dict_get_image wc (label_left_ventricle cfg) h1 = (inr lv, h1) ->
  np_where3 lv = [] ->
  refine_once cfg contours wc h1 = (inl ValueError, h1).
Proof.
  intros Hlv Hempty. unfold refine_once.
  rewrite (bind_ok _ _ _ _ _ Hlv). rewrite Hempty. reflexivity.
Qed.

Lemma array_min_Z_total l : l <> [] -> exists m, array_min_Z l = inr m.
Proof. destruct l; [congruence|]. intros _. eexists; reflexivity. Qed.

Lemma refine_once_helper_error {tk : Toolkit} (cfg : Config) contours wc (h1 : heap)
      lv mv e :
  dict_get_image wc (label_left_ventricle cfg) h1 = (inr lv, h1) ->
  np_where3 lv <> [] ->
  dict_get_image wc (label_mitral_valve cfg) h1 = (inr mv, h1) ->
  get_com_real mv = inl e ->
  refine_once cfg contours wc h1 = (inl e, h1).
Proof.
  intros Hlv Hne Hmv He. unfold refine_once.
  rewrite (bind_ok _ _ _ _ _ Hlv).
  destruct (array_min_Z_total (map (fun p => fst (fst p)) (np_where3 lv))) as [m Hm].
  { destruct (np_where3 lv); [congruence | discriminate]. }
  rewrite Hm. cbn [lift]. unfold bind at 1. cbn [ret].
  rewrite (bind_ok _ _ _ _ _ Hmv). rewrite He. reflexivity.
Qed.

(** ** An exception in a pass of the loop ends the run *)

Section LoopRaises.

Context {tk : Toolkit}.
Variable cfg : Config.

(** A pass of the loop that raises ends the loop with its exception. *)
Lemma loop_reaches_raises contours wc n0 ts0 a0 h0 n ts a h1 :
  loop_reaches cfg contours wc n0 ts0 a0 h0 n ts a h1 ->
  forall e h' fuel,
    loop_guard cfg n a = true ->
    refine_once cfg contours wc h1 = (inl e, h') ->
    (Z.to_nat (optimiser_max_iter cfg - n0) <= fuel)%nat ->
    refinement_loop cfg fuel contours wc n0 ts0 a0 h0 = (inl e, h').
Proof.
  induction 1 as [n ts a h | n ts a h t h1 n' ts' a' h' Hg Hstep Hreach IH];
    intros e hf fuel Hguard Hfail Hfuel.
  - assert (Hn : n < optimiser_max_iter cfg).
    { unfold loop_guard in Hguard. apply andb_true_iff in Hguard as [Hn _].
      apply Z.ltb_lt in Hn. exact Hn. }
    destruct fuel as [|fuel]; [lia|].
    rewrite (refinement_loop_step cfg fuel contours wc n ts a h Hguard).
    apply bind_err. exact Hfail.
  - assert (Hn : n < optimiser_max_iter cfg).
    { unfold loop_guard in Hg. apply andb_true_iff in Hg as [Hn _].
      apply Z.ltb_lt in Hn. exact Hn. }
    destruct fuel as [|fuel]; [lia|].
    rewrite (refinement_loop_step cfg fuel contours wc n ts a h Hg).
    rewrite (bind_ok _ _ _ _ _ Hstep).
    apply (IH e hf fuel Hguard Hfail). lia.
Qed.

(** The axis aligner raises with its loop. *)
Lemma axis_aligner_raises contours wc h5 t h7 n ts a h1 e h' :
  initial_alignment cfg contours wc h5 = (inr t, h7) ->
  loop_reaches cfg contours wc 0 [t] (v_angle t) h7 n ts a h1 ->
  loop_guard cfg n a = true ->
  refine_once cfg contours wc h1 = (inl e, h') ->
  axis_aligner cfg contours wc h5 = (inl e, h').
Proof.
  intros Hinit Hreach Hguard Hfail. unfold axis_aligner.
  rewrite (bind_ok _ _ _ _ _ Hinit).
  apply (loop_reaches_raises contours wc _ _ _ _ _ _ _ _ Hreach e h' _ Hguard Hfail).
  lia.
Qed.

(** And the run with it: nothing is returned, and the store is the one the
    pass left. *)
Lemma run_reaches_pass_raises contours h wc n ts a h1 e h' :
  run_reaches_pass cfg contours h wc n ts a h1 ->
  loop_guard cfg n a = true ->
  refine_once cfg contours wc h1 = (inl e, h') ->
  generate_left_ventricle_segments cfg contours h = (inl e, h').
Proof.
  intros (h0 & out & h2 & lv & heart & cb_size & cb_index & h5 & t & h7
          & Hcopy & Halloc & Hlv & Hheart & Hroi & Hcrop & Hinit & Hreach) Hguard Hfail.
  unfold generate_left_ventricle_segments.
  rewrite (bind_ok _ _ _ _ _ Hcopy). rewrite (bind_ok _ _ _ _ _ Halloc).
  unfold run_modules.
  rewrite (bind_ok _ _ _ _ _ Hlv). rewrite (bind_ok _ _ _ _ _ Hheart).
  rewrite (bind_ok _ _ _ _ _ Hheart).
  rewrite Hroi. cbn [lift]. unfold bind at 1. cbn [ret].
  rewrite (bind_ok _ _ _ _ _ Hcrop).
  apply bind_err.
  apply (axis_aligner_raises contours wc h5 t h7 n ts a h1 e h' Hinit Hreach Hguard Hfail).
Qed.

End LoopRaises.

(** C5, as the code has it: a run on a dictionary without the whole-heart
    mask raises [KeyError]; what [label_to_roi] raises on the whole-heart
    mask, or [get_com] on the mitral valve in an iteration of the loop, is
    raised by the run unchanged; an iteration in which the left ventricle has
    no voxel raises [ValueError].  In each case the run ends there: the
    exception of the iteration is the exception of the loop, of the axis
    aligner and of the whole function, nothing is returned, and the store
    is left as the failing iteration found it.  With the two helpers as the spec describes
    them, a whole-heart mask without positive voxels makes the run raise
    [MissingStructureError], and an iteration on a mitral valve without
    positive voxels [EmptyMaskError]. *)
Theorem failing_inputs_raise
        {tk : Toolkit} (cfg : Config) (contours : loc) (h : heap) (items : dict) :
  h !! contours = Some (ODict items) ->
  (forall k l, In (k, l) items -> exists img, h !! l = Some (OImage img)) ->
  (dict_lookup (label_heart cfg) items = None ->
     fst (generate_left_ventricle_segments cfg contours h) = inl KeyError)
  /\ (forall l_lv l_heart heart e,
        dict_lookup (label_left_ventricle cfg) items = Some l_lv ->
        dict_lookup (label_heart cfg) items = Some l_heart ->
        h !! l_heart = Some (OImage heart) ->
        label_to_roi (img_gt0 heart) (30, 30, 60)%R = inl e ->
        fst (generate_left_ventricle_segments cfg contours h) = inl e)
  /\ (forall wc h1 lv,
        dict_get_image wc (label_left_ventricle cfg) h1 = (inr lv, h1) ->
        np_where3 lv = [] ->
        refine_once cfg contours wc h1 = (inl ValueError, h1))
  /\ (forall wc h1 lv mv e,
        dict_get_image wc (label_left_ventricle cfg) h1 = (inr lv, h1) ->
        np_where3 lv <> [] ->
        dict_get_image wc (label_mitral_valve cfg) h1 = (inr mv, h1) ->
        get_com_real mv = inl e ->
        refine_once cfg contours wc h1 = (inl e, h1))
  (* an iteration that raises ends the loop, whatever the fuel *)
  /\ (forall wc n0 ts0 a0 h0 n ts a h1 e h' fuel,
        loop_reaches cfg contours wc n0 ts0 a0 h0 n ts a h1 ->
        loop_guard cfg n a = true ->
        refine_once cfg contours wc h1 = (inl e, h') ->
        (Z.to_nat (optimiser_max_iter cfg - n0) <= fuel)%nat ->
        refinement_loop cfg fuel contours wc n0 ts0 a0 h0 = (inl e, h'))
  (* and the axis aligner *)
  /\ (forall wc h5 t h7 n ts a h1 e h',
        initial_alignment cfg contours wc h5 = (inr t, h7) ->
        loop_reaches cfg contours wc 0 [t] (v_angle t) h7 n ts a h1 ->
        loop_guard cfg n a = true ->
        refine_once cfg contours wc h1 = (inl e, h') ->
        axis_aligner cfg contours wc h5 = (inl e, h'))
  (* and the run: an iteration on a left ventricle without voxels *)
  /\ (forall wc n ts a h1 lv,
        run_reaches_pass cfg contours h wc n ts a h1 ->
        loop_guard cfg n a = true ->
        dict_get_image wc (label_left_ventricle cfg) h1 = (inr lv, h1) ->
        np_where3 lv = [] ->
        generate_left_ventricle_segments cfg contours h = (inl ValueError, h1))
  (* and an iteration in which [get_com] raises on the mitral valve *)
  /\ (forall wc n ts a h1 lv mv e,
        run_reaches_pass cfg contours h wc n ts a h1 ->
        loop_guard cfg n a = true ->
        dict_get_image wc (label_left_ventricle cfg) h1 = (inr lv, h1) ->
        np_where3 lv <> [] ->
        dict_get_image wc (label_mitral_valve cfg) h1 = (inr mv, h1) ->
        get_com_real mv = inl e ->
        generate_left_ventricle_segments cfg contours h = (inl e, h1))
  (* with the two helpers as the spec describes them: a whole-heart mask
     without positive voxels, and an iteration on a mitral valve without *)
  /\ (helpers_fail_as_specified ->
      (forall l_lv l_heart heart,
          dict_lookup (label_left_ventricle cfg) items = Some l_lv ->
          dict_lookup (label_heart cfg) items = Some l_heart ->
          h !! l_heart = Some (OImage heart) ->
          np_where3 (img_gt0 heart) = [] ->
          fst (generate_left_ventricle_segments cfg contours h)
          = inl (OtherError "MissingStructureError"))
      /\ (forall wc n ts a h1 lv mv,
             run_reaches_pass cfg contours h wc n ts a h1 ->
             loop_guard cfg n a = true ->
             dict_get_image wc (label_left_ventricle cfg) h1 = (inr lv, h1) ->
             np_where3 lv <> [] ->
             dict_get_image wc (label_mitral_valve cfg) h1 = (inr mv, h1) ->
             np_where3 mv = [] ->
             generate_left_ventricle_segments cfg contours h
             = (inl (OtherError "EmptyMaskError"), h1))).
Proof.
  intros Hc Hitems.
  destruct (initial_set_up cfg h contours items Hc Hitems)
    as (wc & out & h2 & items' & Hrun & Hwc & Hcopy).
  assert (Hroi_raises : forall l_lv l_heart heart e,
             dict_lookup (label_left_ventricle cfg) items = Some l_lv ->
             dict_lookup (label_heart cfg) items = Some l_heart ->
             h !! l_heart = Some (OImage heart) ->
             label_to_roi (img_gt0 heart) (30, 30, 60)%R = inl e ->
             fst (generate_left_ventricle_segments cfg contours h) = inl e).
  { intros l_lv l_heart heart e Hlv Hheart Himg He. rewrite Hrun. unfold run_modules.
    pose proof (copy_of_lookup _ _ _ _ (label_left_ventricle cfg) Hcopy) as Hlv'.
    pose proof (copy_of_lookup _ _ _ _ (label_heart cfg) Hcopy) as Hh'.
    rewrite Hlv in Hlv'. rewrite Hheart in Hh'.
    destruct Hlv' as (l1 & img1 & Hl1 & _ & Himg1).
    destruct Hh' as (l2 & img2 & Hl2 & Horig & Himg2).
    assert (img2 = heart) by congruence. subst img2.
    rewrite (bind_ok _ _ _ _ _ (dict_get_image_ok _ _ _ _ _ _ Hwc Hl1 Himg1)).
    rewrite (bind_ok _ _ _ _ _ (dict_get_image_ok _ _ _ _ _ _ Hwc Hl2 Himg2)).
    rewrite (bind_ok _ _ _ _ _ (dict_get_image_ok _ _ _ _ _ _ Hwc Hl2 Himg2)).
    rewrite He. reflexivity. }
  split; [|split; [|split; [|split; [|split; [|split; [|split; [|split]]]]]]].
  - intros Hheart. rewrite Hrun. unfold run_modules.
    pose proof (copy_of_lookup _ _ _ _ (label_left_ventricle cfg) Hcopy) as Hlv.
    pose proof (copy_of_lookup _ _ _ _ (label_heart cfg) Hcopy) as Hh.
    rewrite Hheart in Hh.
    destruct (dict_lookup (label_left_ventricle cfg) items) as [l |].
    + destruct Hlv as (l' & img & Hl' & _ & Himg).
      rewrite (bind_ok _ _ _ _ _ (dict_get_image_ok _ _ _ _ _ _ Hwc Hl' Himg)).
      rewrite (bind_err _ _ _ _ _ (dict_get_image_missing _ _ _ _ Hwc Hh)).
      reflexivity.
    + rewrite (bind_err _ _ _ _ _ (dict_get_image_missing _ _ _ _ Hwc Hlv)).
      reflexivity.
  - exact Hroi_raises.
  - intros wc1 h1 lv. apply refine_once_empty_lv.
  - intros wc1 h1 lv mv e. apply refine_once_helper_error.
  - intros wc1 n0 ts0 a0 h0 n ts a h1 e h' fuel Hreach Hguard Hfail Hfuel.
    apply (loop_reaches_raises cfg contours wc1 _ _ _ _ _ _ _ _ Hreach e h' fuel
             Hguard Hfail Hfuel).
  - intros wc1 h5 t h7 n ts a h1 e h'.
    apply (axis_aligner_raises cfg contours wc1 h5 t h7 n ts a h1 e h').
  - intros wc1 n ts a h1 lv Hreach Hguard Hlv Hempty.
    apply (run_reaches_pass_raises cfg contours h wc1 n ts a h1 ValueError h1 Hreach Hguard).
    apply (refine_once_empty_lv cfg contours wc1 h1 lv Hlv Hempty).
  - intros wc1 n ts a h1 lv mv e Hreach Hguard Hlv Hne Hmv He.
    apply (run_reaches_pass_raises cfg contours h wc1 n ts a h1 e h1 Hreach Hguard).
    apply (refine_once_helper_error cfg contours wc1 h1 lv mv e Hlv Hne Hmv He).
  - intros [Hroi Hcom]. split.
    + intros l_lv l_heart heart Hlv Hheart Himg Hempty.
      apply (Hroi_raises l_lv l_heart heart _ Hlv Hheart Himg).
      apply Hroi. exact Hempty.
    + intros wc1 n ts a h1 lv mv Hreach Hguard Hlv Hne Hmv Hempty.
      apply (run_reaches_pass_raises cfg contours h wc1 n ts a h1 _ h1 Hreach Hguard).
      apply (refine_once_helper_error cfg contours wc1 h1 lv mv _ Hlv Hne Hmv).
      apply Hcom. exact Hempty.
Qed.

(** ** The slice loops of Module 4 *)

Lemma key_eqb_refl k : key_eqb k k = true.
Proof. destruct k; cbn; [apply String.eqb_refl | apply Z.eqb_refl]. Qed.

Lemma key_eqb_eq a b : key_eqb a b = true -> a = b.
Proof.
  destruct a, b; cbn; try discriminate.
  - intros H. apply String.eqb_eq in H. congruence.
  - intros H. apply Z.eqb_eq in H. congruence.
Qed.

Lemma dict_lookup_update_eq k l items : dict_lookup k (dict_update k l items) = Some l.
Proof.
  induction items as [|[k' l'] items IH]; cbn [dict_update dict_lookup].
  - rewrite key_eqb_refl. reflexivity.
  - destruct (key_eqb k k') eqn:E; cbn [dict_lookup].
    + rewrite key_eqb_refl. reflexivity.
    + rewrite E. exact IH.
Qed.

Lemma dict_lookup_update_ne k k' l items :
  k <> k' -> dict_lookup k' (dict_update k l items) = dict_lookup k' items.
Proof.
  intros Hne. induction items as [|[k1 l1] items IH]; cbn [dict_update dict_lookup].
  - destruct (key_eqb k' k) eqn:E; [|reflexivity].
    apply key_eqb_eq in E. congruence.
  - destruct (key_eqb k k1) eqn:E; cbn [dict_lookup].
    + apply key_eqb_eq in E. subst k1.
      destruct (key_eqb k' k) eqn:E'; [|reflexivity].
      apply key_eqb_eq in E'. congruence.
    + destruct (key_eqb k' k1); [reflexivity | exact IH].
Qed.

Lemma modify_image_inr l f (h : heap) u h' :
  modify_image l f h = (inr u, h') ->
  exists i i', h !! l = Some (OImage i) /\ f i = inr i' /\ h' = <[l := OImage i']> h.
Proof.
  unfold modify_image, bind, load_image.
  destruct (h !! l) as [[i | d] |] eqn:El; try discriminate.
  destruct (f i) as [e | i'] eqn:Ef; cbn; [discriminate|].
  intros H. inversion H; subst. exists i, i'. repeat split; assumption.
Qed.

Lemma set_slice_inr i n sl i' :
  0 <= n -> set_slice i n sl = inr i' -> n < size_z i /\ i' = put_slice i n sl.
Proof.
  intros Hn. unfold set_slice, py_index.
  destruct ((0 <=? n) && (n <? size_z i)) eqn:E.
  - intros H. inversion H; subst. apply andb_true_iff in E as [_ E].
    apply Z.ltb_lt in E. split; [exact E | reflexivity].
  - replace (n <? 0) with false by (symmetry; apply Z.ltb_ge; lia).
    rewrite andb_false_r. discriminate.
Qed.

Lemma slice_of_inr i n sl :
  0 <= n -> slice_of i n = inr sl ->
  n < size_z i
  /\ sl = mkSlice (size_x i, size_y i) (img_pixel_id i) (fun x y => img_pix i x y n).
Proof.
  intros Hn. unfold slice_of, py_index.
  destruct ((0 <=? n) && (n <? size_z i)) eqn:E.
  - intros H. inversion H; subst. apply andb_true_iff in E as [_ E].
    apply Z.ltb_lt in E. split; [exact E | reflexivity].
  - replace (n <? 0) with false by (symmetry; apply Z.ltb_ge; lia).
    rewrite andb_false_r. discriminate.
Qed.

Lemma seg_store_assign (h : heap) wc S seg n sl u h' :
  seg_store h wc S -> 1 <= seg <= 17 -> 0 <= n ->
  assign_slice wc n seg sl h = (inr u, h') ->
  n < size_z (S seg) /\ seg_store h' wc (paint S seg (put_slice (S seg) n sl)).
Proof.
  intros (items & L & Hwc & Hsegs & Hinj) Hseg Hn Hrun.
  destruct (Hsegs seg Hseg) as [Hk Hl].
  unfold assign_slice in Hrun.
  rewrite (bind_ok _ _ _ _ _ (dict_get_ok _ _ _ _ _ Hwc Hk)) in Hrun.
  apply modify_image_inr in Hrun as (i & i' & Hi & Hset & ->).
  assert (i = S seg) by congruence. subst i.
  apply set_slice_inr in Hset as [Hlt ->]; [|exact Hn].
  split; [exact Hlt|].
  assert (Hne : L seg <> wc) by (intros E; rewrite E in Hl; congruence).
  exists items, L. split; [|split].
  - rewrite list_lookup_insert_ne by exact Hne. exact Hwc.
  - intros k Hrange. destruct (Hsegs k Hrange) as [Hk' Hl']. split; [exact Hk'|].
    unfold paint. destruct (k =? seg) eqn:E.
    + apply Z.eqb_eq in E. subst k.
      apply list_lookup_insert_eq. eapply lookup_lt_Some, Hl.
    + apply Z.eqb_neq in E. rewrite list_lookup_insert_ne; [exact Hl'|].
      intros Heq. apply E. symmetry. apply Hinj; assumption.
  - exact Hinj.
Qed.

(** The windows of one slice, written one after the other. *)
Lemma seg_store_windows wc n (F : window -> Slice) ws : forall (h : heap) S u h',
  seg_store h wc S ->
  List.NoDup (band_segments ws) ->
  (forall w, In w ws -> 1 <= w_seg w <= 17) ->
  0 <= n ->
  for_each ws (fun w => assign_slice wc n (w_seg w) (F w)) h = (inr u, h') ->
  exists S',
    seg_store h' wc S'
    /\ (forall j, ~ In j (band_segments ws) -> S' j = S j)
    /\ (forall w, In w ws -> S' (w_seg w) = put_slice (S (w_seg w)) n (F w)).
Proof.
  induction ws as [|w ws IH]; intros h S u h' Hst Hnd Hrange Hn Hrun;
    cbn [for_each] in Hrun.
  - apply ret_inr in Hrun as [_ ->]. exists S.
    split; [exact Hst|]. split; [reflexivity | intros w []].
  - apply bind_inr in Hrun as (u1 & h1 & Hstep & Hrun).
    cbn [band_segments map] in Hnd. apply List.NoDup_cons_iff in Hnd as [Hnotin Hnd].
    apply (seg_store_assign h wc S (w_seg w) n (F w)) in Hstep as [_ Hst1];
      [|exact Hst | apply Hrange; left; reflexivity | exact Hn].
    destruct (IH h1 _ u h' Hst1 Hnd (fun w' Hw' => Hrange w' (or_intror Hw')) Hn Hrun)
      as (S' & Hst' & Hout & Hin).
    exists S'. split; [exact Hst'|]. split.
    + intros j Hj. cbn [band_segments map] in Hj.
      rewrite Hout by (intros Hc; apply Hj; right; exact Hc).
      unfold paint. destruct (j =? w_seg w) eqn:E; [|reflexivity].
      apply Z.eqb_eq in E. exfalso. apply Hj. left. symmetry; exact E.
    + intros w' [<- | Hw'].
      * rewrite Hout by exact Hnotin. unfold paint. rewrite Z.eqb_refl. reflexivity.
      * rewrite (Hin w' Hw'). unfold paint.
        destruct (w_seg w' =? w_seg w) eqn:E; [|reflexivity].
        apply Z.eqb_eq in E. exfalso. apply Hnotin. rewrite <- E.
        apply in_map, Hw'.
Qed.

Section SliceLoops.

Context {tk : Toolkit}.

Lemma seg_store_slice wc label_lv_myo reference band n (h : heap) S u h' :
  seg_store h wc S ->
  List.NoDup (band_segments band) ->
  (forall w, In w band -> 1 <= w_seg w <= 17) ->
  0 <= n ->
  segment_slice wc label_lv_myo reference band n h = (inr u, h') ->
  exists S' sl com,
    slice_of label_lv_myo n = inr sl
    /\ get_com_slice sl = inr com
    /\ seg_store h' wc S'
    /\ (forall j, ~ In j (band_segments band) -> S' j = S j)
    /\ (forall w, In w band ->
          S' (w_seg w) = put_slice (S (w_seg w)) n (window_slice sl com reference w)).
Proof.
  intros Hst Hnd Hrange Hn Hrun. unfold segment_slice in Hrun.
  apply bind_inr in Hrun as (sl & h1 & Hsl & Hrun). apply lift_inr in Hsl as [Hsl ->].
  apply bind_inr in Hrun as (com & h2 & Hcom & Hrun). apply lift_inr in Hcom as [Hcom ->].
  destruct com as [y_0 x_0].
  destruct (seg_store_windows wc n (window_slice sl (y_0, x_0) reference) band
              h S u h' Hst Hnd Hrange Hn Hrun) as (S' & Hst' & Hout & Hin).
  exists S', sl, (y_0, x_0).
  split; [exact Hsl|]. split; [exact Hcom|]. split; [exact Hst'|].
  split; assumption.
Qed.

Lemma band_pixel_at label_lv_myo reference w n sl com x y :
  slice_of label_lv_myo n = inr sl -> get_com_slice sl = inr com ->
  band_pixel label_lv_myo reference w n x y = sl_pix (window_slice sl com reference w) x y.
Proof. intros Hsl Hcom. unfold band_pixel. rewrite Hsl, Hcom. reflexivity. Qed.

(** A slice loop over distinct, non-negative slice indices. *)
Lemma seg_store_band wc label_lv_myo reference band ns : forall (h : heap) S u h',
  seg_store h wc S ->
  List.NoDup (band_segments band) ->
  (forall w, In w band -> 1 <= w_seg w <= 17) ->
  List.NoDup ns -> (forall n, In n ns -> 0 <= n) ->
  for_each ns (segment_slice wc label_lv_myo reference band) h = (inr u, h') ->
  exists S',
    seg_store h' wc S'
    /\ (forall j, ~ In j (band_segments band) -> S' j = S j)
    /\ (forall n, In n ns ->
          n < size_z label_lv_myo
          /\ exists sl com, slice_of label_lv_myo n = inr sl /\ get_com_slice sl = inr com)
    /\ (forall w, In w band ->
          img_geom (S' (w_seg w)) = img_geom (S (w_seg w))
          /\ forall x y z,
               (In z ns -> img_pix (S' (w_seg w)) x y z =
                           band_pixel label_lv_myo reference w z x y)
               /\ (~ In z ns -> img_pix (S' (w_seg w)) x y z =
                                img_pix (S (w_seg w)) x y z)).
Proof.
  induction ns as [|n ns IH]; intros h S u h' Hst Hnd Hrange Hns Hpos Hrun;
    cbn [for_each] in Hrun.
  - apply ret_inr in Hrun as [_ ->]. exists S.
    split; [exact Hst|]. split; [reflexivity|]. split; [intros n []|].
    intros w Hw. split; [reflexivity|]. intros x y z. split; [intros [] | reflexivity].
  - apply bind_inr in Hrun as (u1 & h1 & Hstep & Hrun).
    apply List.NoDup_cons_iff in Hns as [Hnotin Hns].
    assert (Hn : 0 <= n) by (apply Hpos; left; reflexivity).
    destruct (seg_store_slice wc label_lv_myo reference band n h S u1 h1
                Hst Hnd Hrange Hn Hstep)
      as (S1 & sl & com & Hsl & Hcom & Hst1 & Hout1 & Hin1).
    destruct (IH h1 S1 u h' Hst1 Hnd Hrange Hns (fun m Hm => Hpos m (or_intror Hm)) Hrun)
      as (S' & Hst' & Hout & Hok & Hin).
    exists S'. split; [exact Hst'|]. split; [|split].
    + intros j Hj. rewrite Hout, Hout1 by exact Hj. reflexivity.
    + intros m [<- | Hm]; [|apply Hok, Hm].
      split; [apply (slice_of_inr _ _ _ Hn Hsl) | exists sl, com; split; assumption].
    + intros w Hw. destruct (Hin w Hw) as [Hg Hpix]. rewrite (Hin1 w Hw) in Hg, Hpix.
      split; [exact Hg|]. intros x y z. destruct (Hpix x y z) as [Hyes Hno]. split.
      * intros [<- | Hz]; [|apply Hyes, Hz].
        rewrite (Hno Hnotin). cbn [put_slice img_pix]. rewrite Z.eqb_refl.
        symmetry. apply band_pixel_at; assumption.
      * intros Hz. rewrite Hno by (intros Hc; apply Hz; right; exact Hc).
        cbn [put_slice img_pix]. destruct (z =? n) eqn:E; [|reflexivity].
        apply Z.eqb_eq in E. exfalso. apply Hz. left. symmetry; exact E.
Qed.

End SliceLoops.

Lemma NoDup_py_range a b : List.NoDup (py_range a b).
Proof.
  unfold py_range. generalize (Z.to_nat (b - a)) as len. generalize 0%nat as start.
  intros start len. revert start.
  induction len as [|len IH]; intros start; cbn [seq map]; constructor.
  - rewrite in_map_iff. intros (i & Hi & Hin). apply in_seq in Hin. lia.
  - apply IH.
Qed.

(** ** The seventeen segment images *)

Lemma dict_set_run (h : heap) wc items k l :
  h !! wc = Some (ODict items) ->
  dict_set wc k l h = (inr tt, <[wc := ODict (dict_update k l items)]> h).
Proof. intros H. unfold dict_set, bind, load_dict, store. rewrite H. reflexivity. Qed.

Lemma dict_set_new_run (h : heap) wc items k img :
  h !! wc = Some (ODict items) ->
  dict_set_new wc k img h =
  (inr tt, <[wc := ODict (dict_update k (length h) items)]> (h ++ [OImage img])).
Proof.
  intros H. unfold dict_set_new, bind, alloc.
  apply dict_set_run. apply lookup_app_l_Some, H.
Qed.

Section Segmenter.

Context {tk : Toolkit}.
Variable cfg : Config.

Lemma init_segments_loop wc G base cnt : forall m (h : heap) S u h',
  Z.of_nat cnt = 17 - m -> 0 <= m ->
  (base <= length h)%nat ->
  zero_segments m h wc S base G ->
  (exists heart, dict_get_image wc (label_heart cfg) h = (inr heart, h)
                 /\ img_geom heart = G) ->
  for_each (py_range m 17) (fun i =>
    let* heart := dict_get_image wc (label_heart cfg) in
    dict_set_new wc (KInt (i + 1)) (img_scale 0 heart)) h = (inr u, h') ->
  exists S',
    zero_segments 17 h' wc S' base G
    /\ (forall l, l <> wc -> (l < length h)%nat -> h' !! l = h !! l).
Proof.
  induction cnt as [|cnt IH]; intros m h S u h' Hcnt Hm Hbase Hz Hheart Hrun.
  - assert (m = 17) by lia. subst m. rewrite py_range_empty in Hrun by lia.
    apply ret_inr in Hrun as [_ ->]. exists S. split; [exact Hz | reflexivity].
  - rewrite py_range_cons in Hrun by lia. cbn [for_each] in Hrun.
    apply bind_inr in Hrun as (u1 & h1 & Hstep & Hrun).
    destruct Hheart as (heart & Hget & Hgeom).
    rewrite (bind_ok _ _ _ _ _ Hget) in Hstep.
    destruct Hz as (items & L & Hwc & Hsegs & Hinj).
    rewrite (dict_set_new_run _ _ _ _ _ Hwc) in Hstep.
    apply (f_equal snd) in Hstep. cbn [snd] in Hstep. rename Hstep into Hh1.
    assert (Hwclt : (wc < length h)%nat) by (eapply lookup_lt_Some, Hwc).
    assert (Hold : forall l, l <> wc -> (l < length h)%nat -> h1 !! l = h !! l).
    { intros l Hne Hlt. rewrite <- Hh1.
      rewrite list_lookup_insert_ne by (intros E; apply Hne; symmetry; exact E).
      apply lookup_app_l, Hlt. }
    assert (Hwc1 : h1 !! wc = Some (ODict (dict_update (KInt (m + 1)) (length h) items))).
    { rewrite <- Hh1. apply list_lookup_insert_eq. rewrite length_app. lia. }
    assert (Hnew : h1 !! length h = Some (OImage (img_scale 0 heart))).
    { rewrite <- Hh1. rewrite list_lookup_insert_ne by lia.
      apply list_lookup_middle. reflexivity. }
    assert (Hlen1 : length h1 = (length h + 1)%nat).
    { rewrite <- Hh1. rewrite length_insert, length_app. cbn. lia. }
    destruct (IH (m + 1) h1 (paint S (m + 1) (img_scale 0 heart)) u h') as (S' & Hz' & Hold').
    + lia.
    + lia.
    + lia.
    + exists (dict_update (KInt (m + 1)) (length h) items),
        (fun k => if k =? m + 1 then length h else L k).
      split; [exact Hwc1|]. split.
      * intros k Hk. unfold paint. destruct (k =? m + 1) eqn:E.
        -- apply Z.eqb_eq in E. subst k.
           split; [apply dict_lookup_update_eq|]. split; [exact Hnew|].
           split; [exact Hbase|]. split; [exact Hgeom|].
           intros x y z. reflexivity.
        -- apply Z.eqb_neq in E.
           destruct (Hsegs k ltac:(lia)) as (Hk1 & Hk2 & Hk3 & Hk4 & Hk5).
           split; [rewrite dict_lookup_update_ne by congruence; exact Hk1|].
           split.
           { rewrite Hold; [exact Hk2 | | eapply lookup_lt_Some, Hk2].
             intros Heq. rewrite Heq in Hk2. congruence. }
           repeat split; assumption.
      * intros j k Hj Hk. destruct (j =? m + 1) eqn:Ej, (k =? m + 1) eqn:Ek.
        -- apply Z.eqb_eq in Ej, Ek. congruence.
        -- apply Z.eqb_neq in Ek. intros Heq.
           destruct (Hsegs k ltac:(lia)) as (_ & Hk2 & _).
           apply lookup_lt_Some in Hk2. lia.
        -- apply Z.eqb_neq in Ej. intros Heq.
           destruct (Hsegs j ltac:(lia)) as (_ & Hj2 & _).
           apply lookup_lt_Some in Hj2. lia.
        -- apply Z.eqb_neq in Ej, Ek. apply Hinj; lia.
    + destruct (key_eqb (label_heart cfg) (KInt (m + 1))) eqn:E.
      * apply key_eqb_eq in E. exists (img_scale 0 heart). split; [|exact Hgeom].
        eapply dict_get_image_ok; [exact Hwc1 | | exact Hnew].
        rewrite E. apply dict_lookup_update_eq.
      * exists heart. split; [|exact Hgeom].
        apply dict_get_image_inr in Hget as (_ & items0 & l & Hd & Hl & Hi).
        assert (items0 = items) by congruence. subst items0.
        eapply dict_get_image_ok; [exact Hwc1 | |].
        -- rewrite dict_lookup_update_ne; [exact Hl|].
           intros Heq. rewrite <- Heq, key_eqb_refl in E. discriminate.
        -- rewrite Hold; [exact Hi | | eapply lookup_lt_Some, Hi].
           intros Heq. rewrite Heq in Hi. congruence.
    + exact Hrun.
    + exists S'. split; [exact Hz'|].
      intros l Hne Hlt. rewrite Hold' by (try assumption; lia). apply Hold; assumption.
Qed.

Ltac nodup_segments :=
  unfold band_segments; cbn [map w_seg apical_windows mid_windows basal_windows];
  repeat (constructor; [cbn [In]; intuition lia|]); constructor.

Ltac segment_range :=
  let w := fresh "w" in
  let Hw := fresh "Hw" in
  intros w Hw; cbn [In apical_windows mid_windows basal_windows] in Hw;
  repeat (destruct Hw as [<- | Hw]; [cbn [w_seg]; lia|]); contradiction.

Lemma band_windows_facts :
  (List.NoDup (band_segments apical_windows)
   /\ forall w, In w apical_windows -> 13 <= w_seg w <= 16)
  /\ (List.NoDup (band_segments mid_windows)
      /\ forall w, In w mid_windows -> 7 <= w_seg w <= 12)
  /\ (List.NoDup (band_segments basal_windows)
      /\ forall w, In w basal_windows -> 1 <= w_seg w <= 6).
Proof.
  split; [split; [nodup_segments | segment_range]|].
  split; [split; [nodup_segments | segment_range]|].
  split; [nodup_segments | segment_range].
Qed.

(** From the store after a slice loop to [band_done]. *)
Lemma band_done_of_loop label_lv_myo reference band a b (S S' : Z -> Image) :
  (forall n, In n (py_range a b) ->
     n < size_z label_lv_myo
     /\ exists sl com, slice_of label_lv_myo n = inr sl /\ get_com_slice sl = inr com) ->
  (forall w, In w band ->
     img_geom (S' (w_seg w)) = img_geom (S (w_seg w))
     /\ forall x y z,
          (In z (py_range a b) -> img_pix (S' (w_seg w)) x y z =
                                   band_pixel label_lv_myo reference w z x y)
          /\ (~ In z (py_range a b) -> img_pix (S' (w_seg w)) x y z =
                                       img_pix (S (w_seg w)) x y z)) ->
  (forall w, In w band -> forall x y z, img_pix (S (w_seg w)) x y z = 0) ->
  band_done label_lv_myo reference band a b S'.
Proof.
  intros Hok Hpix Hzero. split.
  - intros n Hn. apply Hok, In_py_range, Hn.
  - intros w Hw x y z. destruct (Hpix w Hw) as [_ Hp]. destruct (Hp x y z) as [Hyes Hno].
    destruct ((a <=? z) && (z <? b)) eqn:E.
    + apply Hyes, In_py_range. apply andb_true_iff in E as [E1 E2].
      apply Z.leb_le in E1. apply Z.ltb_lt in E2. lia.
    + rewrite Hno; [apply Hzero, Hw|]. rewrite In_py_range. intros [H1 H2].
      apply Z.leb_le in H1. apply Z.ltb_lt in H2. rewrite H1, H2 in E. discriminate.
Qed.

Lemma band_done_other label_lv_myo reference band a b (S S' : Z -> Image) :
  band_done label_lv_myo reference band a b S ->
  (forall w, In w band -> S' (w_seg w) = S (w_seg w)) ->
  band_done label_lv_myo reference band a b S'.
Proof.
  intros [Hok Hpix] Heq. split; [exact Hok|].
  intros w Hw x y z. rewrite (Heq w Hw). apply Hpix, Hw.
Qed.

(** Module 4 as a whole: what the working dictionary holds under the keys
    1 to 17 when [angular_segmenter] returns. *)
Lemma angular_segmenter_spec wc label_lv_myo apex apex_img
      inf_limit_lv apical_extent mid_extent basal_extent theta_0 theta_0_apical
      (h : heap) u h' :
  0 <= inf_limit_lv -> 0 <= apical_extent -> 0 <= mid_extent ->
  h !! apex = Some (OImage apex_img) ->
  angular_segmenter cfg wc label_lv_myo apex inf_limit_lv apical_extent mid_extent
    basal_extent theta_0 theta_0_apical h = (inr u, h') ->
  exists S heart,
    seg_store h' wc S
    /\ dict_get_image wc (label_heart cfg) h = (inr heart, h)
    /\ S 17 = apex_img
    /\ (forall k, 1 <= k <= 16 -> img_geom (S k) = img_geom heart)
    /\ band_done label_lv_myo theta_0_apical apical_windows inf_limit_lv apical_extent S
    /\ band_done label_lv_myo theta_0 mid_windows apical_extent mid_extent S
    /\ band_done label_lv_myo theta_0 basal_windows mid_extent basal_extent S.
Proof.
  intros Hinf Hae Hme Hapex Hrun. unfold angular_segmenter in Hrun.
  apply bind_inr in Hrun as (u1 & h1 & Hinit & Hrun).
  (* the first pass of the first loop reads the whole-heart image *)
  assert (Hheart : exists heart, dict_get_image wc (label_heart cfg) h = (inr heart, h)).
  { rewrite (py_range_cons 0 17) in Hinit by lia. cbn [for_each] in Hinit.
    apply bind_inr in Hinit as (u0 & h0 & Hstep & _).
    apply bind_inr in Hstep as (heart & h00 & Hget & _).
    pose proof (read_only_run _ _ _ _ (read_only_dict_get_image _ _) Hget) as ->.
    exists heart. exact Hget. }
  destruct Hheart as [heart Hget].
  pose proof (dict_get_image_inr _ _ _ _ _ Hget) as (_ & items0 & lh & Hwc0 & _ & _).
  destruct (init_segments_loop wc (img_geom heart) (length h) 17 0 h (fun _ => heart) u1 h1)
    as (S0 & Hz & Hold); try lia.
  { exists items0, (fun _ => 0%nat). split; [exact Hwc0|]. split; intros; lia. }
  { exists heart. split; [exact Hget | reflexivity]. }
  { exact Hinit. }
  destruct Hz as (items & L & Hwc1 & Hsegs & Hinj).
  apply bind_inr in Hrun as (u2 & h2 & Hset & Hrun).
  rewrite (dict_set_run _ _ _ _ _ Hwc1) in Hset.
  apply (f_equal snd) in Hset. cbn [snd] in Hset. rename Hset into Hh2.
  assert (Hapexlt : (apex < length h)%nat) by (eapply lookup_lt_Some, Hapex).
  assert (Hapexne : apex <> wc) by (intros E; rewrite E in Hapex; congruence).
  assert (Hapex1 : h1 !! apex = Some (OImage apex_img)).
  { rewrite Hold; assumption. }
  assert (Hwclt : (wc < length h1)%nat) by (eapply lookup_lt_Some, Hwc1).
  (* the store between the initialisation and the slice loops *)
  assert (Hst2 : seg_store h2 wc (paint S0 17 apex_img)).
  { exists (dict_update (KInt 17) apex items), (fun k => if k =? 17 then apex else L k).
    split; [|split].
    - rewrite <- Hh2. apply list_lookup_insert_eq. exact Hwclt.
    - intros k Hk. unfold paint. destruct (k =? 17) eqn:E.
      + apply Z.eqb_eq in E. subst k. split; [apply dict_lookup_update_eq|].
        rewrite <- Hh2. rewrite list_lookup_insert_ne by (intros X; apply Hapexne; symmetry; exact X).
        exact Hapex1.
      + apply Z.eqb_neq in E. destruct (Hsegs k Hk) as (Hk1 & Hk2 & _).
        split; [rewrite dict_lookup_update_ne by congruence; exact Hk1|].
        rewrite <- Hh2. rewrite list_lookup_insert_ne; [exact Hk2|].
        intros Heq. rewrite <- Heq in Hk2. congruence.
    - intros j k Hj Hk. destruct (j =? 17) eqn:Ej, (k =? 17) eqn:Ek.
      + apply Z.eqb_eq in Ej, Ek. congruence.
      + intros Heq. destruct (Hsegs k Hk) as (_ & _ & Hk3 & _). lia.
      + intros Heq. destruct (Hsegs j Hj) as (_ & _ & Hj3 & _). lia.
      + apply Hinj; assumption. }
  assert (Hzero2 : forall k, 1 <= k <= 16 ->
             img_geom (paint S0 17 apex_img k) = img_geom heart
             /\ forall x y z, img_pix (paint S0 17 apex_img k) x y z = 0).
  { intros k Hk. unfold paint. replace (k =? 17) with false by (symmetry; apply Z.eqb_neq; lia).
    destruct (Hsegs k ltac:(lia)) as (_ & _ & _ & Hg & Hp). split; assumption. }
  destruct band_windows_facts as ((Hnd_a & Hr_a) & (Hnd_m & Hr_m) & (Hnd_b & Hr_b)).
  (* apical slices *)
  apply bind_inr in Hrun as (u3 & h3 & Hloop_a & Hrun).
  destruct (seg_store_band wc label_lv_myo theta_0_apical apical_windows
              (py_range inf_limit_lv apical_extent) h2 _ u3 h3 Hst2 Hnd_a)
    as (S1 & Hst3 & Hout_a & Hok_a & Hpix_a);
    [intros w Hw; specialize (Hr_a w Hw); lia | apply NoDup_py_range
     | intros n Hn; apply In_py_range in Hn; lia | exact Hloop_a |].
  (* mid slices *)
  apply bind_inr in Hrun as (u4 & h4 & Hloop_m & Hrun).
  destruct (seg_store_band wc label_lv_myo theta_0 mid_windows
              (py_range apical_extent mid_extent) h3 _ u4 h4 Hst3 Hnd_m)
    as (S2 & Hst4 & Hout_m & Hok_m & Hpix_m);
    [intros w Hw; specialize (Hr_m w Hw); lia | apply NoDup_py_range
     | intros n Hn; apply In_py_range in Hn; lia | exact Hloop_m |].
  (* basal slices *)
  destruct (seg_store_band wc label_lv_myo theta_0 basal_windows
              (py_range mid_extent basal_extent) h4 _ u h' Hst4 Hnd_b)
    as (S3 & Hst5 & Hout_b & Hok_b & Hpix_b);
    [intros w Hw; specialize (Hr_b w Hw); lia | apply NoDup_py_range
     | intros n Hn; apply In_py_range in Hn; lia | exact Hrun |].
  assert (Hnot : forall (band : list window) lo hi k,
             (forall w, In w band -> lo <= w_seg w <= hi) ->
             ~ (lo <= k <= hi) -> ~ In k (band_segments band)).
  { intros band lo hi k Hr Hk Hin. unfold band_segments in Hin.
    apply in_map_iff in Hin as (w & <- & Hw). apply Hk, Hr, Hw. }
  assert (Ha : band_done label_lv_myo theta_0_apical apical_windows
                 inf_limit_lv apical_extent S1).
  { eapply band_done_of_loop; [exact Hok_a | exact Hpix_a |].
    intros w Hw. apply Hzero2. specialize (Hr_a w Hw). lia. }
  assert (Hm : band_done label_lv_myo theta_0 mid_windows apical_extent mid_extent S2).
  { eapply band_done_of_loop; [exact Hok_m | exact Hpix_m |].
    intros w Hw x y z. specialize (Hr_m w Hw).
    rewrite Hout_a by (eapply Hnot; [exact Hr_a | lia]).
    apply Hzero2. lia. }
  assert (Hb : band_done label_lv_myo theta_0 basal_windows mid_extent basal_extent S3).
  { eapply band_done_of_loop; [exact Hok_b | exact Hpix_b |].
    intros w Hw x y z. specialize (Hr_b w Hw).
    rewrite Hout_m by (eapply Hnot; [exact Hr_m | lia]).
    rewrite Hout_a by (eapply Hnot; [exact Hr_a | lia]).
    apply Hzero2. lia. }
  exists S3, heart. split; [exact Hst5|]. split; [exact Hget|]. split; [|split; [|split; [|split]]].
  - rewrite Hout_b by (eapply Hnot; [exact Hr_b | lia]).
    rewrite Hout_m by (eapply Hnot; [exact Hr_m | lia]).
    rewrite Hout_a by (eapply Hnot; [exact Hr_a | lia]).
    unfold paint. reflexivity.
  - intros k Hk.
    assert (Hg1 : img_geom (S1 k) = img_geom heart).
    { destruct (in_dec Z.eq_dec k (band_segments apical_windows)) as [Hin | Hnin].
      - unfold band_segments in Hin. apply in_map_iff in Hin as (w & <- & Hw).
        destruct (Hpix_a w Hw) as [Hg _]. rewrite Hg. apply Hzero2. exact Hk.
      - rewrite Hout_a by exact Hnin. apply Hzero2. exact Hk. }
    assert (Hg2 : img_geom (S2 k) = img_geom heart).
    { destruct (in_dec Z.eq_dec k (band_segments mid_windows)) as [Hin | Hnin].
      - unfold band_segments in Hin. apply in_map_iff in Hin as (w & Hkw & Hw).
        destruct (Hpix_m w Hw) as [Hg _]. rewrite <- Hkw, Hg, Hkw. exact Hg1.
      - rewrite Hout_m by exact Hnin. exact Hg1. }
    destruct (in_dec Z.eq_dec k (band_segments basal_windows)) as [Hin | Hnin].
    + unfold band_segments in Hin. apply in_map_iff in Hin as (w & Hkw & Hw).
      destruct (Hpix_b w Hw) as [Hg _]. rewrite <- Hkw, Hg, Hkw. exact Hg2.
    + rewrite Hout_b by exact Hnin. exact Hg2.
  - eapply band_done_other; [exact Ha|]. intros w Hw. specialize (Hr_a w Hw).
    rewrite Hout_b by (eapply Hnot; [exact Hr_b | lia]).
    rewrite Hout_m by (eapply Hnot; [exact Hr_m | lia]). reflexivity.
  - eapply band_done_other; [exact Hm|]. intros w Hw. specialize (Hr_m w Hw).
    rewrite Hout_b by (eapply Hnot; [exact Hr_b | lia]). reflexivity.
  - exact Hb.
Qed.

End Segmenter.

(** ** What [extract] marks *)

Lemma combine_fst_snd {A B} (l : list (A * B)) : combine (map fst l) (map snd l) = l.
Proof. induction l as [|[a b] l IH]; cbn; [reflexivity | rewrite IH; reflexivity]. Qed.

Lemma selected_of_positions (f : Z * Z -> R) l angle_min angle_max cw :
  selected (map f l) angle_min angle_max (map snd l) (map fst l) cw =
  List.filter (fun p => in_segment_condition cw angle_min angle_max (f p)) l.
Proof.
  unfold selected. rewrite combine_fst_snd.
  induction l as [|p l IH]; cbn [map combine List.filter fst]; [reflexivity|].
  destruct (in_segment_condition cw angle_min angle_max (f p)); cbn [map snd];
    rewrite IH; reflexivity.
Qed.

Lemma existsb_same_pos p l : existsb (same_pos p) l = true <-> In p l.
Proof.
  rewrite existsb_exists. split.
  - intros (q & Hq & Hs). unfold same_pos in Hs. apply andb_true_iff in Hs as [H1 H2].
    apply Z.eqb_eq in H1, H2. destruct p, q; cbn in *; subst. exact Hq.
  - intros Hp. exists p. split; [exact Hp|]. unfold same_pos. rewrite !Z.eqb_refl. reflexivity.
Qed.

(** A pixel of a window's slice is 1 where a non-zero pixel of the slice has
    its relative angle selected by the window, and 0 elsewhere. *)
Lemma window_slice_pix sl com reference w x y :
  (In (y, x) (np_where2 sl)
   /\ selects w (relative_angle (fst com) (snd com) reference (y, x)) = true ->
   sl_pix (window_slice sl com reference w) x y = 1)
  /\ (~ (In (y, x) (np_where2 sl)
         /\ selects w (relative_angle (fst com) (snd com) reference (y, x)) = true) ->
      sl_pix (window_slice sl com reference w) x y = 0).
Proof.
  unfold window_slice. destruct com as [y_0 x_0]. rewrite combine_fst_snd.
  unfold extract. cbn [sl_pix fst snd]. rewrite selected_of_positions.
  destruct (existsb _ _) eqn:E.
  - split; [reflexivity|]. intros Hn. exfalso. apply Hn.
    apply existsb_same_pos in E. apply filter_In in E. exact E.
  - split; [|reflexivity]. intros Hy.
    unfold selects in Hy.
    pose proof (proj2 (filter_In
      (fun p => in_segment_condition (w_cw w) (w_min w) (w_max w)
                  (relative_angle y_0 x_0 reference p)) (y, x) (np_where2 sl)) Hy) as Hin.
    apply (proj2 (existsb_same_pos _ _)) in Hin. congruence.
Qed.

Lemma window_slice_pos sl com reference w x y :
  0 < sl_pix (window_slice sl com reference w) x y ->
  In (y, x) (np_where2 sl)
  /\ selects w (relative_angle (fst com) (snd com) reference (y, x)) = true.
Proof.
  intros Hpos. destruct (window_slice_pix sl com reference w x y) as [_ Hno].
  destruct (in_dec (fun a b : Z * Z => ltac:(decide equality; apply Z.eq_dec))
                   (y, x) (np_where2 sl)) as [Hin | Hnin].
  - destruct (selects w (relative_angle (fst com) (snd com) reference (y, x))) eqn:E.
    + split; [exact Hin | reflexivity].
    + rewrite Hno in Hpos by (intros [_ H]; discriminate). lia.
  - rewrite Hno in Hpos by (intros [H _]; contradiction). lia.
Qed.

(** ** Overlaps and gaps of the windows *)

Ltac window_cases H :=
  cbn [In apical_windows mid_windows basal_windows] in H;
  repeat (destruct H as [<- | H]); try contradiction.

Lemma selects_true w theta :
  selects w theta = true ->
  if w_cw w then (theta <= w_min w \/ w_max w <= theta)%R
  else (w_min w <= theta <= w_max w)%R.
Proof.
  unfold selects. destruct (w_cw w).
  - apply in_segment_condition_wrap.
  - apply in_segment_condition_closed.
Qed.

Ltac end_of_window :=
  unfold endpoint_of; cbn [w_min w_max]; apply orb_true_iff;
  first [ left; apply Reqb_true; lra | right; apply Reqb_true; lra ].

(** Two different windows of a band select the same angle only when it is an
    end of both. *)
Lemma windows_overlap_on_ends band wi wj theta :
  band = apical_windows \/ band = mid_windows \/ band = basal_windows ->
  In wi band -> In wj band -> w_seg wi <> w_seg wj ->
  selects wi theta = true -> selects wj theta = true ->
  endpoint_of wi theta = true /\ endpoint_of wj theta = true.
Proof.
  intros Hband Hi Hj Hne Si Sj. pose proof PI_RGT_0.
  apply selects_true in Si, Sj.
  destruct Hband as [-> | [-> | ->]]; window_cases Hi; window_cases Hj;
    cbn [w_seg w_cw w_min w_max] in *; try congruence;
    try (exfalso; lra); try (exfalso; destruct Si; lra); try (exfalso; destruct Sj; lra);
    split; end_of_window.
Qed.

(** No window of the mid and basal bands selects a negative angle. *)
Lemma negative_angle_unselected band w theta :
  band = mid_windows \/ band = basal_windows ->
  In w band -> (theta < 0)%R -> selects w theta = false.
Proof.
  intros Hband Hw Hneg. pose proof PI_RGT_0.
  destruct (selects w theta) eqn:E; [|reflexivity].
  apply selects_true in E.
  destruct Hband as [-> | ->]; window_cases Hw; cbn [w_cw w_min w_max] in E; lra.
Qed.

(** Every angle of [0, 2π) is selected by a window of its band. *)
Lemma angle_in_range_selected band theta :
  band = apical_windows \/ band = mid_windows \/ band = basal_windows ->
  (0 <= theta < 2 * PI)%R ->
  exists w, In w band /\ selects w theta = true.
Proof.
  intros Hband Htheta.
  pose proof (count_selecting_bands band theta Hband Htheta) as Hcount.
  assert (Hpos : (0 < count_selecting band theta)%nat).
  { rewrite Hcount. destruct (2 <=? count_endpoint band theta)%nat; lia. }
  unfold count_selecting in Hpos.
  destruct (List.filter (fun w => selects w theta) band) as [|w l] eqn:E; [cbn in Hpos; lia|].
  assert (Hin : In w (List.filter (fun w => selects w theta) band)) by (rewrite E; left; reflexivity).
  apply filter_In in Hin. exists w. exact Hin.
Qed.

(** ** The apex copy of the myocardium *)

Lemma modify_image_run l f (h : heap) i i' :
  h !! l = Some (OImage i) -> f i = inr i' ->
  modify_image l f h = (inr tt, <[l := OImage i']> h).
Proof.
  intros Hl Hf. unfold modify_image, bind, load_image. rewrite Hl, Hf. reflexivity.
Qed.

Lemma insert_middle {A} (g : list A) x y t :
  <[length g := y]> (g ++ x :: t) = g ++ y :: t.
Proof. rewrite insert_app_r_alt by lia. rewrite Nat.sub_diag. reflexivity. Qed.

Lemma cut_myocardium_apex {tk : Toolkit} label_lv_myo inf_limit_lv apical_extent
      mid_extent basal_extent (h : heap) :
  exists h',
    cut_myocardium label_lv_myo inf_limit_lv apical_extent mid_extent basal_extent h =
    (inr (length h), h')
    /\ h' !! length h = Some (OImage (myo_apex label_lv_myo inf_limit_lv)).
Proof.
  unfold cut_myocardium.
  assert (Hstep : forall (g : heap) img (K : loc -> M loc) (f1 : Image -> Image),
             bind (alloc (OImage img))
                  (fun l => bind (modify_image l (fun i => inr (f1 i))) (fun _ => K l)) g =
             K (length g) (g ++ [OImage (f1 img)])).
  { intros g img K f1. unfold bind at 1. unfold alloc.
    rewrite (bind_ok _ _ _ _ _
               (modify_image_run (length g) _ (g ++ [OImage img]) img (f1 img)
                  (list_lookup_middle _ _ _ _ eq_refl) eq_refl)).
    f_equal. apply insert_middle. }
  assert (Hmod : forall (g : heap) l img (K : M loc) (f1 : Image -> Image) t,
             length g = l ->
             bind (modify_image l (fun i => inr (f1 i))) (fun _ => K) (g ++ OImage img :: t) =
             K (g ++ OImage (f1 img) :: t)).
  { intros g l img K f1 t <-.
    rewrite (bind_ok _ _ _ _ _
               (modify_image_run (length g) _ (g ++ OImage img :: t) img (f1 img)
                  (list_lookup_middle _ _ _ _ eq_refl) eq_refl)).
    f_equal. apply insert_middle. }
  rewrite Hstep.
  rewrite Hstep. rewrite (Hmod _ _ _ _ _ [] eq_refl).
  rewrite Hstep. rewrite (Hmod _ _ _ _ _ [] eq_refl).
  rewrite Hstep. rewrite (Hmod _ _ _ _ _ [] eq_refl).
  eexists. split; [reflexivity|].
  rewrite <- !app_assoc. apply list_lookup_middle. reflexivity.
Qed.

(** ** Coverage of a band *)

(** A non-zero voxel of a slice of a band whose relative angle lies in
    [0, 2π) is marked in a segment of the band. *)
Lemma band_voxel_covered {tk : Toolkit} label_lv_myo reference band a b
      (S : Z -> Image) x y z sl com :
  band = apical_windows \/ band = mid_windows \/ band = basal_windows ->
  band_done label_lv_myo reference band a b S ->
  a <= z < b ->
  slice_of label_lv_myo z = inr sl -> get_com_slice sl = inr com ->
  In (y, x) (np_where2 sl) ->
  (0 <= relative_angle (fst com) (snd com) reference (y, x) < 2 * PI)%R ->
  exists w, In w band /\ img_pix (S (w_seg w)) x y z = 1.
Proof.
  intros Hband [_ Hpix] Hz Hsl Hcom Hin Hrange.
  destruct (angle_in_range_selected band _ Hband Hrange) as (w & Hw & Hsel).
  exists w. split; [exact Hw|]. rewrite (Hpix w Hw).
  replace ((a <=? z) && (z <? b)) with true
    by (symmetry; apply andb_true_iff; split; [apply Z.leb_le | apply Z.ltb_lt]; lia).
  unfold band_pixel. rewrite Hsl, Hcom.
  apply (proj1 (window_slice_pix sl com reference w x y)). split; assumption.
Qed.

(** In the apical band this is every non-zero voxel: [theta_0_apical] is a
    value of [arctan2]. *)
Lemma apical_voxel_covered {tk : Toolkit} label_lv_myo dy dx a b
      (S : Z -> Image) x y z sl com :
  band_done label_lv_myo (arctan2 dy dx) apical_windows a b S ->
  a <= z < b ->
  slice_of label_lv_myo z = inr sl -> get_com_slice sl = inr com ->
  In (y, x) (np_where2 sl) ->
  exists w, In w apical_windows /\ img_pix (S (w_seg w)) x y z = 1.
Proof.
  intros Hdone Hz Hsl Hcom Hin.
  eapply band_voxel_covered; try eassumption; [left; reflexivity|].
  apply relative_angle_range_apical, arctan2_bounds.
Qed.

(** A segment of a band is positive only on non-zero voxels of the slices
    of the band. *)
Lemma segment_within_band {tk : Toolkit} label_lv_myo reference band a b
      (S : Z -> Image) w x y z :
  0 <= a ->
  band_done label_lv_myo reference band a b S ->
  In w band -> 0 < img_pix (S (w_seg w)) x y z ->
  a <= z < b /\ img_pix label_lv_myo x y z <> 0.
Proof.
  intros Ha [_ Hpix] Hw Hpos. rewrite (Hpix w Hw) in Hpos.
  destruct ((a <=? z) && (z <? b)) eqn:E; [|lia].
  apply andb_true_iff in E as [E1 E2]. apply Z.leb_le in E1. apply Z.ltb_lt in E2.
  split; [lia|].
  unfold band_pixel in Hpos.
  destruct (slice_of label_lv_myo z) as [e | sl] eqn:Hsl; [lia|].
  destruct (get_com_slice sl) as [e | com] eqn:Hcom; [lia|].
  apply window_slice_pos in Hpos as [Hin _].
  apply slice_of_inr in Hsl as [_ ->]; [|lia].
  apply In_np_where2 in Hin. cbn [sl_pix] in Hin. apply Hin.
Qed.

(** ** Disjointness of the segments *)

Section Overlap.

Context {tk : Toolkit}.

Lemma band_pixel_pos label_lv_myo reference w n x y :
  0 <= n ->
  0 < band_pixel label_lv_myo reference w n x y ->
  exists sl com,
    slice_of label_lv_myo n = inr sl /\ get_com_slice sl = inr com
    /\ 0 <= x < size_x label_lv_myo /\ 0 <= y < size_y label_lv_myo
    /\ n < size_z label_lv_myo
    /\ img_pix label_lv_myo x y n <> 0
    /\ selects w (relative_angle (fst com) (snd com) reference (y, x)) = true.
Proof.
  intros Hn Hpos. unfold band_pixel in Hpos.
  destruct (slice_of label_lv_myo n) as [e | sl] eqn:Hsl; [lia|].
  destruct (get_com_slice sl) as [e | com] eqn:Hcom; [lia|].
  apply window_slice_pos in Hpos as [Hin Hsel].
  apply slice_of_inr in Hsl as [Hlt Hsl']; [|exact Hn].
  exists sl, com. split; [|split; [exact Hcom|]].
  - unfold slice_of, py_index.
    replace ((0 <=? n) && (n <? size_z label_lv_myo)) with true; [congruence|].
    symmetry. apply andb_true_iff. split; [apply Z.leb_le | apply Z.ltb_lt]; lia.
  - apply In_np_where2 in Hin. rewrite Hsl' in Hin. cbn [sl_size sl_pix fst snd] in Hin.
    destruct Hin as (Hx & Hy & Hp). repeat split; try lia; assumption.
Qed.

Lemma window_of_segment band k :
  In k (band_segments band) -> exists w, In w band /\ w_seg w = k.
Proof.
  unfold band_segments. rewrite in_map_iff. intros (w & Hk & Hw). exists w. split; assumption.
Qed.

(** Where a segment image is positive. *)
Lemma segment_positive label_lv_myo inf_limit_lv apical_extent mid_extent basal_extent
      theta_0 theta_0_apical (S : Z -> Image) k x y z :
  S 17 = myo_apex label_lv_myo inf_limit_lv ->
  band_done label_lv_myo theta_0_apical apical_windows inf_limit_lv apical_extent S ->
  band_done label_lv_myo theta_0 mid_windows apical_extent mid_extent S ->
  band_done label_lv_myo theta_0 basal_windows mid_extent basal_extent S ->
  1 <= k <= 17 ->
  0 < img_pix (S k) x y z ->
  (k = 17 /\ 0 < img_pix (myo_apex label_lv_myo inf_limit_lv) x y z)
  \/ exists band reference a b w,
       ((band, reference, a, b) = (apical_windows, theta_0_apical, inf_limit_lv, apical_extent)
        \/ (band, reference, a, b) = (mid_windows, theta_0, apical_extent, mid_extent)
        \/ (band, reference, a, b) = (basal_windows, theta_0, mid_extent, basal_extent))
       /\ In w band /\ w_seg w = k /\ a <= z < b
       /\ 0 < band_pixel label_lv_myo reference w z x y.
Proof.
  intros H17 [_ Ha] [_ Hm] [_ Hb] Hk Hpos.
  assert (Hcase : k = 17 \/ (13 <= k <= 16) \/ (7 <= k <= 12) \/ (1 <= k <= 6)) by lia.
  destruct Hcase as [-> | [Hk' | [Hk' | Hk']]].
  - left. rewrite H17 in Hpos. split; [reflexivity | exact Hpos].
  - right.
    assert (Hw : exists w, In w apical_windows /\ w_seg w = k).
    { apply window_of_segment. cbn [band_segments map apical_windows w_seg In]. lia. }
    destruct Hw as (w & Hw & <-). rewrite (Ha w Hw) in Hpos.
    destruct ((inf_limit_lv <=? z) && (z <? apical_extent)) eqn:E; [|lia].
    apply andb_true_iff in E as [E1 E2]. apply Z.leb_le in E1. apply Z.ltb_lt in E2.
    exists apical_windows, theta_0_apical, inf_limit_lv, apical_extent, w.
    repeat split; try assumption; try lia. left; reflexivity.
  - right.
    assert (Hw : exists w, In w mid_windows /\ w_seg w = k).
    { apply window_of_segment. cbn [band_segments map mid_windows w_seg In]. lia. }
    destruct Hw as (w & Hw & <-). rewrite (Hm w Hw) in Hpos.
    destruct ((apical_extent <=? z) && (z <? mid_extent)) eqn:E; [|lia].
    apply andb_true_iff in E as [E1 E2]. apply Z.leb_le in E1. apply Z.ltb_lt in E2.
    exists mid_windows, theta_0, apical_extent, mid_extent, w.
    repeat split; try assumption; try lia. right; left; reflexivity.
  - right.
    assert (Hw : exists w, In w basal_windows /\ w_seg w = k).
    { apply window_of_segment. cbn [band_segments map basal_windows w_seg In]. lia. }
    destruct Hw as (w & Hw & <-). rewrite (Hb w Hw) in Hpos.
    destruct ((mid_extent <=? z) && (z <? basal_extent)) eqn:E; [|lia].
    apply andb_true_iff in E as [E1 E2]. apply Z.leb_le in E1. apply Z.ltb_lt in E2.
    exists basal_windows, theta_0, mid_extent, basal_extent, w.
    repeat split; try assumption; try lia. right; right; reflexivity.
Qed.

End Overlap.

(** C1, as the code has it: before hole filling, two different segment
    volumes are both positive at a voxel only when the voxel it was
    resampled from lies in a band holding both segments and the relative
    angle of that voxel is an end of the windows of both: the windows are
    closed, so neighbouring windows share their common end.  Segments of
    different bands, and the apex cap, share no voxel. *)
Theorem segments_share_only_window_ends
        {tk : Toolkit} (cfg : Config) (wc : loc) (label_lv_myo : Image) (apex : loc)
        (inf_limit_lv apical_extent mid_extent basal_extent : Z)
        (theta_0 theta_0_apical : R) (h : heap) (heart : Image) (u : unit) (h' : heap) :
  0 <= inf_limit_lv <= apical_extent -> apical_extent <= mid_extent ->
  h !! apex = Some (OImage (myo_apex label_lv_myo inf_limit_lv)) ->
  dict_get_image wc (label_heart cfg) h = (inr heart, h) ->
  img_geom heart = img_geom label_lv_myo ->
  angular_segmenter cfg wc label_lv_myo apex inf_limit_lv apical_extent mid_extent
    basal_extent theta_0 theta_0_apical h = (inr u, h') ->
  exists S,
    seg_store h' wc S
    /\ forall inverse_transform i j x y z,
         1 <= i <= 17 -> 1 <= j <= 17 -> i <> j ->
         0 < img_pix (rotate_back (S i) inverse_transform) x y z ->
         0 < img_pix (rotate_back (S j) inverse_transform) x y z ->
         exists band reference a b wi wj x' y' z' sl com,
           ((band, reference, a, b) =
              (apical_windows, theta_0_apical, inf_limit_lv, apical_extent)
            \/ (band, reference, a, b) = (mid_windows, theta_0, apical_extent, mid_extent)
            \/ (band, reference, a, b) = (basal_windows, theta_0, mid_extent, basal_extent))
           /\ In wi band /\ In wj band /\ w_seg wi = i /\ w_seg wj = j
           /\ resample_source (img_geom label_lv_myo) inverse_transform (x, y, z) =
              Some (x', y', z')
           /\ a <= z' < b
           /\ slice_of label_lv_myo z' = inr sl /\ get_com_slice sl = inr com
           /\ img_pix label_lv_myo x' y' z' <> 0
           /\ endpoint_of wi (relative_angle (fst com) (snd com) reference (y', x')) = true
           /\ endpoint_of wj (relative_angle (fst com) (snd com) reference (y', x')) = true.
Proof.
  intros Hinf Hae Hapex Hheart Hgeom Hrun.
  destruct (angular_segmenter_spec cfg wc label_lv_myo apex _ inf_limit_lv apical_extent
              mid_extent basal_extent theta_0 theta_0_apical h u h'
              ltac:(lia) ltac:(lia) ltac:(lia) Hapex Hrun)
    as (S & heart' & Hst & Hheart' & H17 & Hg & Ha & Hm & Hb).
  assert (heart' = heart) by congruence. subst heart'.
  exists S. split; [exact Hst|].
  intros T i j x y z Hi Hj Hij Hpi Hpj.
  assert (HG : forall k, 1 <= k <= 17 -> img_geom (S k) = img_geom label_lv_myo).
  { intros k Hk. destruct (Z.eq_dec k 17) as [-> | Hne].
    - rewrite H17. reflexivity.
    - rewrite Hg by lia. exact Hgeom. }
  unfold rotate_back in Hpi, Hpj. rewrite Resample_nearest in Hpi, Hpj.
  rewrite (HG i Hi) in Hpi. rewrite (HG j Hj) in Hpj.
  destruct (resample_source (img_geom label_lv_myo) T (x, y, z)) as [[[x' y'] z'] |] eqn:Hsrc;
    [|lia].
  pose proof (segment_positive _ _ _ _ _ _ _ S i x' y' z' H17 Ha Hm Hb Hi Hpi) as Pi.
  pose proof (segment_positive _ _ _ _ _ _ _ S j x' y' z' H17 Ha Hm Hb Hj Hpj) as Pj.
  (* a voxel of a band is not in the apex cap *)
  assert (Hcap : forall band reference a b (w : window),
             ((band, reference, a, b) =
                (apical_windows, theta_0_apical, inf_limit_lv, apical_extent)
              \/ (band, reference, a, b) = (mid_windows, theta_0, apical_extent, mid_extent)
              \/ (band, reference, a, b) = (basal_windows, theta_0, mid_extent, basal_extent)) ->
             a <= z' < b ->
             0 < band_pixel label_lv_myo reference w z' x' y' ->
             ~ 0 < img_pix (myo_apex label_lv_myo inf_limit_lv) x' y' z').
  { intros band reference a b w Hband Hz Hpos Hcontra.
    assert (Hlo : inf_limit_lv <= a).
    { destruct Hband as [E | [E | E]]; inversion E; subst; lia. }
    apply band_pixel_pos in Hpos as (sl & com & _ & _ & _ & _ & Hlt & _); [|lia].
    rewrite myo_apex_pix in Hcontra by lia.
    replace (z' <? inf_limit_lv) with false in Hcontra by (symmetry; apply Z.ltb_ge; lia).
    lia. }
  destruct Pi as [[-> Hpi17] | (bi & ri & ai & bi' & wi & Hbi & Hwi & Hsi & Hzi & Hbpi)];
    destruct Pj as [[-> Hpj17] | (bj & rj & aj & bj' & wj & Hbj & Hwj & Hsj & Hzj & Hbpj)].
  - contradiction.
  - exfalso. eapply Hcap; eassumption.
  - exfalso. eapply Hcap; eassumption.
  - (* both in a band: the same band, since the slice ranges are disjoint *)
    assert (Hsame : (bi, ri, ai, bi') = (bj, rj, aj, bj')).
    { destruct Hbi as [E1 | [E1 | E1]]; destruct Hbj as [E2 | [E2 | E2]];
        inversion E1; inversion E2; subst; try reflexivity; lia. }
    inversion Hsame; subst bj rj aj bj'.
    apply band_pixel_pos in Hbpi as (sl & com & Hsl & Hcom & _ & _ & _ & Hnz & Hseli);
      [|destruct Hbi as [E | [E | E]]; inversion E; subst; lia].
    apply band_pixel_pos in Hbpj as (sl2 & com2 & Hsl2 & Hcom2 & _ & _ & _ & _ & Hselj);
      [|destruct Hbi as [E | [E | E]]; inversion E; subst; lia].
    assert (sl2 = sl) by congruence. subst sl2.
    assert (com2 = com) by congruence. subst com2.
    assert (Hband : bi = apical_windows \/ bi = mid_windows \/ bi = basal_windows).
    { destruct Hbi as [E | [E | E]]; inversion E; auto. }
    destruct (windows_overlap_on_ends bi wi wj _ Hband Hwi Hwj ltac:(lia) Hseli Hselj)
      as [Hei Hej].
    exists bi, ri, ai, bi', wi, wj, x', y', z', sl, com.
    repeat split; try assumption; try lia.
Qed.
(** ** From the whole function to the division into thirds *)

(** The four copies of the myocardium that lines 249-266 cut. *)
Lemma cut_myocardium_store {tk : Toolkit} label_lv_myo inf_limit_lv apical_extent
      mid_extent basal_extent (h : heap) :
  cut_myocardium label_lv_myo inf_limit_lv apical_extent mid_extent basal_extent h =
  (inr (length h),
   h ++ [ OImage (myo_apex label_lv_myo inf_limit_lv);
          OImage (myo_band label_lv_myo inf_limit_lv apical_extent);
          OImage (myo_band label_lv_myo apical_extent mid_extent);
          OImage (myo_band label_lv_myo mid_extent basal_extent) ]).
Proof.
  unfold cut_myocardium.
  assert (Hstep : forall (g : heap) img (K : loc -> M loc) (f1 : Image -> Image),
             bind (alloc (OImage img))
                  (fun l => bind (modify_image l (fun i => inr (f1 i))) (fun _ => K l)) g =
             K (length g) (g ++ [OImage (f1 img)])).
  { intros g img K f1. unfold bind at 1. unfold alloc.
    rewrite (bind_ok _ _ _ _ _
               (modify_image_run (length g) _ (g ++ [OImage img]) img (f1 img)
                  (list_lookup_middle _ _ _ _ eq_refl) eq_refl)).
    f_equal. apply insert_middle. }
  assert (Hmod : forall (g : heap) l img (K : M loc) (f1 : Image -> Image) t,
             length g = l ->
             bind (modify_image l (fun i => inr (f1 i))) (fun _ => K) (g ++ OImage img :: t) =
             K (g ++ OImage (f1 img) :: t)).
  { intros g l img K f1 t <-.
    rewrite (bind_ok _ _ _ _ _
               (modify_image_run (length g) _ (g ++ OImage img :: t) img (f1 img)
                  (list_lookup_middle _ _ _ _ eq_refl) eq_refl)).
    f_equal. apply insert_middle. }
  rewrite Hstep.
  rewrite Hstep. rewrite (Hmod _ _ _ _ _ [] eq_refl).
  rewrite Hstep. rewrite (Hmod _ _ _ _ _ [] eq_refl).
  rewrite Hstep. rewrite (Hmod _ _ _ _ _ [] eq_refl).
  unfold ret. rewrite <- !app_assoc. reflexivity.
Qed.

(** [int(extent / 3)] and [extent // 3]. *)
Lemma int_div3_neg extent : extent < 0 -> int_div3 extent = - ((- extent) / 3).
Proof.
  intros H. unfold int_div3.
  replace extent with (- (- extent)) at 1 by lia.
  rewrite Z.quot_opp_l by lia. rewrite Z.quot_div_nonneg by lia. reflexivity.
Qed.

Lemma int_div3_bounds inf_limit_lv com_mv :
  0 <= inf_limit_lv -> 0 <= com_mv ->
  0 <= inf_limit_lv + int_div3 (com_mv - inf_limit_lv)
  /\ 0 <= inf_limit_lv + 2 * int_div3 (com_mv - inf_limit_lv).
Proof.
  intros Hinf Hcom.
  destruct (Z_lt_le_dec (com_mv - inf_limit_lv) 0) as [Hneg | Hnn].
  - rewrite (int_div3_neg _ Hneg).
    assert (H1 : (- (com_mv - inf_limit_lv)) / 3 <= inf_limit_lv / 3)
      by (apply Z.div_le_mono; lia).
    pose proof (Z.mul_div_le inf_limit_lv 3 ltac:(lia)). lia.
  - rewrite (int_div3_floor _ Hnn).
    assert (0 <= (com_mv - inf_limit_lv) / 3) by (apply Z.div_pos; lia). lia.
Qed.

(** A run that gets to Module 3 goes on from the store that the cut of the
    myocardium leaves. *)
Lemma run_from_module_3
      {tk : Toolkit} (cfg : Config) (contours : loc) (h : heap)
      (working_contours output_contours : loc) (lv heart : Image) (cb_size cb_index : Z3)
      (overall_transform_list : list VersorRigid3DTransform) (h6 : heap)
      (label_lv_inner label_lv_myo : Image) (inf_limit_lv com_mv : Z)
      (dc apical_extent mid_extent basal_extent : Z) :
  run_reaches_module_3 cfg contours h working_contours output_contours lv heart
    cb_size cb_index overall_transform_list h6 ->
  extract_myocardium cfg working_contours
    (mm_to_voxels (myocardium_thickness_mm cfg) lv) h6
  = (inr (label_lv_inner, label_lv_myo), h6) ->
  long_axis_limits cfg working_contours label_lv_inner h6
  = (inr (inf_limit_lv, com_mv), h6) ->
  axial_limits inf_limit_lv com_mv = (dc, apical_extent, mid_extent, basal_extent) ->
  generate_left_ventricle_segments cfg contours h =
  (let* theta_0 := basal_reference_angle cfg working_contours mid_extent in
   let* theta_0_apical :=
     apical_reference_angle cfg working_contours inf_limit_lv apical_extent in
   let* _ := angular_segmenter cfg working_contours label_lv_myo (length h6)
               inf_limit_lv apical_extent mid_extent basal_extent
               theta_0 theta_0_apical in
   let* _ := for_each (py_range 0 17)
               (reproject_segment cfg contours working_contours output_contours
                  (GetInverse (CompositeTransform overall_transform_list))
                  (mm_to_voxels (hole_fill_mm cfg) heart) cb_index) in
   ret output_contours)
    (h6 ++ [ OImage (myo_apex label_lv_myo inf_limit_lv);
             OImage (myo_band label_lv_myo inf_limit_lv apical_extent);
             OImage (myo_band label_lv_myo apical_extent mid_extent);
             OImage (myo_band label_lv_myo mid_extent basal_extent) ]).
Proof.
  intros (h0 & h2 & h5 & Hcopy & Halloc & Hlv & Hheart & Hroi & Hcrop & Halign)
         Hmyo Hlim Haxial.
  unfold generate_left_ventricle_segments.
  rewrite (bind_ok _ _ _ _ _ Hcopy). rewrite (bind_ok _ _ _ _ _ Halloc).
  unfold run_modules.
  rewrite (bind_ok _ _ _ _ _ Hlv). rewrite (bind_ok _ _ _ _ _ Hheart).
  rewrite (bind_ok _ _ _ _ _ Hheart).
  rewrite Hroi. cbn [lift]. unfold bind at 1. cbn [ret].
  rewrite (bind_ok _ _ _ _ _ Hcrop).
  rewrite (bind_ok _ _ _ _ _ Halign).
  rewrite (bind_ok _ _ _ _ _ Hmyo). cbv beta iota.
  rewrite (bind_ok _ _ _ _ _ Hlim). cbv beta iota.
  rewrite Haxial.
  rewrite (bind_ok _ _ _ _ _
             (cut_myocardium_store label_lv_myo inf_limit_lv apical_extent mid_extent
                basal_extent h6)).
  reflexivity.
Qed.

(** C6 fails as stated: with the mitral valve below the region of the
    eroded left ventricle, at [inf_limit_lv = 19] and [com_mv = 11], the
    third [dc = int(extent / 3)] is [-2], and [extent // 3] is [-3]; the
    limits are 17 and 15, not 16 and 13. *)
Lemma third_is_truncated_not_floored :
  axial_limits 19 11 = (-2, 17, 15, 11)
  /\ (11 - 19) / 3 = -3
  /\ fst (fst (fst (axial_limits 19 11))) <> (11 - 19) / 3
  /\ snd (fst (fst (axial_limits 19 11))) <> 19 + (11 - 19) / 3
  /\ snd (fst (axial_limits 19 11)) <> 19 + 2 * ((11 - 19) / 3).
Proof.
  split; [reflexivity|]. split; [reflexivity|].
  split; [discriminate|]. split; discriminate.
Qed.

(** C6, as the code has it: on a run that gets to Module 3, [inf_limit_lv]
    is the start along z of the region of the eroded left ventricle and
    [com_mv] the first coordinate of the centre of the mitral valve; the
    third [dc] is [int((com_mv - inf_limit_lv) / 3)], truncated towards
    zero: it is [(com_mv - inf_limit_lv) // 3] when the extent is not
    negative, as on every run that returns, and minus
    [(inf_limit_lv - com_mv) // 3] when it is negative.  The apex cap keeps
    the slices strictly below [inf_limit_lv]; the apical, mid and basal
    copies of the myocardium and slice loops take
    [inf_limit_lv, inf_limit_lv + dc), [inf_limit_lv + dc, inf_limit_lv + 2 dc)
    and [inf_limit_lv + 2 dc, com_mv), and the run goes on with these limits. *)
Theorem axial_bands_are_thirds
        {tk : Toolkit} (cfg : Config) (contours : loc) (h : heap)
        (working_contours output_contours : loc) (lv heart : Image) (cb_size cb_index : Z3)
        (overall_transform_list : list VersorRigid3DTransform) (h6 : heap)
        (label_lv_inner label_lv_myo : Image) (h7 : heap)
        (inf_limit_lv com_mv : Z) (h8 : heap)
        (dc apical_extent mid_extent basal_extent : Z) :
  run_reaches_module_3 cfg contours h working_contours output_contours lv heart
    cb_size cb_index overall_transform_list h6 ->
  extract_myocardium cfg working_contours
    (mm_to_voxels (myocardium_thickness_mm cfg) lv) h6
  = (inr (label_lv_inner, label_lv_myo), h7) ->
  long_axis_limits cfg working_contours label_lv_inner h7
  = (inr (inf_limit_lv, com_mv), h8) ->
  axial_limits inf_limit_lv com_mv = (dc, apical_extent, mid_extent, basal_extent) ->
  exists (lv_aligned mv : Image) (xstart ystart zstart xsize ysize zsize : N)
         (com_y com_x : Z),
    h7 = h6 /\ h8 = h6
    (* inf_limit_lv and com_mv *)
    /\ dict_get_image working_contours (label_left_ventricle cfg) h6 = (inr lv_aligned, h6)
    /\ label_lv_inner
       = BinaryErode lv_aligned (mm_to_voxels (myocardium_thickness_mm cfg) lv)
    /\ GetRegion label_lv_inner 1 = inr (xstart, ystart, zstart, xsize, ysize, zsize)
    /\ inf_limit_lv = Z.of_N zstart
    /\ dict_get_image working_contours (label_mitral_valve cfg) h6 = (inr mv, h6)
    /\ get_com mv = inr (com_mv, com_y, com_x)
    (* the third *)
    /\ dc = Z.quot (com_mv - inf_limit_lv) 3
    /\ (0 <= com_mv - inf_limit_lv -> dc = (com_mv - inf_limit_lv) / 3)
    /\ (com_mv - inf_limit_lv < 0 -> dc = - ((inf_limit_lv - com_mv) / 3))
    /\ apical_extent = inf_limit_lv + dc
    /\ mid_extent = inf_limit_lv + 2 * dc
    /\ basal_extent = com_mv
    (* the apex cap and the three copies of the myocardium *)
    /\ cut_myocardium label_lv_myo inf_limit_lv apical_extent mid_extent basal_extent h6
       = (inr (length h6),
          h6 ++ [ OImage (myo_apex label_lv_myo inf_limit_lv);
                  OImage (myo_band label_lv_myo inf_limit_lv apical_extent);
                  OImage (myo_band label_lv_myo apical_extent mid_extent);
                  OImage (myo_band label_lv_myo mid_extent basal_extent) ])
    /\ (forall x y z, 0 <= z < size_z label_lv_myo ->
          img_pix (myo_apex label_lv_myo inf_limit_lv) x y z =
          if z <? inf_limit_lv then img_pix label_lv_myo x y z else 0)
    /\ (0 <= com_mv ->
        forall x y z, 0 <= z < size_z label_lv_myo ->
          img_pix (myo_band label_lv_myo inf_limit_lv apical_extent) x y z =
            (if (inf_limit_lv <=? z) && (z <? inf_limit_lv + dc)
             then img_pix label_lv_myo x y z else 0)
          /\ img_pix (myo_band label_lv_myo apical_extent mid_extent) x y z =
            (if (inf_limit_lv + dc <=? z) && (z <? inf_limit_lv + 2 * dc)
             then img_pix label_lv_myo x y z else 0)
          /\ img_pix (myo_band label_lv_myo mid_extent basal_extent) x y z =
            (if (inf_limit_lv + 2 * dc <=? z) && (z <? com_mv)
             then img_pix label_lv_myo x y z else 0))
    (* the three slice loops, with which the run goes on *)
    /\ (forall z, In z (py_range inf_limit_lv apical_extent) <->
                  inf_limit_lv <= z < inf_limit_lv + dc)
    /\ (forall z, In z (py_range apical_extent mid_extent) <->
                  inf_limit_lv + dc <= z < inf_limit_lv + 2 * dc)
    /\ (forall z, In z (py_range mid_extent basal_extent) <->
                  inf_limit_lv + 2 * dc <= z < com_mv)
    /\ generate_left_ventricle_segments cfg contours h =
       (let* theta_0 := basal_reference_angle cfg working_contours mid_extent in
        let* theta_0_apical :=
          apical_reference_angle cfg working_contours inf_limit_lv apical_extent in
        let* _ := angular_segmenter cfg working_contours label_lv_myo (length h6)
                    inf_limit_lv apical_extent mid_extent basal_extent
                    theta_0 theta_0_apical in
        let* _ := for_each (py_range 0 17)
                    (reproject_segment cfg contours working_contours output_contours
                       (GetInverse (CompositeTransform overall_transform_list))
                       (mm_to_voxels (hole_fill_mm cfg) heart) cb_index) in
        ret output_contours)
         (h6 ++ [ OImage (myo_apex label_lv_myo inf_limit_lv);
                  OImage (myo_band label_lv_myo inf_limit_lv apical_extent);
                  OImage (myo_band label_lv_myo apical_extent mid_extent);
                  OImage (myo_band label_lv_myo mid_extent basal_extent) ])
    (* a run that returns has a third of at least one slice *)
    /\ (forall r h', generate_left_ventricle_segments cfg contours h = (inr r, h') ->
          r = output_contours
          /\ 3 <= com_mv - inf_limit_lv
          /\ dc = (com_mv - inf_limit_lv) / 3).
Proof.
  intros Hreach Hmyo Hlim Haxial.
  pose proof (read_only_run _ _ _ _ (read_only_extract_myocardium _ _ _) Hmyo) as ->.
  pose proof (read_only_run _ _ _ _ (read_only_long_axis_limits _ _ _) Hlim) as ->.
  pose proof (run_from_module_3 cfg contours h working_contours output_contours lv heart
                cb_size cb_index overall_transform_list h6 label_lv_inner label_lv_myo
                inf_limit_lv com_mv dc apical_extent mid_extent basal_extent
                Hreach Hmyo Hlim Haxial) as Hgoes.
  (* the myocardium *)
  unfold extract_myocardium in Hmyo.
  apply bind_inr in Hmyo as (lv_aligned & h9 & Hlv & Hmyo).
  pose proof (read_only_run _ _ _ _ (read_only_dict_get_image _ _) Hlv) as ->.
  apply bind_inr in Hmyo as (lv' & h10 & _ & Hmyo).
  apply ret_inr in Hmyo as [Hmyo _]. injection Hmyo as Hinner _.
  (* the limits *)
  unfold long_axis_limits in Hlim.
  apply bind_inr in Hlim as (region & h11 & Hregion & Hlim).
  apply lift_inr in Hregion as [Hregion ->].
  apply bind_inr in Hlim as (mv & h12 & Hmv & Hlim).
  pose proof (read_only_run _ _ _ _ (read_only_dict_get_image _ _) Hmv) as ->.
  apply bind_inr in Hlim as (com & h13 & Hcom & Hlim).
  apply lift_inr in Hcom as [Hcom ->].
  apply ret_inr in Hlim as [Hlim _]. injection Hlim as Hinf Hcom_mv.
  destruct region as [[[[[xstart ystart] zstart] xsize] ysize] zsize].
  destruct com as [[com_z com_y] com_x].
  cbn [region_zstart] in Hinf. cbn [fst] in Hcom_mv. subst com_z.
  assert (Hinf0 : 0 <= inf_limit_lv) by lia.
  unfold axial_limits in Haxial. injection Haxial as Hdc Hae Hme Hbe.
  assert (Hquot : dc = Z.quot (com_mv - inf_limit_lv) 3) by (symmetry; exact Hdc).
  assert (Hfloor : 0 <= com_mv - inf_limit_lv -> dc = (com_mv - inf_limit_lv) / 3).
  { intros Hnn. rewrite <- Hdc. apply int_div3_floor. exact Hnn. }
  assert (Hneg : com_mv - inf_limit_lv < 0 -> dc = - ((inf_limit_lv - com_mv) / 3)).
  { intros Hlt. rewrite <- Hdc, (int_div3_neg _ Hlt). do 2 f_equal. lia. }
  exists lv_aligned, mv, xstart, ystart, zstart, xsize, ysize, zsize, com_y, com_x.
  split; [reflexivity|]. split; [reflexivity|].
  split; [exact Hlv|]. split; [symmetry; exact Hinner|].
  split; [exact Hregion|]. split; [symmetry; exact Hinf|].
  split; [exact Hmv|]. split; [exact Hcom|].
  split; [exact Hquot|]. split; [exact Hfloor|]. split; [exact Hneg|].
  split; [rewrite <- Hae, Hdc; reflexivity|].
  split; [rewrite <- Hme, Hdc; reflexivity|].
  split; [symmetry; exact Hbe|].
  split; [apply cut_myocardium_store|].
  split; [intros x y z Hz; apply myo_apex_pix; assumption|].
  split.
  { intros Hcom0 x y z Hz.
    destruct (int_div3_bounds inf_limit_lv com_mv Hinf0 Hcom0) as [Hb1 Hb2].
    rewrite Hdc in Hb1, Hb2.
    subst apical_extent mid_extent basal_extent. rewrite Hdc.
    rewrite !myo_band_pix by lia. repeat split; reflexivity. }
  split; [intros z; rewrite In_py_range; lia|].
  split; [intros z; rewrite In_py_range; lia|].
  split; [intros z; rewrite In_py_range; lia|].
  split; [exact Hgoes|].
  intros r h' Hrun. rewrite Hgoes in Hrun.
  apply bind_inr in Hrun as (theta_0 & h14 & Hbasal & Hrun).
  apply bind_inr in Hrun as (theta_0_apical & h15 & Hapical & Hrun).
  apply bind_inr in Hrun as (u1 & h16 & _ & Hrun).
  apply bind_inr in Hrun as (u2 & h17 & _ & Hrun).
  apply ret_inr in Hrun as [Hr _].
  pose proof (apical_reference_angle_needs_slices _ _ _ _ _ _ _ Hapical) as Hslices.
  assert (Hpos : 0 < int_div3 (com_mv - inf_limit_lv)) by lia.
  pose proof (int_div3_pos _ Hpos) as Hext.
  split; [symmetry; exact Hr|]. split; [exact Hext|]. apply Hfloor. lia.
Qed.

Lemma generate_left_ventricle_segments_returns :
  fst (generate_left_ventricle_segments (tk := grid_toolkit) no_refinement_config
         0%nat toy_input) = inr 12%nat.
Proof. vm_compute. reflexivity. Qed.

Lemma run_read_only {A} (m : M A) (h : heap) a :
  read_only m -> fst (m h) = inr a -> m h = (inr a, h).
Proof.
  intros Hro H. rewrite <- (Hro h) at 2. apply run_fst. exact H.
Qed.

(** The small input gets to Module 3, with the region of the eroded left
    ventricle starting at slice 0 and the mitral valve at slice 6. *)
Lemma toy_reaches_module_3 :
  exists cb_size cb_index overall_transform_list h6 myo,
    run_reaches_module_3 (tk := grid_toolkit) no_refinement_config 0%nat toy_input
      11%nat 12%nat tube tube cb_size cb_index overall_transform_list h6
    /\ extract_myocardium (tk := grid_toolkit) no_refinement_config 11%nat
         (mm_to_voxels (myocardium_thickness_mm no_refinement_config) tube) h6
       = (inr myo, h6)
    /\ long_axis_limits (tk := grid_toolkit) no_refinement_config 11%nat (fst myo) h6
       = (inr (0, 6), h6).
Proof.
  do 5 eexists. split; [|split].
  - do 3 eexists.
    split; [reflexivity|]. split; [reflexivity|]. split; [reflexivity|].
    split; [reflexivity|]. split; [reflexivity|]. split; [reflexivity|].
    apply (run_result _ _ []). eexists. reflexivity.
  - apply run_read_only; [apply read_only_extract_myocardium | reflexivity].
  - apply run_read_only; [apply read_only_long_axis_limits | reflexivity].
Qed.

(** With the mitral valve below the eroded left ventricle the run gets to
    Module 3 as well, with a negative extent. *)
Lemma low_valve_reaches_module_3 :
  exists cb_size cb_index overall_transform_list h6 myo,
    run_reaches_module_3 (tk := low_valve_toolkit) no_refinement_config 0%nat toy_input
      11%nat 12%nat tube tube cb_size cb_index overall_transform_list h6
    /\ extract_myocardium (tk := low_valve_toolkit) no_refinement_config 11%nat
         (mm_to_voxels (myocardium_thickness_mm no_refinement_config) tube) h6
       = (inr myo, h6)
    /\ long_axis_limits (tk := low_valve_toolkit) no_refinement_config 11%nat (fst myo) h6
       = (inr (11, 3), h6).
Proof.
  do 5 eexists. split; [|split].
  - do 3 eexists.
    split; [reflexivity|]. split; [reflexivity|]. split; [reflexivity|].
    split; [reflexivity|]. split; [reflexivity|]. split; [reflexivity|].
    apply (run_result _ _ []). eexists. reflexivity.
  - apply run_read_only; [apply read_only_extract_myocardium | reflexivity].
  - apply run_read_only; [apply read_only_long_axis_limits | reflexivity].
Qed.

Lemma low_valve_run_raises :
  fst (generate_left_ventricle_segments (tk := low_valve_toolkit) no_refinement_config
         0%nat toy_input) = inl IndexError.
Proof. vm_compute. reflexivity. Qed.

Lemma axial_bands_are_thirds_witness :
  axial_limits 0 6 = (2, 2, 4, 6)
  /\ 2 = Z.quot (6 - 0) 3
  /\ 2 = (6 - 0) / 3
  /\ (forall z, In z (py_range 0 2) <-> 0 <= z < 0 + 2)
  /\ (forall z, In z (py_range 2 4) <-> 0 + 2 <= z < 0 + 2 * 2)
  /\ (forall z, In z (py_range 4 6) <-> 0 + 2 * 2 <= z < 6)
  /\ axial_limits 11 3 = (-2, 9, 7, 3)
  /\ -2 = Z.quot (3 - 11) 3
  /\ -2 = - ((11 - 3) / 3)
  /\ (3 - 11) / 3 = -3
  /\ fst (generate_left_ventricle_segments (tk := low_valve_toolkit) no_refinement_config
            0%nat toy_input) = inl IndexError.
Proof.
  destruct toy_reaches_module_3
    as (cb_size & cb_index & overall_transform_list & h6 & [label_lv_inner label_lv_myo]
        & Hreach & Hmyo & Hlim).
  destruct (axial_bands_are_thirds (tk := grid_toolkit) no_refinement_config 0%nat
              toy_input 11%nat 12%nat tube tube cb_size cb_index overall_transform_list
              h6 label_lv_inner label_lv_myo h6 0 6 h6 2 2 4 6
              Hreach Hmyo Hlim eq_refl)
    as (lv_aligned & mv & xstart & ystart & zstart & xsize & ysize & zsize & com_y & com_x
        & _ & _ & _ & _ & _ & _ & _ & _ & Hquot & Hfloor & _ & _ & _ & _ & _ & _ & _
        & Hr1 & Hr2 & Hr3 & _).
  destruct low_valve_reaches_module_3
    as (cb_size' & cb_index' & overall_transform_list' & h6' & [label_lv_inner' label_lv_myo']
        & Hreach' & Hmyo' & Hlim').
  destruct (axial_bands_are_thirds (tk := low_valve_toolkit) no_refinement_config 0%nat
              toy_input 11%nat 12%nat tube tube cb_size' cb_index' overall_transform_list'
              h6' label_lv_inner' label_lv_myo' h6' 11 3 h6' (-2) 9 7 3
              Hreach' Hmyo' Hlim' eq_refl)
    as (lv_aligned' & mv' & xstart' & ystart' & zstart' & xsize' & ysize' & zsize'
        & com_y' & com_x'
        & _ & _ & _ & _ & _ & _ & _ & _ & Hquot' & _ & Hneg' & _).
  split; [reflexivity|]. split; [exact Hquot|].
  split; [apply Hfloor; discriminate|].
  split; [exact Hr1|]. split; [exact Hr2|]. split; [exact Hr3|].
  split; [reflexivity|]. split; [exact Hquot'|].
  split; [apply Hneg'; reflexivity|].
  split; [reflexivity|]. exact low_valve_run_raises.
Defined.

(** ** The small input, evaluated *)

Lemma on_grid_true z : 0 <= z < 12 -> on_grid z = true.
Proof.
  intros H. unfold on_grid. apply andb_true_iff. split; [apply Z.leb_le | apply Z.ltb_lt]; lia.
Qed.

Lemma slice_of_tube z : 0 <= z < 12 -> slice_of tube z = inr (tube_slice z).
Proof.
  intros H. unfold slice_of, py_index. change (size_z tube) with 12.
  replace ((0 <=? z) && (z <? 12)) with true; [reflexivity|].
  symmetry. apply andb_true_iff. split; [apply Z.leb_le | apply Z.ltb_lt]; lia.
Qed.

Lemma np_where2_tube z :
  0 <= z < 12 -> np_where2 (tube_slice z) = [(1, 2); (2, 1); (2, 3); (3, 2)].
Proof.
  intros H. unfold np_where2, tube_slice, tube. cbn [sl_size sl_pix img_pix fst snd].
  rewrite (on_grid_true z H). reflexivity.
Qed.

Lemma centroid_tube z : 0 <= z < 12 -> centroid_slice (tube_slice z) = inr (2, 2)%R.
Proof.
  intros H. unfold centroid_slice. rewrite (np_where2_tube z H).
  unfold np_mean, Rsum. cbn [map fold_right length fst snd INR].
  f_equal. f_equal; field.
Qed.

Lemma relative_angle_tube_left_zero : relative_angle 2 2 0 (2, 1)%Z = PI.
Proof.
  pose proof PI_RGT_0. unfold relative_angle. cbn [fst snd].
  replace (2 - 2)%R with 0%R by lra. rewrite arctan2_neg_x_axis by lra.
  rewrite add_2pi_if_negative_neg; lra.
Qed.

Lemma relative_angle_tube_left_low :
  relative_angle 2 2 (3 * PI / 2) (2, 1)%Z = (- (PI / 2))%R.
Proof.
  pose proof PI_RGT_0. unfold relative_angle. cbn [fst snd].
  replace (2 - 2)%R with 0%R by lra. rewrite arctan2_neg_x_axis by lra.
  rewrite add_2pi_if_negative_neg; lra.
Qed.

(** The per-slice minima of the small input, for a right ventricle of one
    voxel (x, y) per slice. *)
Lemma rv_insertion_angle_toy rv z e :
  0 <= z < 12 ->
  array_min_R (rv_angles (2, 2)%R (np_where3 rv) z) = inr e ->
  rv_insertion_angle (tk := grid_toolkit) toy_config 0%nat (np_where3 rv) z (toy_store rv) =
  (inr e, toy_store rv).
Proof.
  intros Hz Hmin. unfold rv_insertion_angle.
  rewrite (bind_ok _ _ _ _ _
             (dict_get_image_ok (toy_store rv) 0%nat toy_items
                (label_left_ventricle toy_config) 2%nat tube eq_refl eq_refl eq_refl)).
  rewrite (slice_of_tube z Hz). cbn [lift]. unfold bind at 1. cbn [ret].
  change (get_com_slice (tube_slice z)) with (centroid_slice (tube_slice z)).
  rewrite (centroid_tube z Hz). cbn [lift]. unfold bind at 1. cbn [ret].
  rewrite Hmin. reflexivity.
Qed.

Lemma collect_ok {A B} (l : list A) (body : A -> M B) (h : heap) bs :
  Forall2 (fun a b => body a h = (inr b, h)) l bs ->
  collect l body h = (inr bs, h).
Proof.
  induction 1 as [|a b l bs Hab Hrest IH]; cbn [collect]; [reflexivity|].
  rewrite (bind_ok _ _ _ _ _ Hab). rewrite (bind_ok _ _ _ _ _ IH). reflexivity.
Qed.

Lemma basal_reference_angle_toy rv e :
  (forall z, 4 <= z < 9 -> array_min_R (rv_angles (2, 2)%R (np_where3 rv) z) = inr e) ->
  basal_reference_angle (tk := grid_toolkit) toy_config 0%nat 4 (toy_store rv) =
  (inr e, toy_store rv).
Proof.
  intros Hmin. unfold basal_reference_angle.
  rewrite (bind_ok _ _ _ _ _
             (dict_get_image_ok (toy_store rv) 0%nat toy_items
                (label_right_ventricle toy_config) 3%nat rv eq_refl eq_refl eq_refl)).
  rewrite (py_range_five 4).
  assert (Hc : collect [4; 4 + 1; 4 + 2; 4 + 3; 4 + 4]
                 (rv_insertion_angle (tk := grid_toolkit) toy_config 0%nat (np_where3 rv))
                 (toy_store rv) = (inr [e; e; e; e; e], toy_store rv)).
  { apply collect_ok.
    repeat constructor; apply rv_insertion_angle_toy; try lia; apply Hmin; lia. }
  rewrite (bind_ok _ _ _ _ _ Hc).
  cbn [ret]. rewrite np_median_constant. reflexivity.
Qed.

Lemma rv_angles_side z :
  0 <= z < 12 ->
  array_min_R (rv_angles (2, 2)%R (np_where3 rv_side) z) = inr 0%R.
Proof.
  intros Hz.
  assert (E : List.filter (fun p : Z * Z * Z => fst (fst p) =? z) (np_where3 rv_side) = [(z, 2, 4)]).
  { assert (Hc : z = 0 \/ z = 1 \/ z = 2 \/ z = 3 \/ z = 4 \/ z = 5 \/ z = 6 \/ z = 7
                 \/ z = 8 \/ z = 9 \/ z = 10 \/ z = 11) by lia.
    repeat (destruct Hc as [-> | Hc]; [reflexivity|]). subst z. reflexivity. }
  unfold rv_angles. rewrite E. cbn [map fst snd array_min_R Rmin_list].
  replace (2 - 2)%R with 0%R by lra.
  rewrite arctan2_pos_x_axis by lra. rewrite add_2pi_if_negative_nonneg by lra. reflexivity.
Qed.

Lemma rv_angles_below z :
  0 <= z < 12 ->
  array_min_R (rv_angles (2, 2)%R (np_where3 rv_below) z) = inr (3 * PI / 2)%R.
Proof.
  intros Hz. pose proof PI_RGT_0.
  assert (E : List.filter (fun p : Z * Z * Z => fst (fst p) =? z) (np_where3 rv_below) = [(z, 4, 2)]).
  { assert (Hc : z = 0 \/ z = 1 \/ z = 2 \/ z = 3 \/ z = 4 \/ z = 5 \/ z = 6 \/ z = 7
                 \/ z = 8 \/ z = 9 \/ z = 10 \/ z = 11) by lia.
    repeat (destruct Hc as [-> | Hc]; [reflexivity|]). subst z. reflexivity. }
  unfold rv_angles. rewrite E. cbn [map fst snd array_min_R Rmin_list].
  replace (2 - 2)%R with 0%R by lra.
  rewrite arctan2_neg_y_axis by lra. rewrite add_2pi_if_negative_neg by lra.
  f_equal. lra.
Qed.

(** On the small input with the right ventricle on the positive y side,
    [theta_0] is 3π/2. *)
Lemma theta_0_of_rv_below :
  basal_reference_angle (tk := grid_toolkit) toy_config 0%nat 4 (toy_store rv_below) =
  (inr (3 * PI / 2)%R, toy_store rv_below).
Proof. apply basal_reference_angle_toy. intros z Hz. apply rv_angles_below. lia. Qed.

Lemma theta_0_of_rv_side :
  basal_reference_angle (tk := grid_toolkit) toy_config 0%nat 4 (toy_store rv_side) =
  (inr 0%R, toy_store rv_side).
Proof. apply basal_reference_angle_toy. intros z Hz. apply rv_angles_side. lia. Qed.

(** The slice loops run on the small input. *)
Lemma angular_segmenter_toy rv theta_0 theta_0_apical :
  angular_segmenter (tk := grid_toolkit) toy_config 0%nat tube 6%nat 0 2 4 6
    theta_0 theta_0_apical (toy_store rv) =
  (inr tt, snd (angular_segmenter (tk := grid_toolkit) toy_config 0%nat tube 6%nat 0 2 4 6
                  theta_0 theta_0_apical (toy_store rv))).
Proof. apply run_fst. reflexivity. Qed.

(** The pixel of the tube's voxel (1, 2) in the slice written for a window. *)
Lemma band_pixel_tube_left reference w z :
  0 <= z < 12 ->
  band_pixel (tk := grid_toolkit) tube reference w z 1 2 =
  if selects w (relative_angle 2 2 reference (2, 1)) then 1 else 0.
Proof.
  intros Hz.
  rewrite (band_pixel_at (tk := grid_toolkit) tube reference w z (tube_slice z) (2, 2)%R 1 2
             (slice_of_tube z Hz) (centroid_tube z Hz)).
  destruct (window_slice_pix (tube_slice z) (2, 2)%R reference w 1 2) as [Hyes Hno].
  cbn [fst snd] in Hyes, Hno.
  destruct (selects w (relative_angle 2 2 reference (2, 1))) eqn:E.
  - apply Hyes. split; [|reflexivity]. rewrite (np_where2_tube z Hz). cbn; auto.
  - apply Hno. intros [_ H]. discriminate.
Qed.

(** C4, at the failing input (the tube with the right ventricle on the
    positive y side, for which [theta_0] is 3π/2): the voxel (1, 2) of a mid
    or basal slice, left of the centre (2, 2), gets the relative angle -π/2
    after the one addition of 2π, outside [0, 2π). *)
Theorem relative_angle_left_negative :
  basal_reference_angle (tk := grid_toolkit) toy_config 0%nat 4 (toy_store rv_below) =
    (inr (3 * PI / 2)%R, toy_store rv_below)
  /\ get_com_slice (Toolkit := grid_toolkit) (tube_slice 4) = inr (2, 2)%R
  /\ In (2, 1) (np_where2 (tube_slice 4))
  /\ relative_angle 2 2 (3 * PI / 2) (2, 1)%Z = (- (PI / 2))%R
  /\ ~ (0 <= relative_angle 2 2 (3 * PI / 2) (2, 1)%Z < 2 * PI)%R.
Proof.
  pose proof PI_RGT_0.
  split; [apply theta_0_of_rv_below|].
  split; [apply centroid_tube; lia|].
  split; [rewrite np_where2_tube by lia; cbn; auto|].
  split; [apply relative_angle_tube_left_low|].
  rewrite relative_angle_tube_left_low. lra.
Qed.

(** C3, at the same failing input: the voxel (1, 2, 4) is a myocardial voxel
    of the basal band [4, 6), and no segment image holds it. *)
Theorem basal_voxel_in_no_segment (theta_0_apical : R) :
  exists h' S,
    angular_segmenter (tk := grid_toolkit) toy_config 0%nat tube 6%nat 0 2 4 6
      (3 * PI / 2) theta_0_apical (toy_store rv_below) = (inr tt, h')
    /\ seg_store h' 0%nat S
    /\ img_pix tube 1 2 4 = 1
    /\ forall k, 1 <= k <= 17 -> img_pix (S k) 1 2 4 = 0.
Proof.
  pose proof PI_RGT_0.
  pose proof (angular_segmenter_toy rv_below (3 * PI / 2) theta_0_apical) as Hrun.
  destruct (angular_segmenter_spec (tk := grid_toolkit) toy_config 0%nat tube 6%nat
              (myo_apex tube 0) 0 2 4 6 (3 * PI / 2) theta_0_apical (toy_store rv_below)
              tt _ ltac:(lia) ltac:(lia) ltac:(lia) eq_refl Hrun)
    as (S & heart & Hst & _ & H17 & _ & [_ Ha] & [_ Hm] & [_ Hb]).
  eexists. exists S. split; [exact Hrun|]. split; [exact Hst|]. split; [reflexivity|].
  intros k Hk.
  assert (Hcase : k = 17 \/ (13 <= k <= 16) \/ (7 <= k <= 12) \/ (1 <= k <= 6)) by lia.
  destruct Hcase as [-> | [Hk' | [Hk' | Hk']]].
  - rewrite H17. reflexivity.
  - destruct (window_of_segment apical_windows k) as (w & Hw & <-).
    { cbn [band_segments map apical_windows w_seg In]. lia. }
    rewrite (Ha w Hw). reflexivity.
  - destruct (window_of_segment mid_windows k) as (w & Hw & <-).
    { cbn [band_segments map mid_windows w_seg In]. lia. }
    rewrite (Hm w Hw). reflexivity.
  - destruct (window_of_segment basal_windows k) as (w & Hw & <-).
    { cbn [band_segments map basal_windows w_seg In]. lia. }
    rewrite (Hb w Hw). cbn [Z.leb Z.ltb Z.compare Pos.compare Pos.compare_cont andb].
    rewrite band_pixel_tube_left by lia.
    rewrite relative_angle_tube_left_low.
    rewrite (negative_angle_unselected basal_windows w) by (auto; lra).
    reflexivity.
Qed.

(** C1 fails as stated: on the tube with the right ventricle on the positive
    x side ([theta_0] is 0), the voxel (1, 2, 2) of the mid band has the
    relative angle π and is positive in the volumes of segments 10 and 11
    before hole filling. *)
Lemma segments_10_and_11_share_a_voxel :
  basal_reference_angle (tk := grid_toolkit) toy_config 0%nat 4 (toy_store rv_side) =
    (inr 0%R, toy_store rv_side)
  /\ exists h' S,
       angular_segmenter (tk := grid_toolkit) toy_config 0%nat tube 6%nat 0 2 4 6
         0 0 (toy_store rv_side) = (inr tt, h')
       /\ seg_store h' 0%nat S
       /\ 0 < img_pix (rotate_back (tk := grid_toolkit) (S 10) (InverseOfComposite [])) 1 2 2
       /\ 0 < img_pix (rotate_back (tk := grid_toolkit) (S 11) (InverseOfComposite [])) 1 2 2.
Proof.
  pose proof PI_RGT_0.
  split; [apply theta_0_of_rv_side|].
  pose proof (angular_segmenter_toy rv_side 0 0) as Hrun.
  destruct (angular_segmenter_spec (tk := grid_toolkit) toy_config 0%nat tube 6%nat
              (myo_apex tube 0) 0 2 4 6 0 0 (toy_store rv_side)
              tt _ ltac:(lia) ltac:(lia) ltac:(lia) eq_refl Hrun)
    as (S & heart & Hst & _ & _ & _ & _ & [_ Hm] & _).
  eexists. exists S. split; [exact Hrun|]. split; [exact Hst|].
  change (rotate_back (tk := grid_toolkit) (S 10) (InverseOfComposite [])) with (S 10).
  change (rotate_back (tk := grid_toolkit) (S 11) (InverseOfComposite [])) with (S 11).
  pose proof (Hm (mkWindow 10 (2 * PI / 3) (3 * PI / 3) false)
                ltac:(cbn [In mid_windows]; auto 10) 1 2 2) as H10.
  pose proof (Hm (mkWindow 11 (3 * PI / 3) (4 * PI / 3) false)
                ltac:(cbn [In mid_windows]; auto 10) 1 2 2) as H11.
  cbn [w_seg Z.leb Z.ltb Z.compare Pos.compare Pos.compare_cont andb] in H10, H11.
  rewrite band_pixel_tube_left in H10, H11 by lia.
  rewrite relative_angle_tube_left_zero in H10, H11.
  unfold selects, in_segment_condition in H10, H11. cbn [w_cw w_min w_max] in H10, H11.
  rewrite !Rleb_true in H10, H11 by lra. cbn [andb] in H10, H11.
  rewrite H10, H11. lia.
Qed.

Lemma segments_share_only_window_ends_witness :
  exists S,
    seg_store (snd (angular_segmenter (tk := grid_toolkit) toy_config 0%nat tube 6%nat
                      0 2 4 6 0 0 (toy_store rv_side))) 0%nat S
    /\ forall x y z,
         0 < img_pix (rotate_back (tk := grid_toolkit) (S 10) (InverseOfComposite [])) x y z ->
         0 < img_pix (rotate_back (tk := grid_toolkit) (S 11) (InverseOfComposite [])) x y z ->
         exists com,
           get_com_slice (Toolkit := grid_toolkit) (tube_slice z) = inr com
           /\ relative_angle (fst com) (snd com) 0 (y, x) = (3 * PI / 3)%R.
Proof.
  destruct (segments_share_only_window_ends (tk := grid_toolkit) toy_config 0%nat tube 6%nat
              0 2 4 6 0 0 (toy_store rv_side) tube tt _
              ltac:(lia) ltac:(lia) eq_refl eq_refl eq_refl
              (angular_segmenter_toy rv_side 0 0)) as (S & Hst & Hov).
  exists S. split; [exact Hst|].
  intros x y z Hp10 Hp11.
  destruct (Hov (InverseOfComposite []) 10 11 x y z ltac:(lia) ltac:(lia) ltac:(lia) Hp10 Hp11)
    as (band & reference & a & b & wi & wj & x' & y' & z' & sl & com
        & Hband & Hwi & Hwj & Hsi & Hsj & Hsrc & Hz & Hsl & Hcom & Hnz & Hei & Hej).
  cbn [resample_source grid_toolkit] in Hsrc. inversion Hsrc; subst x' y' z'.
  pose proof PI_RGT_0.
  destruct Hband as [E | [E | E]]; inversion E; subst band reference a b;
    window_cases Hwi; cbn [w_seg] in Hsi; try discriminate;
    window_cases Hwj; cbn [w_seg] in Hsj; try discriminate.
  assert (Hz12 : 0 <= z < 12) by lia.
  rewrite (slice_of_tube z Hz12) in Hsl. inversion Hsl; subst sl.
  exists com. split; [exact Hcom|].
  unfold endpoint_of in Hei. cbn [w_min w_max] in Hei.
  unfold endpoint_of in Hej. cbn [w_min w_max] in Hej.
  apply orb_true_iff in Hei, Hej.
  unfold Reqb in Hei, Hej.
  repeat match goal with
         | H : context [Req_dec_T ?a ?b] |- _ => destruct (Req_dec_T a b)
         end; try lra; destruct Hei, Hej; discriminate.
Defined.

(** C5 fails as stated: a run on a dictionary without the whole-heart mask
    raises [KeyError], and an iteration of the loop on a left ventricle
    without voxels raises [ValueError]; the module has no exception class
    named MissingStructureError or EmptyMaskError. *)
Lemma absent_heart_raises_key_error :
  dict_lookup (label_heart toy_config)
    [ (KStr "LEFTVENTRICLE", 1%nat); (KStr "RIGHTVENTRICLE", 2%nat);
      (KStr "LEFTATRIUM", 3%nat); (KStr "MITRALVALVE", 4%nat) ] = None
  /\ fst (generate_left_ventricle_segments (tk := grid_toolkit) toy_config 0%nat
            heartless_store) = inl KeyError
  /\ KeyError <> OtherError "MissingStructureError"
  /\ np_where3 (img_scale 0 tube) = []
  /\ fst (refine_once (tk := grid_toolkit) toy_config 0%nat 0%nat empty_lv_store) =
     inl ValueError
  /\ ValueError <> OtherError "EmptyMaskError".
Proof.
  split; [reflexivity|]. split; [reflexivity|]. split; [discriminate|].
  split; [reflexivity|]. split; [reflexivity | discriminate].
Qed.

Lemma toy_items_are_images (h : heap) i1 i2 i3 i4 i5 :
  h = [ODict toy_items; OImage i1; OImage i2; OImage i3; OImage i4; OImage i5] ->
  forall k l, In (k, l) toy_items -> exists img, h !! l = Some (OImage img).
Proof.
  intros -> k l Hin. cbn [In toy_items] in Hin.
  repeat (destruct Hin as [E | Hin]; [inversion E; subst; eexists; reflexivity|]).
  contradiction.
Qed.

(** The small input under the tilted toolkit: the loop is entered. *)
Lemma tilted_guard n : n < 10 -> loop_guard toy_config n 1 = true.
Proof.
  intros Hn. unfold loop_guard. apply andb_true_iff. split.
  - apply Z.ltb_lt. exact Hn.
  - apply Rltb_true. rewrite Rabs_R1. unfold optimiser_tol_radians.
    cbn [optimiser_tol_degrees toy_config]. pose proof PI_4. lra.
Qed.

Lemma empty_lv_reaches_first_pass :
  exists overall_transform_list h1,
    run_reaches_pass (tk := tilted_toolkit) toy_config 0%nat empty_lv_store
      11%nat 0 overall_transform_list 1 h1
    /\ dict_get_image 11%nat (label_left_ventricle toy_config) h1
       = (inr (img_scale 0 tube), h1).
Proof.
  do 2 eexists. split.
  - do 10 eexists.
    split; [reflexivity|]. split; [reflexivity|]. split; [reflexivity|].
    split; [reflexivity|]. split; [reflexivity|]. split; [reflexivity|].
    split; [apply (run_result _ _ (mkVersor (0, 0, 0) (0, 0, 0) 0)%R); eexists; reflexivity|].
    apply loop_reaches_here.
  - reflexivity.
Qed.

Lemma empty_mv_reaches_first_pass :
  exists overall_transform_list h1,
    run_reaches_pass (tk := tilted_toolkit) toy_config 0%nat empty_mv_store
      11%nat 0 overall_transform_list 1 h1
    /\ dict_get_image 11%nat (label_left_ventricle toy_config) h1 = (inr tube, h1)
    /\ dict_get_image 11%nat (label_mitral_valve toy_config) h1
       = (inr (img_scale 0 tube), h1).
Proof.
  do 2 eexists. split; [|split].
  - do 10 eexists.
    split; [reflexivity|]. split; [reflexivity|]. split; [reflexivity|].
    split; [reflexivity|]. split; [reflexivity|]. split; [reflexivity|].
    split; [apply (run_result _ _ (mkVersor (0, 0, 0) (0, 0, 0) 0)%R); eexists; reflexivity|].
    apply loop_reaches_here.
  - reflexivity.
  - reflexivity.
Qed.

Lemma grid_helpers_fail_as_specified : helpers_fail_as_specified (tk := grid_toolkit).
Proof.
  split.
  - intros img expansion_mm Hempty. cbn [label_to_roi grid_toolkit].
    unfold whole_grid_roi. rewrite Hempty. reflexivity.
  - intros img Hempty. cbn [get_com_real grid_toolkit].
    unfold origin_com. rewrite Hempty. reflexivity.
Qed.

Lemma tilted_helpers_fail_as_specified : helpers_fail_as_specified (tk := tilted_toolkit).
Proof.
  split.
  - intros img expansion_mm Hempty. cbn [label_to_roi tilted_toolkit].
    unfold whole_grid_roi. rewrite Hempty. reflexivity.
  - intros img Hempty. cbn [get_com_real tilted_toolkit].
    unfold origin_com. rewrite Hempty. reflexivity.
Qed.

Lemma failing_inputs_raise_witness :
  fst (generate_left_ventricle_segments (tk := grid_toolkit) toy_config 0%nat
         heartless_store) = inl KeyError
  /\ fst (generate_left_ventricle_segments (tk := grid_toolkit) toy_config 0%nat
            empty_heart_store) = inl (OtherError "MissingStructureError")
  /\ refine_once (tk := grid_toolkit) toy_config 0%nat 0%nat empty_lv_store =
     (inl ValueError, empty_lv_store)
  /\ refine_once (tk := grid_toolkit) toy_config 0%nat 0%nat empty_mv_store =
     (inl (OtherError "EmptyMaskError"), empty_mv_store)
  /\ (exists h', refinement_loop (tk := tilted_toolkit) toy_config 10 0%nat 0%nat
                   0 [] 1 empty_lv_store = (inl ValueError, h'))
  /\ (exists h5 h', axis_aligner (tk := tilted_toolkit) toy_config 0%nat 11%nat h5
                      = (inl ValueError, h'))
  /\ fst (generate_left_ventricle_segments (tk := tilted_toolkit) toy_config 0%nat
            empty_lv_store) = inl ValueError
  /\ fst (generate_left_ventricle_segments (tk := tilted_toolkit) toy_config 0%nat
            empty_mv_store) = inl (OtherError "EmptyMaskError")
  /\ helpers_fail_as_specified (tk := grid_toolkit)
  /\ np_where3 (img_gt0 (img_scale 0 tube)) = []
  /\ fst (generate_left_ventricle_segments (tk := grid_toolkit) toy_config 0%nat
            empty_heart_store) = inl (OtherError "MissingStructureError")
  /\ helpers_fail_as_specified (tk := tilted_toolkit)
  /\ np_where3 (img_scale 0 tube) = []
  /\ fst (generate_left_ventricle_segments (tk := tilted_toolkit) toy_config 0%nat
            empty_mv_store) = inl (OtherError "EmptyMaskError").
Proof.
  pose proof (failing_inputs_raise (tk := grid_toolkit) toy_config 0%nat heartless_store
                _ eq_refl
                (fun k l Hin => ltac:(
                   cbn [In] in Hin;
                   repeat (destruct Hin as [E | Hin];
                           [inversion E; subst; eexists; reflexivity|]);
                   contradiction)))
    as (Habsent & _).
  pose proof (failing_inputs_raise (tk := grid_toolkit) toy_config 0%nat
                empty_heart_store toy_items eq_refl
                (toy_items_are_images _ _ _ _ _ _ eq_refl))
    as (_ & Hroi & _ & _ & _ & _ & _ & _ & Hspec_heart).
  pose proof (failing_inputs_raise (tk := grid_toolkit) toy_config 0%nat
                empty_lv_store toy_items eq_refl
                (toy_items_are_images _ _ _ _ _ _ eq_refl))
    as (_ & _ & Hlv_pass & _).
  pose proof (failing_inputs_raise (tk := grid_toolkit) toy_config 0%nat
                empty_mv_store toy_items eq_refl
                (toy_items_are_images _ _ _ _ _ _ eq_refl))
    as (_ & _ & _ & Hmv_pass & _).
  pose proof (failing_inputs_raise (tk := tilted_toolkit) toy_config 0%nat
                empty_lv_store toy_items eq_refl
                (toy_items_are_images _ _ _ _ _ _ eq_refl))
    as (_ & _ & Hlv_pass_tilted & _ & Hloop & Haligner & Hlv_run & _).
  pose proof (failing_inputs_raise (tk := tilted_toolkit) toy_config 0%nat
                empty_mv_store toy_items eq_refl
                (toy_items_are_images _ _ _ _ _ _ eq_refl))
    as (_ & _ & _ & _ & _ & _ & _ & Hmv_run & Hspec_mv).
  split; [exact (Habsent eq_refl)|].
  split; [exact (Hroi 2%nat 1%nat (img_scale 0 tube) _ eq_refl eq_refl eq_refl eq_refl)|].
  split; [exact (Hlv_pass 0%nat empty_lv_store (img_scale 0 tube) eq_refl eq_refl)|].
  split.
  { refine (Hmv_pass 0%nat empty_mv_store tube (img_scale 0 tube) _ eq_refl _ eq_refl eq_refl).
    discriminate. }
  split.
  { exists empty_lv_store.
    refine (Hloop 0%nat 0 [] 1%R empty_lv_store 0 [] 1%R empty_lv_store ValueError
              empty_lv_store 10%nat (loop_reaches_here _ _ _ _ _ _ _)
              (tilted_guard 0 (eq_refl : 0 < 10)) _ _).
    - exact (Hlv_pass_tilted 0%nat empty_lv_store (img_scale 0 tube) eq_refl eq_refl).
    - cbn. lia. }
  split.
  { destruct empty_lv_reaches_first_pass as (ts & h1 & Hreach & Hlv).
    destruct Hreach as (h0 & out & h2 & lv & heart & cb_size & cb_index & h5 & t & h7
                        & _ & _ & _ & _ & _ & _ & Hinit & Hreach).
    exists h5, h1.
    apply (Haligner 11%nat h5 t h7 0 ts 1%R h1 ValueError h1 Hinit Hreach
             (tilted_guard 0 (eq_refl : 0 < 10))).
    apply (Hlv_pass_tilted 11%nat h1 (img_scale 0 tube) Hlv eq_refl). }
  split.
  { destruct empty_lv_reaches_first_pass as (ts & h1 & Hreach & Hlv).
    rewrite (Hlv_run 11%nat 0 ts 1%R h1 (img_scale 0 tube) Hreach
               (tilted_guard 0 (eq_refl : 0 < 10)) Hlv eq_refl).
    reflexivity. }
  split.
  { destruct empty_mv_reaches_first_pass as (ts & h1 & Hreach & Hlv & Hmv).
    rewrite (Hmv_run 11%nat 0 ts 1%R h1 tube (img_scale 0 tube)
               (OtherError "EmptyMaskError") Hreach
               (tilted_guard 0 (eq_refl : 0 < 10)) Hlv ltac:(discriminate) Hmv eq_refl).
    reflexivity. }
  split; [exact grid_helpers_fail_as_specified|].
  split; [reflexivity|].
  split.
  { exact (proj1 (Hspec_heart grid_helpers_fail_as_specified)
             2%nat 1%nat (img_scale 0 tube) eq_refl eq_refl eq_refl eq_refl). }
  split; [exact tilted_helpers_fail_as_specified|].
  split; [reflexivity|].
  destruct empty_mv_reaches_first_pass as (ts & h1 & Hreach & Hlv & Hmv).
  rewrite (proj2 (Hspec_mv tilted_helpers_fail_as_specified)
             11%nat 0 ts 1%R h1 tube (img_scale 0 tube) Hreach
             (tilted_guard 0 (eq_refl : 0 < 10)) Hlv ltac:(discriminate) Hmv eq_refl).
  reflexivity.
Defined.


Lemma max_iter_zero_initial_alignment_only_witness :
  optimiser_max_iter no_refinement_config = 0
  /\ axis_aligner (tk := grid_toolkit) no_refinement_config 0%nat 0%nat (toy_store rv_side) =
     match initial_alignment (tk := grid_toolkit) no_refinement_config 0%nat 0%nat
             (toy_store rv_side) with
     | (inr t, h') => (inr [t], h')
     | (inl e, h') => (inl e, h')
     end.
Proof.
  split; [reflexivity|].
  exact (proj1 (proj2 (max_iter_zero_initial_alignment_only (tk := grid_toolkit)
                         no_refinement_config 0%nat 0%nat (toy_store rv_side) eq_refl))).
Defined.

Lemma initial_alignment_toy :
  exists t, fst (initial_alignment (tk := grid_toolkit) toy_config 0%nat 0%nat
                   (toy_store rv_side)) = inr t.
Proof. eexists. reflexivity. Qed.

Lemma initial_angle_within_tolerance_skips_loop_witness :
  0 < optimiser_max_iter toy_config
  /\ (Rabs (v_angle toy_initial_transform) <= optimiser_tol_radians toy_config)%R
  /\ axis_aligner (tk := grid_toolkit) toy_config 0%nat 0%nat (toy_store rv_side) =
     (inr [toy_initial_transform], snd toy_initial_run).
Proof.
  assert (Htol : (Rabs (v_angle toy_initial_transform) <= optimiser_tol_radians toy_config)%R).
  { change (v_angle toy_initial_transform) with 0%R. rewrite Rabs_R0.
    unfold optimiser_tol_radians. cbn [optimiser_tol_degrees toy_config].
    pose proof PI_RGT_0. lra. }
  split; [reflexivity|]. split; [exact Htol|].
  exact (proj2 (initial_angle_within_tolerance_skips_loop (tk := grid_toolkit) toy_config
                  0%nat 0%nat (toy_store rv_side) toy_initial_transform (snd toy_initial_run)
                  (run_result _ _ _ initial_alignment_toy) Htol)).
Defined.

Lemma inputs_never_mutated_witness :
  snd (generate_left_ventricle_segments (tk := grid_toolkit) no_refinement_config
         0%nat toy_input) !! 1%nat = Some (OImage tube).
Proof.
  exact (proj1 (inputs_never_mutated (tk := grid_toolkit) no_refinement_config 0%nat toy_input)
               1%nat (OImage tube) eq_refl).
Defined.

(** * Further properties of the code *)

(** ** What [extract] returns *)

(** X1 ([extract], lines 28-49): called, as the slice loops call it, on the
    positions of the non-zero pixels of the template, [extract] returns a
    slice with the size and the pixel type of the template whose pixel
    (x, y) is 1 where (x, y) lies on the grid, the template is non-zero
    there and the angle of the position satisfies the condition, and 0
    everywhere else. *)
Theorem extract_marks_selected_pixels
        (template_img : Slice) (angle_of : Z * Z -> R) (angle_min angle_max : R)
        (cw : bool) (x y : Z) :
  sl_size (extract template_img (map angle_of (np_where2 template_img)) angle_min angle_max
             (map snd (np_where2 template_img)) (map fst (np_where2 template_img)) cw)
  = sl_size template_img
  /\ sl_pixel_id (extract template_img (map angle_of (np_where2 template_img))
                    angle_min angle_max
                    (map snd (np_where2 template_img)) (map fst (np_where2 template_img)) cw)
     = sl_pixel_id template_img
  /\ sl_pix (extract template_img (map angle_of (np_where2 template_img)) angle_min angle_max
               (map snd (np_where2 template_img)) (map fst (np_where2 template_img)) cw) x y
     = if (0 <=? x) && (x <? fst (sl_size template_img))
          && (0 <=? y) && (y <? snd (sl_size template_img))
          && negb (sl_pix template_img x y =? 0)
          && in_segment_condition cw angle_min angle_max (angle_of (y, x))
       then 1 else 0.
Proof.
  split; [reflexivity|]. split; [reflexivity|].
  unfold extract. cbn [sl_pix]. rewrite selected_of_positions.
  destruct (existsb _ _) eqn:E.
  - apply existsb_same_pos in E. apply filter_In in E as [Hin Hsel].
    apply In_np_where2 in Hin as ((Hx1 & Hx2) & (Hy1 & Hy2) & Hp).
    apply Z.leb_le in Hx1, Hy1. apply Z.ltb_lt in Hx2, Hy2. apply Z.eqb_neq in Hp.
    rewrite Hx1, Hx2, Hy1, Hy2, Hp, Hsel. reflexivity.
  - destruct (_ && _) eqn:C; [|reflexivity].
    repeat (apply andb_true_iff in C as [C ?]).
    assert (Hin : In (y, x) (np_where2 template_img)).
    { apply In_np_where2.
      repeat match goal with
             | H : (_ <=? _) = true |- _ => apply Z.leb_le in H
             | H : (_ <? _) = true |- _ => apply Z.ltb_lt in H
             | H : negb _ = true |- _ => apply negb_true_iff in H; apply Z.eqb_neq in H
             end.
      split; [lia|]. split; [lia|]. assumption. }
    assert (Hf : In (y, x) (List.filter (fun p => in_segment_condition cw angle_min angle_max
                                                    (angle_of p)) (np_where2 template_img)))
      by (apply filter_In; split; assumption).
    apply (proj2 (existsb_same_pos _ _)) in Hf. congruence.
Qed.

(** ** Short long axes and the conversion of millimetres *)

Lemma int_div3_small extent : extent < 3 -> int_div3 extent <= 0.
Proof.
  intros H. unfold int_div3.
  destruct (Z_lt_le_dec extent 0) as [Hneg | Hnn].
  - apply Z.quot_le_upper_bound; lia.
  - rewrite Z.quot_small by lia. lia.
Qed.

(** X2 (lines 241-245 and 307-318): when fewer than three slices separate
    [inf_limit_lv] from [com_mv], [int(extent / 3)] is zero or negative and
    the apical band has no slice; [np.mean] of the empty lists is then a
    scalar, and the subscript [lv_com_apical[0]] raises [IndexError].  The
    store is left as it was. *)
Theorem short_long_axis_raises_index_error
        {tk : Toolkit} (cfg : Config) (wc : loc) (inf_limit_lv com_mv : Z)
        (dc apical_extent mid_extent basal_extent : Z) (h : heap) :
  com_mv - inf_limit_lv < 3 ->
  axial_limits inf_limit_lv com_mv = (dc, apical_extent, mid_extent, basal_extent) ->
  apical_reference_angle cfg wc inf_limit_lv apical_extent h = (inl IndexError, h).
Proof.
  intros Hshort Hlim. unfold axial_limits in Hlim. cbv zeta in Hlim.
  injection Hlim as Hdc Hap _ _.
  pose proof (int_div3_small _ Hshort) as Hle.
  unfold apical_reference_angle.
  rewrite py_range_empty by lia. reflexivity.
Qed.

Lemma short_long_axis_raises_index_error_witness :
  apical_reference_angle (tk := grid_toolkit) toy_config 0%nat 5 5 toy_input =
  (inl IndexError, toy_input).
Proof.
  apply (short_long_axis_raises_index_error (tk := grid_toolkit) toy_config 0%nat 5 7
           0 5 5 7 toy_input); [lia | reflexivity].
Defined.

Lemma py_int_floor r : (0 <= r)%R -> (IZR (py_int r) <= r < IZR (py_int r) + 1)%R.
Proof.
  intros H. unfold py_int. destruct (Rle_dec 0 r); [|contradiction].
  destruct (base_Int_part r). lra.
Qed.

Lemma py_int_nonneg r : (0 <= r)%R -> 0 <= py_int r.
Proof.
  intros H. pose proof (py_int_floor r H) as [_ Hlt].
  apply Z.lt_succ_r. apply lt_IZR. rewrite succ_IZR. lra.
Qed.

Lemma py_int_of_quotient mm s :
  (0 <= mm)%R -> (0 < s)%R ->
  0 <= py_int (mm / s)
  /\ (IZR (py_int (mm / s)) * s <= mm < (IZR (py_int (mm / s)) + 1) * s)%R.
Proof.
  intros Hmm Hs.
  assert (Hq : (0 <= mm / s)%R).
  { unfold Rdiv. apply Rmult_le_pos; [exact Hmm|]. left. apply Rinv_0_lt_compat, Hs. }
  split; [apply py_int_nonneg, Hq|].
  destruct (py_int_floor _ Hq) as [Hlo Hhi].
  assert (E : (mm = mm / s * s)%R) by (field; lra).
  split.
  - rewrite E at 2. apply Rmult_le_compat_r; lra.
  - rewrite E at 1. apply Rmult_lt_compat_r; lra.
Qed.

(** X3 (lines 100-104): the radii [erode_img] and [hole_fill_img] are the
    distance in millimetres divided by the spacing of each axis and
    truncated: for a distance that is not negative, the radius is a whole
    number of voxels that is not negative, it spans at most the distance,
    and one voxel more would span more than the distance. *)
Theorem mm_to_voxels_truncates
        (mm : R) (img : Image) (sx sy sz : R) :
  g_spacing (img_geom img) = (sx, sy, sz) ->
  (0 <= mm)%R -> (0 < sx)%R -> (0 < sy)%R -> (0 < sz)%R ->
  exists nx ny nz,
    mm_to_voxels mm img = (nx, ny, nz)
    /\ 0 <= nx /\ (IZR nx * sx <= mm < (IZR nx + 1) * sx)%R
    /\ 0 <= ny /\ (IZR ny * sy <= mm < (IZR ny + 1) * sy)%R
    /\ 0 <= nz /\ (IZR nz * sz <= mm < (IZR nz + 1) * sz)%R.
Proof.
  intros Hsp Hmm Hx Hy Hz. unfold mm_to_voxels. rewrite Hsp.
  exists (py_int (mm / sx)), (py_int (mm / sy)), (py_int (mm / sz)).
  split; [reflexivity|].
  destruct (py_int_of_quotient mm sx Hmm Hx) as [? ?].
  destruct (py_int_of_quotient mm sy Hmm Hy) as [? ?].
  destruct (py_int_of_quotient mm sz Hmm Hz) as [? ?].
  repeat (split; [assumption|]). assumption.
Qed.

Lemma mm_to_voxels_truncates_witness :
  exists nx ny nz,
    mm_to_voxels 10 tube = (nx, ny, nz)
    /\ 0 <= nx /\ (IZR nx * 1 <= 10 < (IZR nx + 1) * 1)%R
    /\ 0 <= ny /\ (IZR ny * 1 <= 10 < (IZR ny + 1) * 1)%R
    /\ 0 <= nz /\ (IZR nz * 1 <= 10 < (IZR nz + 1) * 1)%R.
Proof.
  apply (mm_to_voxels_truncates 10 tube 1 1 1); [reflexivity | lra | lra | lra | lra].
Defined.

(** ** The sizes of the three bands *)

Lemma length_py_range a b : Z.of_nat (length (py_range a b)) = Z.max 0 (b - a).
Proof. unfold py_range. rewrite length_map, length_seq. lia. Qed.

(** X4 (lines 241-247 and the ranges of the slice loops at 327, 358 and
    395): the thirds are not equal.  For an extent that is not negative, the
    apical and the mid loop run over [dc] slices each, and the basal loop
    over the rest: [dc] slices and the remainder of the division by three,
    so [dc], [dc + 1] or [dc + 2] slices. *)
Theorem basal_band_takes_the_remainder
        (inf_limit_lv com_mv dc apical_extent mid_extent basal_extent : Z) :
  0 <= com_mv - inf_limit_lv ->
  axial_limits inf_limit_lv com_mv = (dc, apical_extent, mid_extent, basal_extent) ->
  Z.of_nat (length (py_range inf_limit_lv apical_extent)) = dc
  /\ Z.of_nat (length (py_range apical_extent mid_extent)) = dc
  /\ Z.of_nat (length (py_range mid_extent basal_extent))
     = dc + (com_mv - inf_limit_lv) mod 3
  /\ dc <= Z.of_nat (length (py_range mid_extent basal_extent)) <= dc + 2.
Proof.
  intros Hext Hlim. unfold axial_limits in Hlim. cbv zeta in Hlim.
  injection Hlim as Hdc Hap Hmid Hbasal.
  rewrite int_div3_floor in Hdc by exact Hext.
  pose proof (Z.div_mod (com_mv - inf_limit_lv) 3 ltac:(lia)) as Hdm.
  pose proof (Z.mod_pos_bound (com_mv - inf_limit_lv) 3 ltac:(lia)) as Hmod.
  assert (Hdc0 : 0 <= dc) by (subst dc; apply Z.div_pos; lia).
  rewrite !length_py_range. subst apical_extent mid_extent basal_extent.
  rewrite int_div3_floor by exact Hext. rewrite Hdc. lia.
Qed.

Lemma basal_band_takes_the_remainder_witness :
  Z.of_nat (length (py_range 0 2)) = 2
  /\ Z.of_nat (length (py_range 2 4)) = 2
  /\ Z.of_nat (length (py_range 4 8)) = 2 + (8 - 0) mod 3
  /\ 2 <= Z.of_nat (length (py_range 4 8)) <= 2 + 2.
Proof.
  apply (basal_band_takes_the_remainder 0 8 2 2 4 8); [lia | reflexivity].
Defined.

(** ** How the refinement loop leaves *)

Lemma last_cons_default {A} (a d : A) (l : list A) : List.last (a :: l) d = List.last l a.
Proof.
  revert a d. induction l as [|b l IH]; intros a d; [reflexivity|].
  change (List.last (a :: b :: l) d) with (List.last (b :: l) d).
  rewrite (IH b d), (IH b a). reflexivity.
Qed.

Section LoopBound.

Context {tk : Toolkit}.
Variable cfg : Config.

(** The transforms a run of the loop appends: no more than the iteration
    budget leaves, and fewer only when the last angle is within the
    tolerance. *)
Lemma refinement_loop_bound fuel : forall contours wc n transforms angle h out h',
  (Z.to_nat (optimiser_max_iter cfg - n) <= fuel)%nat ->
  refinement_loop cfg fuel contours wc n transforms angle h = (inr out, h') ->
  exists rest,
    out = transforms ++ rest
    /\ Z.of_nat (length rest) <= Z.max 0 (optimiser_max_iter cfg - n)
    /\ (Z.of_nat (length rest) < optimiser_max_iter cfg - n ->
        (Rabs (List.last (map v_angle rest) angle) <= optimiser_tol_radians cfg)%R).
Proof.
  induction fuel as [|fuel IH]; intros contours wc n transforms angle h out h' Hfuel Hrun.
  - cbn [refinement_loop] in Hrun. apply ret_inr in Hrun as [-> _].
    exists []. rewrite app_nil_r. split; [reflexivity|]. cbn [length]. split; [lia|]. lia.
  - cbn [refinement_loop] in Hrun.
    destruct (loop_guard cfg n angle) eqn:Hg.
    + unfold loop_guard in Hg. apply andb_true_iff in Hg as [Hn _]. apply Z.ltb_lt in Hn.
      apply bind_inr in Hrun as (t & h1 & _ & Hrun).
      apply IH in Hrun as (rest & -> & Hlen & Hlast); [|lia].
      exists (t :: rest). rewrite <- app_assoc. split; [reflexivity|].
      cbn [length map]. split; [lia|].
      intros Hfew. rewrite last_cons_default. apply Hlast. lia.
    + apply ret_inr in Hrun as [-> _].
      exists []. rewrite app_nil_r. split; [reflexivity|]. cbn [length map List.last].
      split; [lia|]. intros Hpos.
      unfold loop_guard in Hg. apply andb_false_iff in Hg as [Hn | Ha].
      * apply Z.ltb_ge in Hn. lia.
      * unfold Rltb in Ha. destruct (Rlt_dec _ _); [discriminate | lra].
Qed.

End LoopBound.

(** X5 (lines 139-143 and 160-215): the transform list of a run of Modules 1
    and 2 that returns starts with the initial rotation; the loop adds at
    most [optimiser_max_iter] transforms to it, and adds fewer only when the
    angle of the last rotation of the list is within the tolerance. *)
Theorem refinement_stops_on_budget_or_tolerance
        {tk : Toolkit} (cfg : Config) (contours wc : loc) (h : heap)
        (overall_transform_list : list VersorRigid3DTransform) (h' : heap) :
  axis_aligner cfg contours wc h = (inr overall_transform_list, h') ->
  exists rotation_transform h1 refinements,
    initial_alignment cfg contours wc h = (inr rotation_transform, h1)
    /\ overall_transform_list = rotation_transform :: refinements
    /\ Z.of_nat (length refinements) <= Z.max 0 (optimiser_max_iter cfg)
    /\ (Z.of_nat (length refinements) < optimiser_max_iter cfg ->
        (Rabs (List.last (map v_angle refinements) (v_angle rotation_transform))
         <= optimiser_tol_radians cfg)%R).
Proof.
  intros Hrun. unfold axis_aligner in Hrun.
  apply bind_inr in Hrun as (t & h1 & Hinit & Hloop).
  apply refinement_loop_bound in Hloop as (rest & -> & Hlen & Hlast); [|lia].
  exists t, h1, rest. rewrite Z.sub_0_r in Hlen, Hlast.
  repeat split; assumption.
Qed.

Lemma axis_aligner_toy :
  axis_aligner (tk := grid_toolkit) toy_config 0%nat 0%nat (toy_store rv_side) =
  (inr [toy_initial_transform], snd toy_initial_run).
Proof.
  unfold axis_aligner.
  rewrite (bind_ok _ _ _ _ _
             (run_result _ _ (mkVersor (0, 0, 0) (0, 0, 0) 0)%R initial_alignment_toy)).
  apply refinement_loop_exit. unfold loop_guard.
  rewrite Rltb_false; [apply andb_false_r|].
  change (v_angle _) with 0%R. rewrite Rabs_R0.
  unfold optimiser_tol_radians. cbn [optimiser_tol_degrees toy_config].
  pose proof PI_RGT_0. lra.
Qed.

Lemma refinement_stops_on_budget_or_tolerance_witness :
  exists rotation_transform refinements,
    [toy_initial_transform] = rotation_transform :: refinements
    /\ Z.of_nat (length refinements) <= Z.max 0 (optimiser_max_iter toy_config)
    /\ (Z.of_nat (length refinements) < optimiser_max_iter toy_config ->
        (Rabs (List.last (map v_angle refinements) (v_angle rotation_transform))
         <= optimiser_tol_radians toy_config)%R).
Proof.
  destruct (refinement_stops_on_budget_or_tolerance (tk := grid_toolkit) toy_config
              0%nat 0%nat (toy_store rv_side) [toy_initial_transform] (snd toy_initial_run)
              axis_aligner_toy)
    as (t & h1 & rest & _ & Heq & Hlen & Hlast).
  exists t, rest. repeat split; assumption.
Defined.

(** ** The rotations of the transform list *)

Lemma cross_unit_z (v : R3) :
  cross v unit_z = (snd (fst v), (- fst (fst v))%R, 0%R).
Proof.
  destruct v as [[a b] c]. unfold cross, unit_z. cbn [fst snd].
  repeat f_equal; ring.
Qed.

Section Rotations.

Context {tk : Toolkit}.
Variable cfg : Config.

Lemma initial_alignment_rotates_onto_z contours wc h t h' :
  initial_alignment cfg contours wc h = (inr t, h') -> rotates_onto_z t.
Proof.
  intros Hrun. unfold initial_alignment in Hrun.
  apply bind_inr in Hrun as (lv & h1 & _ & Hrun).
  apply bind_inr in Hrun as (la & h2 & _ & Hrun).
  apply bind_inr in Hrun as (axes & h3 & _ & Hrun).
  apply bind_inr in Hrun as (centre & h4 & _ & Hrun).
  apply bind_inr in Hrun as (u & h5 & _ & Hrun).
  apply ret_inr in Hrun as [<- _]. eexists. split; reflexivity.
Qed.

Lemma refine_once_rotates_onto_z contours wc h t h' :
  refine_once cfg contours wc h = (inr t, h') -> rotates_onto_z t.
Proof.
  intros Hrun. unfold refine_once in Hrun.
  apply bind_inr in Hrun as (lv & h1 & _ & Hrun).
  apply bind_inr in Hrun as (z & h2 & _ & Hrun).
  apply bind_inr in Hrun as (mv & h3 & _ & Hrun).
  apply bind_inr in Hrun as (com & h4 & _ & Hrun).
  apply bind_inr in Hrun as (lv' & h5 & _ & Hrun).
  apply bind_inr in Hrun as (u & h6 & _ & Hrun).
  apply ret_inr in Hrun as [<- _]. eexists. split; reflexivity.
Qed.

Lemma refinement_loop_rotates_onto_z fuel : forall contours wc n transforms angle h out h',
  List.Forall rotates_onto_z transforms ->
  refinement_loop cfg fuel contours wc n transforms angle h = (inr out, h') ->
  List.Forall rotates_onto_z out.
Proof.
  induction fuel as [|fuel IH]; intros contours wc n transforms angle h out h' Hall Hrun;
    cbn [refinement_loop] in Hrun.
  - apply ret_inr in Hrun as [<- _]. exact Hall.
  - destruct (loop_guard cfg n angle).
    + apply bind_inr in Hrun as (t & h1 & Hstep & Hrun).
      assert (Hall' : List.Forall rotates_onto_z (transforms ++ [t])).
      { apply List.Forall_app. split; [exact Hall|].
        constructor; [eapply refine_once_rotates_onto_z; exact Hstep | constructor]. }
      exact (IH _ _ _ _ _ _ _ _ Hall' Hrun).
    + apply ret_inr in Hrun as [<- _]. exact Hall.
Qed.

End Rotations.

(** X6 (lines 135-141 and 187-195): every transform of the list, the
    initial rotation and those of the loop alike, rotates by the angle
    between a vector and the z axis about the cross product of the two: the
    axis of every rotation has no z component, and is at right angles to
    the vector. *)
Theorem every_rotation_axis_lies_in_the_xy_plane
        {tk : Toolkit} (cfg : Config) (contours wc : loc) (h : heap)
        (overall_transform_list : list VersorRigid3DTransform) (h' : heap) :
  axis_aligner cfg contours wc h = (inr overall_transform_list, h') ->
  forall t, In t overall_transform_list ->
    exists v : R3,
      v_axis t = cross v unit_z
      /\ v_angle t = vector_angle v unit_z
      /\ snd (v_axis t) = 0%R
      /\ (fst (fst (v_axis t)) * fst (fst v) + snd (fst (v_axis t)) * snd (fst v)
          + snd (v_axis t) * snd v = 0)%R.
Proof.
  intros Hrun t Hin. unfold axis_aligner in Hrun.
  apply bind_inr in Hrun as (t0 & h1 & Hinit & Hloop).
  assert (Hall : List.Forall rotates_onto_z overall_transform_list).
  { assert (Hfirst : List.Forall rotates_onto_z [t0])
      by (constructor; [eapply initial_alignment_rotates_onto_z; exact Hinit | constructor]).
    exact (refinement_loop_rotates_onto_z cfg _ _ _ _ _ _ _ _ _ Hfirst Hloop). }
  rewrite List.Forall_forall in Hall. destruct (Hall t Hin) as (v & Haxis & Hangle).
  exists v. split; [exact Haxis|]. split; [exact Hangle|].
  rewrite Haxis, cross_unit_z. cbn [fst snd]. split; [reflexivity | ring].
Qed.

Lemma every_rotation_axis_lies_in_the_xy_plane_witness :
  exists v : R3,
    v_axis toy_initial_transform = cross v unit_z
    /\ snd (v_axis toy_initial_transform) = 0%R.
Proof.
  destruct (every_rotation_axis_lies_in_the_xy_plane (tk := grid_toolkit) toy_config
              0%nat 0%nat (toy_store rv_side) [toy_initial_transform] (snd toy_initial_run)
              axis_aligner_toy toy_initial_transform (or_introl eq_refl))
    as (v & Haxis & _ & Hz & _).
  exists v. split; assumption.
Defined.

(** ** What the slice loops assign *)

Lemma window_slice_binary sl com reference w x y :
  sl_pix (window_slice sl com reference w) x y = 0
  \/ sl_pix (window_slice sl com reference w) x y = 1.
Proof.
  unfold window_slice. destruct com as [y_0 x_0]. unfold extract. cbn [sl_pix].
  destruct (existsb _ _); [right | left]; reflexivity.
Qed.

Lemma band_pixel_binary {tk : Toolkit} label_lv_myo reference w n x y :
  band_pixel label_lv_myo reference w n x y = 0
  \/ band_pixel label_lv_myo reference w n x y = 1.
Proof.
  unfold band_pixel.
  destruct (slice_of label_lv_myo n) as [e | sl]; [left; reflexivity|].
  destruct (get_com_slice sl) as [e | com]; [left; reflexivity|].
  apply window_slice_binary.
Qed.

(** The apical reference angle is a value of [arctan2]. *)
Lemma apical_reference_angle_range
      {tk : Toolkit} (cfg : Config) wc inf_limit_lv apical_extent h theta h' :
  apical_reference_angle cfg wc inf_limit_lv apical_extent h = (inr theta, h') ->
  (- PI < theta <= PI)%R.
Proof.
  intros H. unfold apical_reference_angle in H.
  apply bind_inr in H as (coms & h1 & _ & H).
  destruct (mean_axis0 (map fst coms)) as [lv_com |]; [|discriminate].
  destruct (mean_axis0 (map snd coms)) as [rv_com |]; [|discriminate].
  apply ret_inr in H as [<- _]. apply arctan2_bounds.
Qed.

(** A non-zero voxel of a slice of a band is marked in a segment of the
    band when the relative angles of the band lie in [0, 2π). *)
Lemma band_slice_covered {tk : Toolkit} label_lv_myo reference band a b
      (S : Z -> Image) x y z :
  band = apical_windows \/ band = mid_windows \/ band = basal_windows ->
  0 <= a ->
  band_done label_lv_myo reference band a b S ->
  (forall y_0 x_0 p, (0 <= relative_angle y_0 x_0 reference p < 2 * PI)%R) ->
  a <= z < b ->
  0 <= x < size_x label_lv_myo -> 0 <= y < size_y label_lv_myo ->
  img_pix label_lv_myo x y z <> 0 ->
  exists w, In w band /\ img_pix (S (w_seg w)) x y z = 1.
Proof.
  intros Hband Ha Hdone Hrange Hz Hx Hy Hpix.
  destruct (proj1 Hdone z Hz) as (_ & sl & com & Hsl & Hcom).
  assert (Hz0 : 0 <= z) by lia.
  pose proof (slice_of_inr label_lv_myo z sl Hz0 Hsl) as [_ Hsl'].
  apply (band_voxel_covered label_lv_myo reference band a b S x y z sl com);
    try assumption; [|apply Hrange].
  apply In_np_where2. rewrite Hsl'. cbn [sl_size sl_pix fst snd].
  repeat split; try lia; assumption.
Qed.

Section Assignment.

Context {tk : Toolkit}.
Variable cfg : Config.

(** X7 (lines 307-355): in the apical band every voxel of the myocardium is
    assigned: [theta_0_apical] is a value of [arctan2], so one addition of
    2π brings every relative angle into [0, 2π), and every non-zero voxel
    of the myocardium on a slice of the band is 1 in one of the segments
    13 to 16. *)
Theorem apical_band_fully_assigned
        (wc : loc) (label_lv_myo : Image) (apex : loc) (apex_img : Image)
        (inf_limit_lv apical_extent mid_extent basal_extent : Z)
        (theta_0 theta_0_apical : R) (h : heap) (u : unit) (h' : heap) :
  0 <= inf_limit_lv -> 0 <= apical_extent -> 0 <= mid_extent ->
  h !! apex = Some (OImage apex_img) ->
  apical_reference_angle cfg wc inf_limit_lv apical_extent h = (inr theta_0_apical, h) ->
  angular_segmenter cfg wc label_lv_myo apex inf_limit_lv apical_extent mid_extent
    basal_extent theta_0 theta_0_apical h = (inr u, h') ->
  exists S,
    seg_store h' wc S
    /\ forall x y z,
         inf_limit_lv <= z < apical_extent ->
         0 <= x < size_x label_lv_myo -> 0 <= y < size_y label_lv_myo ->
         img_pix label_lv_myo x y z <> 0 ->
         exists k, 13 <= k <= 16 /\ img_pix (S k) x y z = 1.
Proof.
  intros Hinf Hap Hmid Hapex Hangle Hrun.
  destruct (angular_segmenter_spec cfg wc label_lv_myo apex apex_img inf_limit_lv
              apical_extent mid_extent basal_extent theta_0 theta_0_apical h u h'
              Hinf Hap Hmid Hapex Hrun)
    as (S & heart & Hstore & _ & _ & _ & Hapical & _ & _).
  exists S. split; [exact Hstore|].
  intros x y z Hz Hx Hy Hpix.
  pose proof (apical_reference_angle_range cfg _ _ _ _ _ _ Hangle) as Hrange.
  destruct (band_slice_covered label_lv_myo theta_0_apical apical_windows inf_limit_lv
              apical_extent S x y z) as (w & Hw & Hone); try assumption.
  - left; reflexivity.
  - intros y_0 x_0 p. apply relative_angle_range_apical, Hrange.
  - exists (w_seg w). split; [|exact Hone].
    apply (proj2 (proj1 band_windows_facts) w Hw).
Qed.

(** X8 (lines 357-429): in the mid and basal bands every voxel of the
    myocardium is assigned when [theta_0] is at most π: the relative angles
    then lie in [0, 2π), and every non-zero voxel of the myocardium on a mid
    slice is 1 in one of the segments 7 to 12, on a basal slice in one of
    the segments 1 to 6. *)
Theorem mid_and_basal_bands_assigned_when_theta_0_at_most_pi
        (wc : loc) (label_lv_myo : Image) (apex : loc) (apex_img : Image)
        (inf_limit_lv apical_extent mid_extent basal_extent : Z)
        (theta_0 theta_0_apical : R) (h : heap) (u : unit) (h' : heap) :
  0 <= inf_limit_lv -> 0 <= apical_extent -> 0 <= mid_extent ->
  h !! apex = Some (OImage apex_img) ->
  (0 <= theta_0 <= PI)%R ->
  angular_segmenter cfg wc label_lv_myo apex inf_limit_lv apical_extent mid_extent
    basal_extent theta_0 theta_0_apical h = (inr u, h') ->
  exists S,
    seg_store h' wc S
    /\ forall x y z,
         0 <= x < size_x label_lv_myo -> 0 <= y < size_y label_lv_myo ->
         img_pix label_lv_myo x y z <> 0 ->
         (apical_extent <= z < mid_extent ->
          exists k, 7 <= k <= 12 /\ img_pix (S k) x y z = 1)
         /\ (mid_extent <= z < basal_extent ->
             exists k, 1 <= k <= 6 /\ img_pix (S k) x y z = 1).
Proof.
  intros Hinf Hap Hmid Hapex Htheta Hrun.
  destruct (angular_segmenter_spec cfg wc label_lv_myo apex apex_img inf_limit_lv
              apical_extent mid_extent basal_extent theta_0 theta_0_apical h u h'
              Hinf Hap Hmid Hapex Hrun)
    as (S & heart & Hstore & _ & _ & _ & _ & Hmidband & Hbasal).
  exists S. split; [exact Hstore|].
  intros x y z Hx Hy Hpix. split; intros Hz.
  - destruct (band_slice_covered label_lv_myo theta_0 mid_windows apical_extent
                mid_extent S x y z) as (w & Hw & Hone); try assumption.
    + right; left; reflexivity.
    + intros y_0 x_0 p. apply relative_angle_range_small_reference, Htheta.
    + exists (w_seg w). split; [|exact Hone].
      apply (proj2 (proj1 (proj2 band_windows_facts)) w Hw).
  - destruct (band_slice_covered label_lv_myo theta_0 basal_windows mid_extent
                basal_extent S x y z) as (w & Hw & Hone); try assumption.
    + right; right; reflexivity.
    + intros y_0 x_0 p. apply relative_angle_range_small_reference, Htheta.
    + exists (w_seg w). split; [|exact Hone].
      apply (proj2 (proj2 (proj2 band_windows_facts)) w Hw).
Qed.

(** The segment images when the slice loops are done. *)
Lemma segment_images_spec
        (wc : loc) (label_lv_myo : Image) (apex : loc) (apex_img : Image)
        (inf_limit_lv apical_extent mid_extent basal_extent : Z)
        (theta_0 theta_0_apical : R) (h : heap) (u : unit) (h' : heap) :
  0 <= inf_limit_lv -> 0 <= apical_extent -> 0 <= mid_extent ->
  h !! apex = Some (OImage apex_img) ->
  angular_segmenter cfg wc label_lv_myo apex inf_limit_lv apical_extent mid_extent
    basal_extent theta_0 theta_0_apical h = (inr u, h') ->
  exists S heart,
    seg_store h' wc S
    /\ dict_get_image wc (label_heart cfg) h = (inr heart, h)
    /\ (forall k, 1 <= k <= 16 -> img_geom (S k) = img_geom heart)
    /\ S 17 = apex_img
    /\ forall k x y z,
         1 <= k <= 16 ->
         (img_pix (S k) x y z = 0 \/ img_pix (S k) x y z = 1)
         /\ (img_pix (S k) x y z = 1 ->
             0 <= x < size_x label_lv_myo /\ 0 <= y < size_y label_lv_myo
             /\ 0 <= z < size_z label_lv_myo
             /\ img_pix label_lv_myo x y z <> 0
             /\ (13 <= k -> inf_limit_lv <= z < apical_extent)
             /\ (7 <= k <= 12 -> apical_extent <= z < mid_extent)
             /\ (k <= 6 -> mid_extent <= z < basal_extent)).
Proof.
  intros Hinf Hap Hmid Hapex Hrun.
  destruct (angular_segmenter_spec cfg wc label_lv_myo apex apex_img inf_limit_lv
              apical_extent mid_extent basal_extent theta_0 theta_0_apical h u h'
              Hinf Hap Hmid Hapex Hrun)
    as (S & heart & Hstore & Hheart & H17 & Hgeom & Hapical & Hmidband & Hbasal).
  exists S, heart. split; [exact Hstore|]. split; [exact Hheart|]. split; [exact Hgeom|].
  split; [exact H17|].
  assert (Hband : forall band reference a b w x y z,
             0 <= a ->
             band_done label_lv_myo reference band a b S -> In w band ->
             (img_pix (S (w_seg w)) x y z = 0 \/ img_pix (S (w_seg w)) x y z = 1)
             /\ (img_pix (S (w_seg w)) x y z = 1 ->
                 0 <= x < size_x label_lv_myo /\ 0 <= y < size_y label_lv_myo
                 /\ 0 <= z < size_z label_lv_myo
                 /\ img_pix label_lv_myo x y z <> 0 /\ a <= z < b)).
  { intros band reference a b w x y z Ha Hdone Hw.
    pose proof (proj2 Hdone w Hw x y z) as Hp. split.
    - rewrite Hp. destruct ((a <=? z) && (z <? b)); [apply band_pixel_binary | left; reflexivity].
    - intros Hone. rewrite Hp in Hone.
      destruct ((a <=? z) && (z <? b)) eqn:E; [|discriminate].
      apply andb_true_iff in E as [E1 E2]. apply Z.leb_le in E1. apply Z.ltb_lt in E2.
      assert (Hz0 : 0 <= z) by lia.
      assert (Hpos : 0 < band_pixel label_lv_myo reference w z x y) by lia.
      destruct (band_pixel_pos label_lv_myo reference w z x y Hz0 Hpos)
        as (sl & com & _ & _ & Hx & Hy & Hzs & Hpix & _).
      repeat split; try lia; assumption. }
  intros k x y z Hk.
  assert (Hcase : (13 <= k <= 16) \/ (7 <= k <= 12) \/ (1 <= k <= 6)) by lia.
  destruct Hcase as [Hk' | [Hk' | Hk']].
  - assert (Hw : exists w, In w apical_windows /\ w_seg w = k).
    { apply window_of_segment. cbn [band_segments map apical_windows w_seg In]. lia. }
    destruct Hw as (w & Hw & <-).
    destruct (Hband apical_windows theta_0_apical inf_limit_lv apical_extent w x y z
                Hinf Hapical Hw) as [Hbin Hone].
    split; [exact Hbin|]. intros H1. destruct (Hone H1) as (? & ? & ? & ? & ?).
    repeat split; try lia; assumption.
  - assert (Hw : exists w, In w mid_windows /\ w_seg w = k).
    { apply window_of_segment. cbn [band_segments map mid_windows w_seg In]. lia. }
    destruct Hw as (w & Hw & <-).
    destruct (Hband mid_windows theta_0 apical_extent mid_extent w x y z
                Hap Hmidband Hw) as [Hbin Hone].
    split; [exact Hbin|]. intros H1. destruct (Hone H1) as (? & ? & ? & ? & ?).
    repeat split; try lia; assumption.
  - assert (Hw : exists w, In w basal_windows /\ w_seg w = k).
    { apply window_of_segment. cbn [band_segments map basal_windows w_seg In]. lia. }
    destruct Hw as (w & Hw & <-).
    destruct (Hband basal_windows theta_0 mid_extent basal_extent w x y z
                Hmid Hbasal Hw) as [Hbin Hone].
    split; [exact Hbin|]. intros H1. destruct (Hone H1) as (? & ? & ? & ? & ?).
    repeat split; try lia; assumption.
Qed.


(** X9 (lines 320-429): when the slice loops are done, the segments 1 to 16
    are binary, and a segment is 1 only at a non-zero voxel of the
    myocardium, on the grid, on a slice of the band of the segment: the
    apical band for 13 to 16, the mid band for 7 to 12, the basal band for 1
    to 6.  Segment 17 is the apex copy of the myocardium. *)
Theorem segments_lie_in_the_myocardium_of_their_band
        (wc : loc) (label_lv_myo : Image) (apex : loc) (apex_img : Image)
        (inf_limit_lv apical_extent mid_extent basal_extent : Z)
        (theta_0 theta_0_apical : R) (h : heap) (u : unit) (h' : heap) :
  0 <= inf_limit_lv -> 0 <= apical_extent -> 0 <= mid_extent ->
  h !! apex = Some (OImage apex_img) ->
  angular_segmenter cfg wc label_lv_myo apex inf_limit_lv apical_extent mid_extent
    basal_extent theta_0 theta_0_apical h = (inr u, h') ->
  exists S,
    seg_store h' wc S
    /\ S 17 = apex_img
    /\ forall k x y z,
         1 <= k <= 16 ->
         (img_pix (S k) x y z = 0 \/ img_pix (S k) x y z = 1)
         /\ (img_pix (S k) x y z = 1 ->
             0 <= x < size_x label_lv_myo /\ 0 <= y < size_y label_lv_myo
             /\ 0 <= z < size_z label_lv_myo
             /\ img_pix label_lv_myo x y z <> 0
             /\ (13 <= k -> inf_limit_lv <= z < apical_extent)
             /\ (7 <= k <= 12 -> apical_extent <= z < mid_extent)
             /\ (k <= 6 -> mid_extent <= z < basal_extent)).
Proof.
  intros Hinf Hap Hmid Hapex Hrun.
  destruct (segment_images_spec wc label_lv_myo apex apex_img inf_limit_lv apical_extent
              mid_extent basal_extent theta_0 theta_0_apical h u h'
              Hinf Hap Hmid Hapex Hrun)
    as (S & heart & Hstore & _ & _ & H17 & Hseg).
  exists S. split; [exact Hstore|]. split; [exact H17 | exact Hseg].
Qed.

(** X10 (lines 320-447 and [sitk.Resample] with [sitkNearestNeighbor]):
    resampled into the reference space, before any hole filling, the
    segments 1 to 16 are still binary, and a voxel of a resampled segment is
    1 only when nearest-neighbour resampling reads it from a non-zero voxel
    of the myocardium on a slice of the band of the segment. *)
Theorem resampled_segments_come_from_their_band
        (wc : loc) (label_lv_myo : Image) (apex : loc) (apex_img heart : Image)
        (inf_limit_lv apical_extent mid_extent basal_extent : Z)
        (theta_0 theta_0_apical : R) (h : heap) (u : unit) (h' : heap) :
  0 <= inf_limit_lv -> 0 <= apical_extent -> 0 <= mid_extent ->
  h !! apex = Some (OImage apex_img) ->
  dict_get_image wc (label_heart cfg) h = (inr heart, h) ->
  img_geom heart = img_geom label_lv_myo ->
  angular_segmenter cfg wc label_lv_myo apex inf_limit_lv apical_extent mid_extent
    basal_extent theta_0 theta_0_apical h = (inr u, h') ->
  exists S,
    seg_store h' wc S
    /\ forall inverse_transform k x y z,
         1 <= k <= 16 ->
         (img_pix (rotate_back (S k) inverse_transform) x y z = 0
          \/ img_pix (rotate_back (S k) inverse_transform) x y z = 1)
         /\ (img_pix (rotate_back (S k) inverse_transform) x y z = 1 ->
             exists x' y' z',
               resample_source (img_geom label_lv_myo) inverse_transform (x, y, z)
               = Some (x', y', z')
               /\ img_pix label_lv_myo x' y' z' <> 0
               /\ (13 <= k -> inf_limit_lv <= z' < apical_extent)
               /\ (7 <= k <= 12 -> apical_extent <= z' < mid_extent)
               /\ (k <= 6 -> mid_extent <= z' < basal_extent)).
Proof.
  intros Hinf Hap Hmid Hapex Hheart Hgeom Hrun.
  destruct (segment_images_spec wc label_lv_myo apex apex_img inf_limit_lv apical_extent
              mid_extent basal_extent theta_0 theta_0_apical h u h'
              Hinf Hap Hmid Hapex Hrun)
    as (S & heart' & Hstore & Hheart' & Hgeoms & _ & Hseg).
  rewrite Hheart in Hheart'. inversion Hheart'; subst heart'. clear Hheart'.
  exists S. split; [exact Hstore|].
  intros inverse_transform k x y z Hk. unfold rotate_back.
  rewrite Resample_nearest, (Hgeoms k Hk), Hgeom.
  destruct (resample_source (img_geom label_lv_myo) inverse_transform (x, y, z))
    as [[[x' y'] z'] |].
  - destruct (Hseg k x' y' z' Hk) as [Hbin Hone]. split; [exact Hbin|].
    intros H1. destruct (Hone H1) as (_ & _ & _ & Hpix & Ha & Hm & Hb).
    exists x', y', z'. repeat split; try assumption; first [apply Ha | apply Hm | apply Hb];
      assumption.
  - split; [left; reflexivity | discriminate].
Qed.

End Assignment.

(** ** The slice loops on the small input *)

Lemma apical_reference_angle_toy :
  apical_reference_angle (tk := grid_toolkit) toy_config 0%nat 0 2 (toy_store rv_side) =
  (inr toy_theta_0_apical, toy_store rv_side).
Proof.
  assert (Hex : exists a, fst (apical_reference_angle (tk := grid_toolkit) toy_config 0%nat 0 2
                                 (toy_store rv_side)) = inr a)
    by (eexists; reflexivity).
  rewrite (run_result _ _ 0%R Hex) at 1.
  f_equal; apply (read_only_apical_reference_angle (tk := grid_toolkit)).
Qed.

Lemma apical_band_fully_assigned_witness :
  exists S,
    seg_store (snd (angular_segmenter (tk := grid_toolkit) toy_config 0%nat tube 6%nat
                      0 2 4 6 0 toy_theta_0_apical (toy_store rv_side))) 0%nat S
    /\ exists k, 13 <= k <= 16 /\ img_pix (S k) 1 2 0 = 1.
Proof.
  destruct (apical_band_fully_assigned (tk := grid_toolkit) toy_config 0%nat tube 6%nat
              (myo_apex tube 0) 0 2 4 6 0%R toy_theta_0_apical (toy_store rv_side) tt _
              (Z.le_refl 0) (Zle_0_pos 2) (Zle_0_pos 4) eq_refl
              apical_reference_angle_toy
              (angular_segmenter_toy rv_side 0%R toy_theta_0_apical))
    as (S & Hstore & Hcover).
  exists S. split; [exact Hstore|].
  apply (Hcover 1 2 0); [lia | cbn; lia | cbn; lia | cbn; discriminate].
Defined.

Lemma mid_and_basal_bands_assigned_when_theta_0_at_most_pi_witness :
  exists S,
    seg_store (snd (angular_segmenter (tk := grid_toolkit) toy_config 0%nat tube 6%nat
                      0 2 4 6 0 0 (toy_store rv_side))) 0%nat S
    /\ (exists k, 7 <= k <= 12 /\ img_pix (S k) 1 2 2 = 1)
    /\ (exists k, 1 <= k <= 6 /\ img_pix (S k) 1 2 4 = 1).
Proof.
  assert (Htheta : (0 <= 0 <= PI)%R) by (pose proof PI_RGT_0; lra).
  destruct (mid_and_basal_bands_assigned_when_theta_0_at_most_pi (tk := grid_toolkit)
              toy_config 0%nat tube 6%nat (myo_apex tube 0) 0 2 4 6 0%R 0%R
              (toy_store rv_side) tt _
              (Z.le_refl 0) (Zle_0_pos 2) (Zle_0_pos 4) eq_refl Htheta
              (angular_segmenter_toy rv_side 0%R 0%R))
    as (S & Hstore & Hcover).
  exists S. split; [exact Hstore|]. split.
  - apply (Hcover 1 2 2); [cbn; lia | cbn; lia | cbn; discriminate | lia].
  - apply (Hcover 1 2 4); [cbn; lia | cbn; lia | cbn; discriminate | lia].
Defined.

Lemma segments_lie_in_the_myocardium_of_their_band_witness :
  exists S,
    seg_store (snd (angular_segmenter (tk := grid_toolkit) toy_config 0%nat tube 6%nat
                      0 2 4 6 0 0 (toy_store rv_side))) 0%nat S
    /\ S 17 = myo_apex tube 0
    /\ (img_pix (S 1) 0 0 0 = 0 \/ img_pix (S 1) 0 0 0 = 1).
Proof.
  destruct (segments_lie_in_the_myocardium_of_their_band (tk := grid_toolkit)
              toy_config 0%nat tube 6%nat (myo_apex tube 0) 0 2 4 6 0%R 0%R
              (toy_store rv_side) tt _
              (Z.le_refl 0) (Zle_0_pos 2) (Zle_0_pos 4) eq_refl
              (angular_segmenter_toy rv_side 0%R 0%R))
    as (S & Hstore & H17 & Hseg).
  exists S. split; [exact Hstore|]. split; [exact H17|].
  apply (proj1 (Hseg 1 0 0 0 ltac:(lia))).
Defined.

Lemma resampled_segments_come_from_their_band_witness :
  exists S,
    seg_store (snd (angular_segmenter (tk := grid_toolkit) toy_config 0%nat tube 6%nat
                      0 2 4 6 0 0 (toy_store rv_side))) 0%nat S
    /\ (img_pix (rotate_back (tk := grid_toolkit) (S 1) (InverseOfComposite [])) 0 0 0 = 0
        \/ img_pix (rotate_back (tk := grid_toolkit) (S 1) (InverseOfComposite [])) 0 0 0 = 1).
Proof.
  destruct (resampled_segments_come_from_their_band (tk := grid_toolkit)
              toy_config 0%nat tube 6%nat (myo_apex tube 0) tube 0 2 4 6 0%R 0%R
              (toy_store rv_side) tt _
              (Z.le_refl 0) (Zle_0_pos 2) (Zle_0_pos 4) eq_refl eq_refl eq_refl
              (angular_segmenter_toy rv_side 0%R 0%R))
    as (S & Hstore & Hseg).
  exists S. split; [exact Hstore|].
  apply (proj1 (Hseg (InverseOfComposite []) 1 0 0 0 ltac:(lia))).
Defined.

(** ** Invariants of the store along a run *)

Lemma stable_ret (P : heap -> Prop) {A} (Q : A -> Prop) a : Q a -> stable P (ret a) Q.
Proof. intros HQ h HP. cbn. split; [exact HP|]. intros b Hb. inversion Hb; subst; exact HQ. Qed.

Lemma stable_raise (P : heap -> Prop) {A} (Q : A -> Prop) e : stable P (raise (A := A) e) Q.
Proof. intros h HP. cbn. split; [exact HP | discriminate]. Qed.

Lemma stable_read_only (P : heap -> Prop) {A} (m : M A) :
  read_only m -> stable P m (fun _ => True).
Proof. intros Hro h HP. rewrite (Hro h). split; [exact HP | intros; exact I]. Qed.

Lemma stable_lift (P : heap -> Prop) {A} (r : exn + A) : stable P (lift r) (fun _ => True).
Proof. apply stable_read_only, read_only_lift. Qed.

Lemma stable_bind (P : heap -> Prop) {A B} (m : M A) (f : A -> M B)
      (Q : A -> Prop) (Q' : B -> Prop) :
  stable P m Q -> (forall a, Q a -> stable P (f a) Q') -> stable P (bind m f) Q'.
Proof.
  intros Hm Hf h HP. destruct (Hm h HP) as (Hi & HQ).
  unfold bind. destruct (m h) as [[e | a] h1]; cbn [fst snd] in *.
  - split; [exact Hi | discriminate].
  - apply (Hf a (HQ a eq_refl) h1 Hi).
Qed.

Lemma stable_weaken (P : heap -> Prop) {A} (m : M A) (Q Q' : A -> Prop) :
  stable P m Q -> (forall a, Q a -> Q' a) -> stable P m Q'.
Proof.
  intros Hm HQ h HP. destruct (Hm h HP) as (Hi & Hq).
  split; [exact Hi | intros a Ha; apply HQ, Hq, Ha].
Qed.

Lemma stable_for_each (P : heap -> Prop) {A} (l : list A) (body : A -> M unit) :
  (forall a, In a l -> stable P (body a) (fun _ => True)) ->
  stable P (for_each l body) (fun _ => True).
Proof.
  induction l as [|a l IH]; intros Hb; cbn [for_each].
  - apply stable_ret. exact I.
  - eapply stable_bind; [apply Hb; left; reflexivity|]. intros _ _.
    apply IH. intros b Hin. apply Hb. right. exact Hin.
Qed.

Lemma stable_run (P : heap -> Prop) {A} (m : M A) (Q : A -> Prop) h r h' :
  stable P m Q -> P h -> m h = (r, h') -> P h'.
Proof. intros Hm HP Hrun. destruct (Hm h HP) as [Hi _]. rewrite Hrun in Hi. exact Hi. Qed.

Section Closed.

Context {tk : Toolkit}.
Variable cfg : Config.
Variable P : heap -> Prop.
Variables contours wc : loc.
Variable allowed : key -> Prop.
Hypothesis HP : closed_invariant P contours wc allowed.

Lemma stable_alloc o : stable P (alloc o) (fun _ => True).
Proof. intros h Hh. cbn. split; [apply (closed_alloc _ _ _ _ HP), Hh | intros; exact I]. Qed.

Lemma stable_modify_image l f : stable P (modify_image l f) (fun _ => True).
Proof.
  intros h Hh. split; [|intros; exact I].
  unfold modify_image, bind, load_image.
  destruct (h !! l) as [[i | d] |] eqn:El; cbn [fst snd]; try exact Hh.
  destruct (f i) as [e | i']; cbn [lift raise ret store fst snd]; [exact Hh|].
  apply (closed_image _ _ _ _ HP h l i i' Hh El).
Qed.

Lemma stable_dict_set k l : allowed k -> stable P (dict_set wc k l) (fun _ => True).
Proof.
  intros Hk h Hh. split; [|intros; exact I].
  unfold dict_set, bind, load_dict.
  destruct (h !! wc) as [[i | items] |] eqn:El; cbn [fst snd store]; try exact Hh.
  apply (closed_assign _ _ _ _ HP h items k l Hh El Hk).
Qed.

Lemma stable_dict_set_new k img :
  allowed k -> stable P (dict_set_new wc k img) (fun _ => True).
Proof.
  intros Hk. unfold dict_set_new.
  eapply stable_bind; [apply stable_alloc|]. intros l _. apply stable_dict_set, Hk.
Qed.

Lemma stable_dict_keys :
  stable P (dict_keys contours) (fun labels => forall k, In k labels -> allowed k).
Proof.
  intros h Hh. unfold dict_keys, bind, load_dict.
  destruct (h !! contours) as [[i | items] |] eqn:El; cbn [fst snd ret];
    (split; [exact Hh|]); try discriminate.
  intros labels Hl. inversion Hl; subst. intros k Hin.
  apply (closed_labels _ _ _ _ HP h items k Hh El Hin).
Qed.

Lemma stable_crop_all cb_size cb_index :
  stable P (crop_all contours wc cb_size cb_index) (fun _ => True).
Proof.
  unfold crop_all. eapply stable_bind; [apply stable_dict_keys|]. intros labels Hl.
  apply stable_for_each. intros label Hin.
  eapply stable_bind; [apply stable_read_only, read_only_dict_get_image|]. intros img _.
  eapply stable_bind; [apply stable_lift|]. intros cropped _.
  apply stable_dict_set_new, Hl, Hin.
Qed.

Lemma stable_resample_all t :
  stable P (resample_all contours wc t) (fun _ => True).
Proof.
  unfold resample_all. eapply stable_bind; [apply stable_dict_keys|]. intros labels Hl.
  apply stable_for_each. intros label Hin.
  eapply stable_bind; [apply stable_read_only, read_only_dict_get_image|]. intros img _.
  apply stable_dict_set_new, Hl, Hin.
Qed.

Lemma stable_initial_alignment :
  stable P (initial_alignment cfg contours wc) (fun _ => True).
Proof.
  unfold initial_alignment.
  eapply stable_bind; [apply stable_read_only, read_only_dict_get_image|]. intros lv _.
  eapply stable_bind; [apply stable_read_only, read_only_dict_get_image|]. intros la _.
  eapply stable_bind; [apply stable_lift|]. intros axes _.
  eapply stable_bind; [apply stable_lift|]. intros centre _.
  eapply stable_bind; [apply stable_resample_all|]. intros _ _.
  apply stable_ret. exact I.
Qed.

Lemma stable_refine_once :
  stable P (refine_once cfg contours wc) (fun _ => True).
Proof.
  unfold refine_once.
  eapply stable_bind; [apply stable_read_only, read_only_dict_get_image|]. intros lv _.
  eapply stable_bind; [apply stable_lift|]. intros z _.
  eapply stable_bind; [apply stable_read_only, read_only_dict_get_image|]. intros mv _.
  eapply stable_bind; [apply stable_lift|]. intros com _.
  eapply stable_bind; [apply stable_read_only, read_only_dict_get_image|]. intros lv' _.
  eapply stable_bind; [apply stable_resample_all|]. intros _ _.
  apply stable_ret. exact I.
Qed.

Lemma stable_refinement_loop fuel : forall n transforms angle,
  stable P (refinement_loop cfg fuel contours wc n transforms angle) (fun _ => True).
Proof.
  induction fuel as [|fuel IH]; intros n transforms angle; cbn [refinement_loop].
  - apply stable_ret. exact I.
  - destruct (loop_guard cfg n angle); [|apply stable_ret; exact I].
    eapply stable_bind; [apply stable_refine_once|]. intros t _. apply IH.
Qed.

Lemma stable_axis_aligner :
  stable P (axis_aligner cfg contours wc) (fun _ => True).
Proof.
  unfold axis_aligner. eapply stable_bind; [apply stable_initial_alignment|].
  intros t _. apply stable_refinement_loop.
Qed.

Lemma stable_cut_myocardium label_lv_myo inf_limit_lv apical_extent mid_extent basal_extent :
  stable P (cut_myocardium label_lv_myo inf_limit_lv apical_extent mid_extent basal_extent)
         (fun _ => True).
Proof.
  unfold cut_myocardium.
  repeat (eapply stable_bind; [first [apply stable_alloc | apply stable_modify_image]|];
          intros ? _).
  apply stable_ret. exact I.
Qed.

Lemma stable_assign_slice n seg sl : stable P (assign_slice wc n seg sl) (fun _ => True).
Proof.
  unfold assign_slice.
  eapply stable_bind; [apply stable_read_only, read_only_dict_get|]. intros l _.
  apply stable_modify_image.
Qed.

Lemma stable_segment_slice label_lv_myo reference band n :
  stable P (segment_slice wc label_lv_myo reference band n) (fun _ => True).
Proof.
  unfold segment_slice.
  eapply stable_bind; [apply stable_lift|]. intros sl _.
  eapply stable_bind; [apply stable_lift|]. intros [y_0 x_0] _.
  apply stable_for_each. intros w _. apply stable_assign_slice.
Qed.

Lemma stable_angular_segmenter label_lv_myo apex inf_limit_lv apical_extent mid_extent
      basal_extent theta_0 theta_0_apical :
  (forall n, allowed (KInt n)) ->
  stable P (angular_segmenter cfg wc label_lv_myo apex inf_limit_lv apical_extent
              mid_extent basal_extent theta_0 theta_0_apical) (fun _ => True).
Proof.
  intros Hint. unfold angular_segmenter.
  eapply stable_bind.
  { apply stable_for_each. intros i _.
    eapply stable_bind; [apply stable_read_only, read_only_dict_get_image|]. intros heart _.
    apply stable_dict_set_new, Hint. }
  intros _ _. eapply stable_bind; [apply stable_dict_set, Hint|]. intros _ _.
  eapply stable_bind; [apply stable_for_each; intros; apply stable_segment_slice|]. intros _ _.
  eapply stable_bind; [apply stable_for_each; intros; apply stable_segment_slice|]. intros _ _.
  apply stable_for_each; intros; apply stable_segment_slice.
Qed.

End Closed.

(** ** The labels a run needs *)

Lemma dict_update_keys k l items :
  In k (map fst items) -> map fst (dict_update k l items) = map fst items.
Proof.
  induction items as [|[k' l'] items IH]; cbn [map fst In dict_update]; [intros []|].
  intros Hin. destruct (key_eqb k k') eqn:E.
  - apply key_eqb_eq in E. subst k'. reflexivity.
  - cbn [map fst]. f_equal. apply IH. destruct Hin as [-> | Hin]; [|exact Hin].
    rewrite key_eqb_refl in E. discriminate.
Qed.

Lemma dict_lookup_In_keys k items l :
  dict_lookup k items = Some l -> In k (map fst items).
Proof.
  induction items as [|[k' l'] items IH]; cbn [dict_lookup map fst In]; [discriminate|].
  destruct (key_eqb k k') eqn:E.
  - intros _. apply key_eqb_eq in E. left. symmetry. exact E.
  - intros H. right. apply IH, H.
Qed.

Lemma has_keys_app h t d K : has_keys h d K -> has_keys (h ++ t) d K.
Proof.
  intros (items & Hd & HK). exists items. split; [apply lookup_app_l_Some, Hd | exact HK].
Qed.

Lemma has_keys_insert_image h l i i' d K :
  h !! l = Some (OImage i) -> has_keys h d K -> has_keys (<[l := OImage i']> h) d K.
Proof.
  intros Hl (items & Hd & HK). exists items. split; [|exact HK].
  rewrite list_lookup_insert_ne; [exact Hd|]. intros ->. congruence.
Qed.

Lemma has_keys_assign h wc items k l d K :
  h !! wc = Some (ODict items) -> In k K -> has_keys h wc K ->
  has_keys h d K -> has_keys (<[wc := ODict (dict_update k l items)]> h) d K.
Proof.
  intros Hwc Hk (items1 & Hwc1 & HK1) (itemsd & Hd & HKd).
  assert (items1 = items) by congruence. subst items1.
  destruct (Nat.eq_dec wc d) as [<- | Hne].
  - exists (dict_update k l items). split.
    + apply list_lookup_insert_eq. eapply lookup_lt_Some, Hwc.
    + rewrite dict_update_keys; [exact HK1|]. rewrite HK1. exact Hk.
  - exists itemsd. split; [|exact HKd]. rewrite list_lookup_insert_ne by exact Hne. exact Hd.
Qed.

Lemma closed_labels_kept contours wc K :
  closed_invariant (labels_kept contours wc K) contours wc (fun k => In k K).
Proof.
  split.
  - intros h o [Hc Hw]. split; apply has_keys_app; assumption.
  - intros h l i i' [Hc Hw] Hl. split; eapply has_keys_insert_image; eassumption.
  - intros h items k l [Hc Hw] Hwc Hk. split; apply has_keys_assign; assumption.
  - intros h items k [(items' & Hc & HK) _] Hitems Hin.
    assert (items' = items) by congruence. subst items'. rewrite <- HK. exact Hin.
Qed.

Lemma closed_out_empty contours wc out :
  wc <> out ->
  closed_invariant (fun h => h !! out = Some (ODict [])) contours wc (fun _ => True).
Proof.
  intros Hne. split.
  - intros h o Hout. apply lookup_app_l_Some, Hout.
  - intros h l i i' Hout Hl. rewrite list_lookup_insert_ne; [exact Hout|].
    intros ->. congruence.
  - intros h items k l Hout _ _. rewrite list_lookup_insert_ne by exact Hne. exact Hout.
  - intros; exact I.
Qed.

Lemma dict_get_image_key h d k img h' K :
  has_keys h d K -> dict_get_image d k h = (inr img, h') -> In k K.
Proof.
  intros (items & Hd & HK) Hget.
  apply dict_get_image_inr in Hget as (_ & items' & l & Hd' & Hl & _).
  assert (items' = items) by congruence. subst items'.
  rewrite <- HK. eapply dict_lookup_In_keys, Hl.
Qed.

Lemma copy_of_keys h h' items items' :
  copy_of h h' items items' -> map fst items' = map fst items.
Proof.
  induction 1 as [|kl kl' items items' [Hk _] _ IH]; cbn [map]; [reflexivity|].
  rewrite IH, Hk. reflexivity.
Qed.

(** The store in which the modules start: the objects of the call, the
    copies of the images, the working dictionary and the empty output
    dictionary. *)
Lemma initial_store {tk : Toolkit} (cfg : Config) (h : heap) contours items :
  h !! contours = Some (ODict items) ->
  (forall k l, In (k, l) items -> exists img, h !! l = Some (OImage img)) ->
  exists items' t,
    generate_left_ventricle_segments cfg contours h =
    run_modules cfg contours (length (h ++ t)) (S (length (h ++ t)))
      (((h ++ t) ++ [ODict items']) ++ [ODict []])
    /\ copy_of h (h ++ t) items items'.
Proof.
  intros Hc Hitems.
  destruct (deepcopy_spec h contours items Hc Hitems) as (items' & t & Hrun & Hcopy).
  exists items', t. split; [|exact Hcopy].
  unfold generate_left_ventricle_segments. rewrite (bind_ok _ _ _ _ _ Hrun).
  unfold alloc, bind.
  replace (length ((h ++ t) ++ [ODict items'])) with (S (length (h ++ t)))
    by (rewrite (length_app (h ++ t)); cbn [length]; lia).
  reflexivity.
Qed.

Lemma initial_store_labels h t contours items items' :
  h !! contours = Some (ODict items) ->
  copy_of h (h ++ t) items items' ->
  labels_kept contours (length (h ++ t)) (map fst items)
    (((h ++ t) ++ [ODict items']) ++ [ODict []]).
Proof.
  intros Hc Hcopy. split.
  - exists items. split; [|reflexivity]. do 3 apply lookup_app_l_Some. exact Hc.
  - exists items'. split; [|eapply copy_of_keys, Hcopy].
    apply lookup_app_l_Some, list_lookup_middle. reflexivity.
Qed.

(** X11 (lines 102, 104, 122, 239 and 284): a run that returns has found all
    five labels among the keys of [contours]: every one of them is read
    from the working dictionary before the segments are made, and the
    working dictionary has the keys of [contours] until then.  Without any
    one of the five, the left atrium included, the function does not
    return. *)
Theorem returns_only_with_all_five_labels
        {tk : Toolkit} (cfg : Config) (contours : loc) (h : heap) (items : dict)
        (output_contours : loc) (h' : heap) :
  h !! contours = Some (ODict items) ->
  (forall k l, In (k, l) items -> exists img, h !! l = Some (OImage img)) ->
  generate_left_ventricle_segments cfg contours h = (inr output_contours, h') ->
  In (label_left_ventricle cfg) (map fst items)
  /\ In (label_heart cfg) (map fst items)
  /\ In (label_left_atrium cfg) (map fst items)
  /\ In (label_mitral_valve cfg) (map fst items)
  /\ In (label_right_ventricle cfg) (map fst items).
Proof.
  intros Hc Hitems Hrun.
  destruct (initial_store cfg h contours items Hc Hitems) as (items' & t & Heq & Hcopy).
  rewrite Heq in Hrun. clear Heq.
  pose proof (initial_store_labels h t contours items items' Hc Hcopy) as Hinv.
  set (wc := length (h ++ t)) in *. set (K := map fst items) in *.
  pose proof (closed_labels_kept contours wc K) as Hclosed.
  unfold run_modules in Hrun.
  apply bind_inr in Hrun as (lv0 & h1 & Hlv & Hrun).
  pose proof (dict_get_image_key _ _ _ _ _ K (proj2 Hinv) Hlv) as Hin_lv.
  pose proof (read_only_run _ _ _ _ (read_only_dict_get_image _ _) Hlv) as ->.
  apply bind_inr in Hrun as (heart & h1 & Hheart & Hrun).
  pose proof (dict_get_image_key _ _ _ _ _ K (proj2 Hinv) Hheart) as Hin_heart.
  pose proof (read_only_run _ _ _ _ (read_only_dict_get_image _ _) Hheart) as ->.
  apply bind_inr in Hrun as (heart' & h1 & Hheart' & Hrun).
  pose proof (read_only_run _ _ _ _ (read_only_dict_get_image _ _) Hheart') as ->.
  apply bind_inr in Hrun as ([cb_size cb_index] & h1 & Hroi & Hrun).
  apply lift_inr in Hroi as [_ ->].
  apply bind_inr in Hrun as (u1 & h5 & Hcrop & Hrun).
  pose proof (stable_run _ _ _ _ _ _
                (stable_crop_all _ contours wc _ Hclosed cb_size cb_index) Hinv Hcrop) as Hinv5.
  apply bind_inr in Hrun as (transforms & h6 & Halign & Hrun).
  pose proof (stable_run _ _ _ _ _ _
                (stable_axis_aligner cfg _ contours wc _ Hclosed) Hinv5 Halign) as Hinv6.
  (* the left atrium is read first in the initial alignment *)
  assert (Hin_la : In (label_left_atrium cfg) K).
  { unfold axis_aligner in Halign.
    apply bind_inr in Halign as (t0 & h7 & Hinit & _).
    unfold initial_alignment in Hinit.
    apply bind_inr in Hinit as (lv & h8 & Hlv' & Hinit).
    pose proof (read_only_run _ _ _ _ (read_only_dict_get_image _ _) Hlv') as ->.
    apply bind_inr in Hinit as (la & h8 & Hla & _).
    apply (dict_get_image_key _ _ _ _ _ K (proj2 Hinv5) Hla). }
  apply bind_inr in Hrun as ([label_lv_inner label_lv_myo] & h7 & Hmyo & Hrun).
  pose proof (read_only_run _ _ _ _ (read_only_extract_myocardium _ _ _) Hmyo) as ->.
  apply bind_inr in Hrun as ([inf_limit_lv com_mv] & h7 & Hlim & Hrun).
  pose proof (read_only_run _ _ _ _ (read_only_long_axis_limits _ _ _) Hlim) as ->.
  assert (Hin_mv : In (label_mitral_valve cfg) K).
  { unfold long_axis_limits in Hlim.
    apply bind_inr in Hlim as (region & h8 & Hregion & Hlim).
    apply lift_inr in Hregion as [_ ->].
    apply bind_inr in Hlim as (mv & h8 & Hmv & _).
    apply (dict_get_image_key _ _ _ _ _ K (proj2 Hinv6) Hmv). }
  unfold axial_limits in Hrun. cbv zeta in Hrun.
  apply bind_inr in Hrun as (apex & h3 & Hcut & Hrun).
  pose proof (stable_run _ _ _ _ _ _
                (stable_cut_myocardium _ contours wc _ Hclosed _ _ _ _ _) Hinv6 Hcut) as Hinv3.
  apply bind_inr in Hrun as (theta_0 & h8 & Hbasal & _).
  assert (Hin_rv : In (label_right_ventricle cfg) K).
  { unfold basal_reference_angle in Hbasal.
    apply bind_inr in Hbasal as (rv & h9 & Hrv & _).
    apply (dict_get_image_key _ _ _ _ _ K (proj2 Hinv3) Hrv). }
  repeat split; assumption.
Qed.

Lemma toy_input_returns :
  generate_left_ventricle_segments (tk := grid_toolkit) no_refinement_config 0%nat toy_input =
  (inr 12%nat,
   snd (generate_left_ventricle_segments (tk := grid_toolkit) no_refinement_config
          0%nat toy_input)).
Proof. apply run_fst, generate_left_ventricle_segments_returns. Qed.

Lemma returns_only_with_all_five_labels_witness :
  In (label_left_ventricle no_refinement_config) (map fst toy_items)
  /\ In (label_heart no_refinement_config) (map fst toy_items)
  /\ In (label_left_atrium no_refinement_config) (map fst toy_items)
  /\ In (label_mitral_valve no_refinement_config) (map fst toy_items)
  /\ In (label_right_ventricle no_refinement_config) (map fst toy_items).
Proof.
  apply (returns_only_with_all_five_labels (tk := grid_toolkit) no_refinement_config
           0%nat toy_input toy_items 12%nat _ eq_refl
           (toy_items_are_images toy_input tube tube rv_side tube tube eq_refl)
           toy_input_returns).
Defined.

(** ** The output dictionary *)

Lemma py_range_snoc a b : a <= b -> py_range a (b + 1) = py_range a b ++ [b].
Proof.
  intros H. unfold py_range.
  replace (Z.to_nat (b + 1 - a)) with (S (Z.to_nat (b - a))) by lia.
  rewrite seq_S, map_app. cbn [map]. do 2 f_equal. lia.
Qed.

Lemma dict_update_absent k l items :
  ~ In k (map fst items) -> dict_update k l items = items ++ [(k, l)].
Proof.
  induction items as [|[k' l'] items IH]; cbn [map fst In dict_update app]; [reflexivity|].
  intros Hn. destruct (key_eqb k k') eqn:E.
  - apply key_eqb_eq in E. exfalso. apply Hn. left. symmetry. exact E.
  - f_equal. apply IH. intros Hin. apply Hn. right. exact Hin.
Qed.

Lemma dict_lookup_In k items l : dict_lookup k items = Some l -> In (k, l) items.
Proof.
  induction items as [|[k' l'] items IH]; cbn [dict_lookup In]; [discriminate|].
  destruct (key_eqb k k') eqn:E.
  - intros H. inversion H; subst. apply key_eqb_eq in E. subst. left. reflexivity.
  - intros H. right. apply IH, H.
Qed.

Lemma dict_lookup_of_key k items :
  In k (map fst items) -> exists l, dict_lookup k items = Some l.
Proof.
  induction items as [|[k' l'] items IH]; cbn [map fst In dict_lookup]; [intros []|].
  intros Hin. destruct (key_eqb k k') eqn:E; [eexists; reflexivity|].
  apply IH. destruct Hin as [-> | Hin]; [|exact Hin].
  rewrite key_eqb_refl in E. discriminate.
Qed.

Lemma NoDup_snoc {A} (l : list A) a : List.NoDup l -> ~ In a l -> List.NoDup (l ++ [a]).
Proof.
  induction 1 as [|b l Hb Hl IH]; cbn [app]; intros Ha.
  - constructor; [intros [] | constructor].
  - constructor.
    + rewrite in_app_iff. intros [Hin | [-> | []]]; [apply Hb, Hin | apply Ha; left; reflexivity].
    + apply IH. intros Hin. apply Ha. right. exact Hin.
Qed.

(** The store after [out[k] = img] for a new image: what it leaves alone. *)
Lemma output_write_frame (h : heap) out o x l :
  l <> out -> (l < length h)%nat ->
  (<[out := o]> (h ++ [x])) !! l = h !! l.
Proof.
  intros Hne Hlt. rewrite list_lookup_insert_ne by (intros E; apply Hne; symmetry; exact E).
  apply lookup_app_l. exact Hlt.
Qed.

Lemma seg_store_frame (h h1 : heap) wc out S items_out :
  h !! out = Some (ODict items_out) -> wc <> out ->
  (forall l, l <> out -> (l < length h)%nat -> h1 !! l = h !! l) ->
  seg_store h wc S -> seg_store h1 wc S.
Proof.
  intros Hout Hne Hframe (items & L & Hwc & Hk & Hinj).
  exists items, L. split; [|split; [|exact Hinj]].
  - rewrite Hframe; [exact Hwc | exact Hne | eapply lookup_lt_Some, Hwc].
  - intros k Hr. destruct (Hk k Hr) as [Hl Hi]. split; [exact Hl|].
    rewrite Hframe; [exact Hi | intros E; congruence | eapply lookup_lt_Some, Hi].
Qed.

Lemma dict_get_image_frame (h h1 : heap) d k img out items_out :
  h !! out = Some (ODict items_out) -> d <> out ->
  (forall l, l <> out -> (l < length h)%nat -> h1 !! l = h !! l) ->
  dict_get_image d k h = (inr img, h) -> dict_get_image d k h1 = (inr img, h1).
Proof.
  intros Hout Hne Hframe Hget.
  apply dict_get_image_inr in Hget as (_ & items & l & Hd & Hl & Hi).
  apply (dict_get_image_ok h1 d items k l img).
  - rewrite Hframe; [exact Hd | exact Hne | eapply lookup_lt_Some, Hd].
  - exact Hl.
  - rewrite Hframe; [exact Hi | intros E; congruence | eapply lookup_lt_Some, Hi].
Qed.

Section Reproject.

Context {tk : Toolkit}.
Variable cfg : Config.
Variables contours wc out : loc.
Variable inverse_transform : Transform.
Variables hole_fill_img cb_index : Z3.
Variable S : Z -> Image.
Variable heart : Image.
Variable base : nat.

Hypothesis wc_not_out : wc <> out.
Hypothesis contours_not_out : contours <> out.

(** The loop of Module 5 over the segments [m], ..., 16. *)
Lemma reproject_loop cnt : forall m (h : heap) u h',
  Z.of_nat cnt = 17 - m -> 0 <= m ->
  (base <= length h)%nat ->
  seg_store h wc S ->
  dict_get_image contours (label_heart cfg) h = (inr heart, h) ->
  output_upto m h out
    (fun k => reprojected cfg (S k) heart inverse_transform hole_fill_img cb_index) base ->
  for_each (py_range m 17)
    (reproject_segment cfg contours wc out inverse_transform hole_fill_img cb_index) h =
  (inr u, h') ->
  seg_store h' wc S
  /\ output_upto 17 h' out
       (fun k => reprojected cfg (S k) heart inverse_transform hole_fill_img cb_index) base.
Proof.
  induction cnt as [|cnt IH]; intros m h u h' Hcnt Hm Hbase Hstore Hheart Hout Hrun.
  - assert (m = 17) by lia. subst m. rewrite py_range_empty in Hrun by lia.
    apply ret_inr in Hrun as [_ <-]. split; assumption.
  - rewrite py_range_cons in Hrun by lia. cbn [for_each] in Hrun.
    apply bind_inr in Hrun as ([] & h1 & Hstep & Hrun).
    unfold reproject_segment in Hstep.
    apply bind_inr in Hstep as (seg & h2 & Hseg & Hstep).
    apply dict_get_image_inr in Hseg as (-> & items_wc & l_seg & Hwc & Hlseg & Hiseg).
    assert (Hseg_eq : seg = S (m + 1)).
    { destruct Hstore as (items & L & Hwc' & Hk & _).
      destruct (Hk (m + 1) ltac:(lia)) as [Hl Hi]. congruence. }
    subst seg.
    apply bind_inr in Hstep as (heart' & h2 & Hheart' & Hstep).
    rewrite Hheart in Hheart'. inversion Hheart'; subst heart' h2. clear Hheart'.
    destruct Hout as (items & Hitems & Hkeys & Hnodup & Hentries).
    rewrite (dict_set_new_run h out items _ _ Hitems) in Hstep.
    inversion Hstep; subst h1. clear Hstep.
    fold (reprojected cfg (S (m + 1)) heart inverse_transform hole_fill_img cb_index) in Hrun.
    set (img := reprojected cfg (S (m + 1)) heart inverse_transform hole_fill_img cb_index) in *.
    assert (Habsent : ~ In (KInt (m + 1)) (map fst items)).
    { rewrite Hkeys, in_map_iff. intros (n & Hn & Hin). inversion Hn; subst n.
      apply In_py_range in Hin. lia. }
    rewrite (dict_update_absent _ _ _ Habsent) in Hrun.
    assert (Hlt_out : (out < length h)%nat) by (eapply lookup_lt_Some, Hitems).
    assert (Hframe : forall l, l <> out -> (l < length h)%nat ->
               (<[out := ODict (items ++ [(KInt (m + 1), length h)])]>
                  (h ++ [OImage img])) !! l = h !! l)
      by (intros l Hne Hlt; apply output_write_frame; assumption).
    apply (IH (m + 1)
             (<[out := ODict (items ++ [(KInt (m + 1), length h)])]> (h ++ [OImage img]))
             u h'); try lia; try assumption.
    + rewrite length_insert, length_app. cbn [length]. lia.
    + apply (seg_store_frame h _ wc out S items Hitems wc_not_out Hframe Hstore).
    + apply (dict_get_image_frame h _ contours (label_heart cfg) heart out items
               Hitems contours_not_out Hframe Hheart).
    + exists (items ++ [(KInt (m + 1), length h)]). split; [|split; [|split]].
      * apply list_lookup_insert_eq. rewrite length_app. lia.
      * rewrite map_app, Hkeys. cbn [map fst].
        rewrite (py_range_snoc 1 (m + 1)) by lia. rewrite map_app. reflexivity.
      * rewrite map_app. cbn [map snd].
        apply NoDup_snoc; [exact Hnodup|].
        intros Hl. apply in_map_iff in Hl as ([k l'] & Heq & Hin).
        cbn [snd] in Heq. subst l'.
        destruct (Hentries k _ Hin) as (_ & n & _ & Hi).
        apply lookup_lt_Some in Hi. lia.
      * intros k l Hin. apply in_app_iff in Hin as [Hin | [Heq | []]].
        -- destruct (Hentries k l Hin) as (Hb & n & Hk & Hi).
           split; [exact Hb|]. exists n. split; [exact Hk|].
           rewrite Hframe; [exact Hi | intros E; congruence | eapply lookup_lt_Some, Hi].
        -- inversion Heq; subst k l. split; [exact Hbase|].
           exists (m + 1). split; [reflexivity|].
           rewrite list_lookup_insert_ne by lia.
           apply list_lookup_middle. reflexivity.
Qed.

End Reproject.

Lemma keeps_run (h0 : heap) {A} (m : M A) (Q : A -> Prop) h r h' :
  keeps h0 m Q -> run_inv h0 h -> m h = (r, h') ->
  run_inv h0 h' /\ forall a, r = inr a -> Q a.
Proof.
  intros Hm Hinv Hrun. destruct (Hm h Hinv) as (Hi & _ & HQ).
  rewrite Hrun in Hi, HQ. split; [exact Hi | exact HQ].
Qed.

(** The store in which the modules start, with what it keeps of the store
    of the call. *)
Lemma initial_store_inv {tk : Toolkit} (cfg : Config) (h : heap) contours items :
  h !! contours = Some (ODict items) ->
  (forall k l, In (k, l) items -> exists img, h !! l = Some (OImage img)) ->
  exists items' t,
    generate_left_ventricle_segments cfg contours h =
    run_modules cfg contours (length (h ++ t)) (S (length (h ++ t)))
      (((h ++ t) ++ [ODict items']) ++ [ODict []])
    /\ copy_of h (h ++ t) items items'
    /\ run_inv h (((h ++ t) ++ [ODict items']) ++ [ODict []])
    /\ deepcopy contours h = (inr (length (h ++ t)), (h ++ t) ++ [ODict items'])
    /\ alloc (ODict []) ((h ++ t) ++ [ODict items'])
       = (inr (S (length (h ++ t))), ((h ++ t) ++ [ODict items']) ++ [ODict []]).
Proof.
  intros Hc Hitems.
  destruct (deepcopy_spec h contours items Hc Hitems) as (items' & t & Hrun & Hcopy).
  exists items', t. split; [|split; [exact Hcopy|split; [|split; [exact Hrun|]]]];
    [| |unfold alloc;
        replace (length ((h ++ t) ++ [ODict items'])) with (S (length (h ++ t)))
          by (rewrite (length_app (h ++ t)); cbn [length]; lia);
        reflexivity].
  - unfold generate_left_ventricle_segments. rewrite (bind_ok _ _ _ _ _ Hrun).
    unfold alloc, bind.
    replace (length ((h ++ t) ++ [ODict items'])) with (S (length (h ++ t)))
      by (rewrite (length_app (h ++ t)); cbn [length]; lia).
    reflexivity.
  - destruct (keeps_run h _ _ _ _ _ (keeps_deepcopy h contours) (run_inv_init h) Hrun)
      as [Hinv _].
    assert (Ha : keeps h (alloc (ODict [])) (fresh h))
      by (apply keeps_alloc; intros its H; inversion H; constructor).
    apply (proj1 (keeps_run h _ _ _ _ _ Ha Hinv eq_refl)).
Qed.

(** What a run that returns leaves in the store: the segment images, as
    the slice loops of Module 4 returned them, under the keys 1 to 17 of
    the working dictionary, and in the dictionary returned the seventeen
    images Module 5 makes of them. *)
Lemma generate_output {tk : Toolkit} (cfg : Config) (contours : loc) (h : heap)
      (items : dict) (out : loc) (h' : heap) :
  h !! contours = Some (ODict items) ->
  (forall k l, In (k, l) items -> exists img, h !! l = Some (OImage img)) ->
  generate_left_ventricle_segments cfg contours h = (inr out, h') ->
  exists wc lv heart cb_size cb_index transforms S label_lv_inner label_lv_myo apex
         inf_limit_lv com_mv dc apical_extent mid_extent basal_extent theta_0 theta_0_apical
         (h6 h3 h4 : heap),
    dict_get_image contours (label_heart cfg) h = (inr heart, h)
    /\ run_reaches_module_3 cfg contours h wc out lv heart cb_size cb_index transforms h6
    /\ extract_myocardium cfg wc (mm_to_voxels (myocardium_thickness_mm cfg) lv) h6
       = (inr (label_lv_inner, label_lv_myo), h6)
    /\ long_axis_limits cfg wc label_lv_inner h6 = (inr (inf_limit_lv, com_mv), h6)
    /\ axial_limits inf_limit_lv com_mv = (dc, apical_extent, mid_extent, basal_extent)
    /\ cut_myocardium label_lv_myo inf_limit_lv apical_extent mid_extent basal_extent h6
       = (inr apex, h3)
    /\ basal_reference_angle cfg wc mid_extent h3 = (inr theta_0, h3)
    /\ apical_reference_angle cfg wc inf_limit_lv apical_extent h3
       = (inr theta_0_apical, h3)
    /\ angular_segmenter cfg wc label_lv_myo apex inf_limit_lv apical_extent mid_extent
         basal_extent theta_0 theta_0_apical h3 = (inr tt, h4)
    /\ seg_store h4 wc S
    /\ seg_store h' wc S
    /\ output_upto 17 h' out
         (fun k => reprojected cfg (S k) heart (InverseOfComposite transforms)
                     (mm_to_voxels (hole_fill_mm cfg) heart) cb_index)
         (length h).
Proof.
  intros Hc Hitems Hrun.
  destruct (initial_store_inv cfg h contours items Hc Hitems)
    as (items' & t & Heq & Hcopy & Hinv & Hdeep & Halloc).
  rewrite Heq in Hrun. clear Heq.
  assert (Hlen_wc : (length h <= length (h ++ t))%nat) by (rewrite length_app; lia).
  assert (Hwc : (((h ++ t) ++ [ODict items']) ++ [ODict []]) !! length (h ++ t)
                = Some (ODict items'))
    by (apply lookup_app_l_Some, list_lookup_middle; reflexivity).
  assert (Hout2 : (((h ++ t) ++ [ODict items']) ++ [ODict []]) !! S (length (h ++ t))
                  = Some (ODict [])).
  { apply list_lookup_middle. rewrite (length_app (h ++ t)). cbn [length]. lia. }
  set (wc := length (h ++ t)) in *.
  set (out0 := S wc) in *.
  set (h2 := ((h ++ t) ++ [ODict items']) ++ [ODict []]) in *.
  assert (Hfresh_wc : fresh h wc) by (apply lookup_ge_None; exact Hlen_wc).
  assert (Hfresh_out : fresh h out0) by (apply lookup_ge_None; unfold out0; lia).
  assert (Hc_lt : (contours < length h)%nat) by (eapply lookup_lt_Some, Hc).
  assert (Hwc_out : wc <> out0) by (unfold out0; lia).
  assert (Hc_out : contours <> out0) by (unfold out0; lia).
  pose proof (closed_out_empty contours wc out0 Hwc_out) as Hclosed.
  unfold run_modules in Hrun.
  (* the conversions and the crop box *)
  apply bind_inr in Hrun as (lv0 & h1 & Hlv & Hrun).
  pose proof (read_only_run _ _ _ _ (read_only_dict_get_image _ _) Hlv) as ->.
  apply bind_inr in Hrun as (heart & h1 & Hheart & Hrun).
  pose proof (read_only_run _ _ _ _ (read_only_dict_get_image _ _) Hheart) as ->.
  apply bind_inr in Hrun as (heart' & h1 & Hheart' & Hrun).
  rewrite Hheart in Hheart'. inversion Hheart'; subst heart' h1. clear Hheart'.
  apply bind_inr in Hrun as ([cb_size cb_index] & h1 & Hroi & Hrun).
  apply lift_inr in Hroi as [Hroi ->].
  (* the whole-heart mask of the working copy is that of the input *)
  assert (Hheart0 : exists l, dict_lookup (label_heart cfg) items = Some l
                              /\ h !! l = Some (OImage heart)).
  { apply dict_get_image_inr in Hheart as (_ & items_w & l' & Hwc' & Hl' & Hi').
    assert (items_w = items') by congruence. subst items_w.
    pose proof (copy_of_lookup _ _ _ _ (label_heart cfg) Hcopy) as Hlk.
    destruct (dict_lookup (label_heart cfg) items) as [l|]; [|congruence].
    destruct Hlk as (l'' & img & Hl'' & Himg & Himg').
    exists l. split; [reflexivity|].
    assert (l'' = l') by congruence. subst l''.
    assert (Hi2 : h2 !! l' = Some (OImage img))
      by (do 2 apply lookup_app_l_Some; exact Himg').
    congruence. }
  destruct Hheart0 as (l_heart & Hl_heart & Hi_heart).
  (* Modules 1 to 3 *)
  apply bind_inr in Hrun as (u1 & h5 & Hcrop & Hrun).
  destruct (keeps_run h _ _ _ _ _ (keeps_crop_all h contours wc cb_size cb_index Hfresh_wc)
              Hinv Hcrop) as [Hinv5 _].
  pose proof (stable_run _ _ _ _ _ _
                (stable_crop_all _ contours wc _ Hclosed cb_size cb_index) Hout2 Hcrop)
    as Hout5.
  apply bind_inr in Hrun as (transforms & h6 & Halign & Hrun).
  destruct (keeps_run h _ _ _ _ _ (keeps_axis_aligner h cfg contours wc Hfresh_wc)
              Hinv5 Halign) as [Hinv6 _].
  pose proof (stable_run _ _ _ _ _ _
                (stable_axis_aligner cfg _ contours wc _ Hclosed) Hout5 Halign) as Hout6.
  apply bind_inr in Hrun as ([label_lv_inner label_lv_myo] & h7 & Hmyo & Hrun).
  pose proof (read_only_run _ _ _ _ (read_only_extract_myocardium _ _ _) Hmyo) as ->.
  apply bind_inr in Hrun as ([inf_limit_lv com_mv] & h7 & Hlim & Hrun).
  pose proof (read_only_run _ _ _ _ (read_only_long_axis_limits _ _ _) Hlim) as ->.
  assert (Hinf : 0 <= inf_limit_lv).
  { unfold long_axis_limits in Hlim.
    apply bind_inr in Hlim as (region & h8 & Hregion & Hlim).
    apply lift_inr in Hregion as [_ ->].
    apply bind_inr in Hlim as (mv & h8 & Hmv & Hlim).
    pose proof (read_only_run _ _ _ _ (read_only_dict_get_image _ _) Hmv) as ->.
    apply bind_inr in Hlim as (com & h8 & Hcom & Hlim).
    apply lift_inr in Hcom as [_ ->].
    apply ret_inr in Hlim as [Hlim _]. injection Hlim as <- _. lia. }
  unfold axial_limits in Hrun. cbv zeta in Hrun.
  apply bind_inr in Hrun as (apex & h3 & Hcut & Hrun).
  destruct (keeps_run h _ _ _ _ _ (keeps_cut_myocardium h _ _ _ _ _) Hinv6 Hcut)
    as [Hinv3 Hq_apex].
  pose proof (stable_run _ _ _ _ _ _
                (stable_cut_myocardium _ contours wc _ Hclosed _ _ _ _ _) Hout6 Hcut)
    as Hout3.
  destruct (cut_myocardium_apex label_lv_myo inf_limit_lv
              (inf_limit_lv + int_div3 (com_mv - inf_limit_lv))
              (inf_limit_lv + 2 * int_div3 (com_mv - inf_limit_lv)) com_mv h6)
    as (h3' & Hcut' & Hapex).
  rewrite Hcut in Hcut'. injection Hcut' as Hapexloc Hh3. subst h3'.
  rewrite <- Hapexloc in Hapex.
  (* Module 4 *)
  apply bind_inr in Hrun as (theta_0 & h8 & Hbasal & Hrun).
  pose proof (read_only_run _ _ _ _ (read_only_basal_reference_angle _ _ _) Hbasal) as ->.
  apply bind_inr in Hrun as (theta_0_apical & h8 & Hapical & Hrun).
  pose proof (read_only_run _ _ _ _ (read_only_apical_reference_angle _ _ _ _) Hapical) as ->.
  pose proof (apical_reference_angle_needs_slices _ _ _ _ _ _ _ Hapical) as Hslices.
  apply bind_inr in Hrun as ([] & h4 & Hseg & Hrun).
  destruct (keeps_run h _ _ _ _ _
              (keeps_angular_segmenter h cfg wc label_lv_myo apex _ _ _ _ theta_0
                 theta_0_apical Hfresh_wc (Hq_apex apex eq_refl)) Hinv3 Hseg) as [Hinv4 _].
  pose proof (stable_run _ _ _ _ _ _
                (stable_angular_segmenter cfg _ contours wc _ Hclosed label_lv_myo apex
                   _ _ _ _ theta_0 theta_0_apical (fun _ => I)) Hout3 Hseg) as Hout4.
  assert (Hap : 0 <= inf_limit_lv + int_div3 (com_mv - inf_limit_lv)) by lia.
  assert (Hmid : 0 <= inf_limit_lv + 2 * int_div3 (com_mv - inf_limit_lv)) by lia.
  destruct (angular_segmenter_spec cfg wc label_lv_myo apex _ _ _ _ _ theta_0 theta_0_apical
              h3 tt h4 Hinf Hap Hmid Hapex Hseg)
    as (S & heart_w & Hstore & _).
  (* Module 5 *)
  apply bind_inr in Hrun as (u5 & h9 & Hloop & Hrun).
  apply ret_inr in Hrun as [Hout_eq Hh']. subst h9. subst out.
  assert (Hheart4 : dict_get_image contours (label_heart cfg) h4 = (inr heart, h4)).
  { apply (dict_get_image_ok h4 contours items (label_heart cfg) l_heart heart).
    - apply (proj1 Hinv4), Hc.
    - exact Hl_heart.
    - apply (proj1 Hinv4), Hi_heart. }
  destruct (reproject_loop cfg contours wc out0 (InverseOfComposite transforms)
              (mm_to_voxels (hole_fill_mm cfg) heart) cb_index S heart (length h)
              Hwc_out Hc_out 17%nat 0 h4 u5 h') as [Hstore' Houtput]; try lia; try assumption.
  - apply preserved_length, (proj1 Hinv4).
  - exists []. split; [exact Hout4|]. split; [reflexivity|]. split; [constructor|].
    intros k l [].
  - exists wc, lv0, heart, cb_size, cb_index, transforms, S, label_lv_inner, label_lv_myo,
      apex, inf_limit_lv, com_mv, (int_div3 (com_mv - inf_limit_lv)),
      (inf_limit_lv + int_div3 (com_mv - inf_limit_lv)),
      (inf_limit_lv + 2 * int_div3 (com_mv - inf_limit_lv)), com_mv,
      theta_0, theta_0_apical, h6, h3, h4.
    split.
    { apply (dict_get_image_ok h contours items (label_heart cfg) l_heart heart);
        assumption. }
    split.
    { exists ((h ++ t) ++ [ODict items']), h2, h5. destruct u1.
      repeat (split; [assumption|]). exact Halign. }
    split; [exact Hmyo|]. split; [exact Hlim|]. split; [reflexivity|].
    split; [exact Hcut|]. split; [exact Hbasal|]. split; [exact Hapical|].
    split; [exact Hseg|]. split; [exact Hstore|]. split; assumption.
Qed.

(** X12 (lines 96 and 441-462): the dictionary a run returns holds exactly
    the keys 1 to 17, in that order, and under each key an image object of
    its own that the run created: no two keys share an object, and none is
    an object of the store of the call. *)
Theorem output_has_the_keys_1_to_17
        {tk : Toolkit} (cfg : Config) (contours : loc) (h : heap) (items : dict)
        (output_contours : loc) (h' : heap) :
  h !! contours = Some (ODict items) ->
  (forall k l, In (k, l) items -> exists img, h !! l = Some (OImage img)) ->
  generate_left_ventricle_segments cfg contours h = (inr output_contours, h') ->
  exists output_items,
    h' !! output_contours = Some (ODict output_items)
    /\ map fst output_items = map KInt (py_range 1 18)
    /\ List.NoDup (map snd output_items)
    /\ forall k l, In (k, l) output_items ->
         h !! l = None /\ exists img, h' !! l = Some (OImage img).
Proof.
  intros Hc Hitems Hrun.
  destruct (generate_output cfg contours h items output_contours h' Hc Hitems Hrun)
    as (wc & lv & heart & cb_size & cb_index & transforms & S & label_lv_inner
        & label_lv_myo & apex & inf_limit_lv & com_mv & dc & apical_extent & mid_extent
        & basal_extent & theta_0 & theta_0_apical & h6 & h3 & h4
        & _ & _ & _ & _ & _ & _ & _ & _ & _ & _ & _
        & output_items & Hout & Hkeys & Hnodup & Hentries).
  exists output_items. split; [exact Hout|]. split; [exact Hkeys|]. split; [exact Hnodup|].
  intros k l Hin. destruct (Hentries k l Hin) as (Hbase & n & _ & Hi).
  split; [apply lookup_ge_None; exact Hbase | eexists; exact Hi].
Qed.

Lemma output_has_the_keys_1_to_17_witness :
  exists output_items,
    snd (generate_left_ventricle_segments (tk := grid_toolkit) no_refinement_config
           0%nat toy_input) !! 12%nat = Some (ODict output_items)
    /\ map fst output_items = map KInt (py_range 1 18)
    /\ List.NoDup (map snd output_items).
Proof.
  destruct (output_has_the_keys_1_to_17 (tk := grid_toolkit) no_refinement_config
              0%nat toy_input toy_items 12%nat _ eq_refl
              (toy_items_are_images toy_input tube tube rv_side tube tube eq_refl)
              toy_input_returns)
    as (output_items & Hout & Hkeys & Hnodup & _).
  exists output_items. repeat split; assumption.
Defined.

(** X13 (lines 95-118, 120-215, 224-266, 320-429 and 436-460): on a run that
    returns, [overall_transform_list] is the list the axis aligner returned
    on the cropped working copy, and the limits, the reference angles and
    the segment images are those Modules 3 and 4 computed after it.  What
    the run returns under the key [k] is made of the segment image [k] as
    the slice loops returned it, which the working dictionary still holds
    at the end: resampled with the inverse of the composite of that
    transform list, the same for all seventeen, closed with the radius
    [int(hole_fill_mm / spacing)] only when [hole_fill_mm > 0], and pasted
    at the index of the crop box into a zero copy of the whole-heart mask of
    the input. *)
Theorem output_segments_are_reprojected
        {tk : Toolkit} (cfg : Config) (contours : loc) (h : heap) (items : dict)
        (output_contours : loc) (h' : heap) :
  h !! contours = Some (ODict items) ->
  (forall k l, In (k, l) items -> exists img, h !! l = Some (OImage img)) ->
  generate_left_ventricle_segments cfg contours h = (inr output_contours, h') ->
  exists working_contours lv heart cb_size cb_index overall_transform_list S output_items
         label_lv_inner label_lv_myo label_lv_myo_apex
         inf_limit_lv com_mv dc apical_extent mid_extent basal_extent
         theta_0 theta_0_apical (h0 h2 h5 h6 h3 h4 : heap),
    (* the whole-heart mask of the input and the crop box *)
    dict_get_image contours (label_heart cfg) h = (inr heart, h)
    /\ label_to_roi (img_gt0 heart) (30, 30, 60)%R = inr (cb_size, cb_index)
    (* the working copy, cropped, and the transform list of the axis aligner *)
    /\ deepcopy contours h = (inr working_contours, h0)
    /\ alloc (ODict []) h0 = (inr output_contours, h2)
    /\ dict_get_image working_contours (label_left_ventricle cfg) h2 = (inr lv, h2)
    /\ dict_get_image working_contours (label_heart cfg) h2 = (inr heart, h2)
    /\ crop_all contours working_contours cb_size cb_index h2 = (inr tt, h5)
    /\ axis_aligner cfg contours working_contours h5 = (inr overall_transform_list, h6)
    (* the myocardium, the limits and the reference angles *)
    /\ extract_myocardium cfg working_contours
         (mm_to_voxels (myocardium_thickness_mm cfg) lv) h6
       = (inr (label_lv_inner, label_lv_myo), h6)
    /\ long_axis_limits cfg working_contours label_lv_inner h6
       = (inr (inf_limit_lv, com_mv), h6)
    /\ axial_limits inf_limit_lv com_mv = (dc, apical_extent, mid_extent, basal_extent)
    /\ cut_myocardium label_lv_myo inf_limit_lv apical_extent mid_extent basal_extent h6
       = (inr label_lv_myo_apex, h3)
    /\ basal_reference_angle cfg working_contours mid_extent h3 = (inr theta_0, h3)
    /\ apical_reference_angle cfg working_contours inf_limit_lv apical_extent h3
       = (inr theta_0_apical, h3)
    (* the segment images the slice loops returned *)
    /\ angular_segmenter cfg working_contours label_lv_myo label_lv_myo_apex
         inf_limit_lv apical_extent mid_extent basal_extent theta_0 theta_0_apical h3
       = (inr tt, h4)
    /\ seg_store h4 working_contours S
    /\ seg_store h' working_contours S
    (* what is returned *)
    /\ h' !! output_contours = Some (ODict output_items)
    /\ forall k, 1 <= k <= 17 ->
         exists l,
           dict_lookup (KInt k) output_items = Some l
           /\ h' !! l =
              Some (OImage (reprojected cfg (S k) heart
                              (GetInverse (CompositeTransform overall_transform_list))
                              (mm_to_voxels (hole_fill_mm cfg) heart) cb_index)).
Proof.
  intros Hc Hitems Hrun.
  destruct (generate_output cfg contours h items output_contours h' Hc Hitems Hrun)
    as (wc & lv & heart & cb_size & cb_index & transforms & S & label_lv_inner
        & label_lv_myo & apex & inf_limit_lv & com_mv & dc & apical_extent & mid_extent
        & basal_extent & theta_0 & theta_0_apical & h6 & h3 & h4
        & Hheart & Hreach & Hmyo & Hlim & Haxial & Hcut & Hbasal & Hapical & Hseg
        & Hstore4 & Hstore & output_items & Hout & Hkeys & Hnodup & Hentries).
  destruct Hreach as (h0 & h2 & h5 & Hcopy & Halloc & Hlv & Hheart2 & Hroi & Hcrop & Halign).
  exists wc, lv, heart, cb_size, cb_index, transforms, S, output_items,
    label_lv_inner, label_lv_myo, apex, inf_limit_lv, com_mv, dc, apical_extent,
    mid_extent, basal_extent, theta_0, theta_0_apical, h0, h2, h5, h6, h3, h4.
  repeat (split; [assumption|]).
  intros k Hk.
  assert (Hin : In (KInt k) (map fst output_items)).
  { rewrite Hkeys. apply in_map. apply In_py_range. lia. }
  destruct (dict_lookup_of_key _ _ Hin) as [l Hl].
  exists l. split; [exact Hl|].
  destruct (Hentries _ _ (dict_lookup_In _ _ _ Hl)) as (_ & n & Hn & Hi).
  inversion Hn; subst n. exact Hi.
Qed.

Lemma output_segments_are_reprojected_witness :
  exists working_contours overall_transform_list S output_items (h5 h6 : heap),
    axis_aligner (tk := grid_toolkit) no_refinement_config 0%nat working_contours h5
    = (inr overall_transform_list, h6)
    /\ seg_store (snd (generate_left_ventricle_segments (tk := grid_toolkit)
                      no_refinement_config 0%nat toy_input)) working_contours S
    /\ snd (generate_left_ventricle_segments (tk := grid_toolkit) no_refinement_config
              0%nat toy_input) !! 12%nat = Some (ODict output_items)
    /\ exists l, dict_lookup (KInt 17) output_items = Some l.
Proof.
  destruct (output_segments_are_reprojected (tk := grid_toolkit) no_refinement_config
              0%nat toy_input toy_items 12%nat _ eq_refl
              (toy_items_are_images toy_input tube tube rv_side tube tube eq_refl)
              toy_input_returns)
    as (wc & lv & heart & cb_size & cb_index & transforms & S & output_items
        & label_lv_inner & label_lv_myo & apex & inf_limit_lv & com_mv & dc
        & apical_extent & mid_extent & basal_extent & theta_0 & theta_0_apical
        & h0 & h2 & h5 & h6 & h3 & h4
        & _ & _ & _ & _ & _ & _ & _ & Halign & _ & _ & _ & _ & _ & _ & _ & _
        & Hstore & Hout & Hk).
  exists wc, transforms, S, output_items, h5, h6.
  split; [exact Halign|]. split; [exact Hstore|]. split; [exact Hout|].
  destruct (Hk 17 ltac:(lia)) as (l & Hl & _). exists l. exact Hl.
Defined.

(** ** The apex of an iteration *)

Lemma Zmin_list_spec l : forall a,
  In (Zmin_list a l) (a :: l) /\ forall b, In b (a :: l) -> Zmin_list a l <= b.
Proof.
  induction l as [|c l IH]; intros a; cbn [Zmin_list].
  - split; [left; reflexivity|]. intros b [<- | []]. lia.
  - destruct (IH (Z.min a c)) as [Hin Hle]. split.
    + destruct Hin as [Hin | Hin]; [|right; right; exact Hin].
      rewrite <- Hin. destruct (Z.min_spec a c) as [[_ ->] | [_ ->]];
        [left | right; left]; reflexivity.
    + intros b [<- | [<- | Hb]].
      * etransitivity; [apply Hle; left; reflexivity | apply Z.le_min_l].
      * etransitivity; [apply Hle; left; reflexivity | apply Z.le_min_r].
      * apply Hle. right. exact Hb.
Qed.

Lemma array_min_Z_spec l m :
  array_min_Z l = inr m -> In m l /\ forall b, In b l -> m <= b.
Proof.
  destruct l as [|a l]; cbn [array_min_Z]; [discriminate|].
  intros H. inversion H; subst. apply Zmin_list_spec.
Qed.

(** X14 (lines 168-195): the apex of an iteration of the loop lies on the
    lowest slice that holds a voxel of the left ventricle: no voxel of the
    mask is below [lv_apex_z], the voxels of the mask on that slice, over
    which the means are taken, are at least one, and the rotation is centred
    half way between the centre of the mitral valve and the physical point
    of the apex, about the cross product of the axis between them and z. *)
Theorem refinement_apex_is_on_the_lowest_slice
        {tk : Toolkit} (cfg : Config) (contours wc : loc) (h : heap)
        (rotation_transform : VersorRigid3DTransform) (h' : heap) :
  refine_once cfg contours wc h = (inr rotation_transform, h') ->
  exists lv mv mv_com lv_apex_z at_apex lv_apex_loc_img,
    dict_get_image wc (label_left_ventricle cfg) h = (inr lv, h)
    /\ dict_get_image wc (label_mitral_valve cfg) h = (inr mv, h)
    /\ get_com_real mv = inr mv_com
    /\ (forall z y x, In (z, y, x) (np_where3 lv) -> lv_apex_z <= z)
    /\ at_apex = List.filter (fun p => fst (fst p) =? lv_apex_z) (np_where3 lv)
    /\ at_apex <> []
    /\ lv_apex_loc_img =
       TransformContinuousIndexToPhysicalPoint lv
         (np_mean (map (fun p => IZR (snd p)) at_apex),
          np_mean (map (fun p => IZR (snd (fst p))) at_apex),
          IZR lv_apex_z)
    /\ v_centre rotation_transform = scale3 (1 / 2) (add3 mv_com lv_apex_loc_img)
    /\ v_axis rotation_transform = cross (sub3 lv_apex_loc_img mv_com) unit_z
    /\ v_angle rotation_transform = vector_angle (sub3 lv_apex_loc_img mv_com) unit_z.
Proof.
  intros Hrun. unfold refine_once in Hrun.
  apply bind_inr in Hrun as (lv & h1 & Hlv & Hrun).
  pose proof (read_only_run _ _ _ _ (read_only_dict_get_image _ _) Hlv) as ->.
  apply bind_inr in Hrun as (lv_apex_z & h1 & Hmin & Hrun).
  apply lift_inr in Hmin as [Hmin ->].
  apply bind_inr in Hrun as (mv & h1 & Hmv & Hrun).
  pose proof (read_only_run _ _ _ _ (read_only_dict_get_image _ _) Hmv) as ->.
  apply bind_inr in Hrun as (mv_com & h1 & Hcom & Hrun).
  apply lift_inr in Hcom as [Hcom ->].
  apply bind_inr in Hrun as (lv' & h1 & Hlv' & Hrun).
  rewrite Hlv in Hlv'. inversion Hlv'; subst lv' h1. clear Hlv'.
  apply bind_inr in Hrun as (u & h1 & _ & Hrun).
  apply ret_inr in Hrun as [<- _].
  destruct (array_min_Z_spec _ _ Hmin) as [Hin Hle].
  apply in_map_iff in Hin as ([[z0 y0] x0] & Hz0 & Hin0). cbn [fst] in Hz0.
  eexists lv, mv, mv_com, lv_apex_z, _, _.
  split; [exact Hlv|]. split; [exact Hmv|]. split; [exact Hcom|].
  split; [|split; [reflexivity|split; [|split; [reflexivity|repeat split]]]].
  - intros z y x Hzyx. apply Hle. apply in_map_iff. exists (z, y, x). split; [reflexivity|exact Hzyx].
  - intros Hempty.
    assert (Hf : In (z0, y0, x0)
                    (List.filter (fun p : Z * Z * Z => fst (fst p) =? lv_apex_z) (np_where3 lv))).
    { apply filter_In. split; [exact Hin0|]. cbn [fst]. apply Z.eqb_eq. exact Hz0. }
    rewrite Hempty in Hf. exact Hf.
Qed.

Lemma refine_once_toy :
  exists t, fst (refine_once (tk := grid_toolkit) toy_config 0%nat 0%nat (toy_store rv_side))
            = inr t.
Proof. eexists. reflexivity. Qed.

Lemma refinement_apex_is_on_the_lowest_slice_witness :
  exists lv lv_apex_z,
    dict_get_image 0%nat (label_left_ventricle toy_config) (toy_store rv_side) =
    (inr lv, toy_store rv_side)
    /\ (forall z y x, In (z, y, x) (np_where3 lv) -> lv_apex_z <= z)
    /\ List.filter (fun p : Z * Z * Z => fst (fst p) =? lv_apex_z) (np_where3 lv) <> [].
Proof.
  destruct (refinement_apex_is_on_the_lowest_slice (tk := grid_toolkit) toy_config
              0%nat 0%nat (toy_store rv_side) _ _
              (run_result _ _ (mkVersor (0, 0, 0) (0, 0, 0) 0)%R refine_once_toy))
    as (lv & mv & mv_com & lv_apex_z & at_apex & p & Hlv & _ & _ & Hlow & Hat & Hne & _).
  exists lv, lv_apex_z. split; [exact Hlv|]. split; [exact Hlow|].
  rewrite <- Hat. exact Hne.
Defined.

(** ** The five basal slices *)

Lemma collect_first_failure {A B} (body : A -> M B) (h : heap) e :
  forall (l : list A) (k : nat) a,
    nth_error l k = Some a ->
    (forall j x, (j < k)%nat -> nth_error l j = Some x -> exists b, body x h = (inr b, h)) ->
    body a h = (inl e, h) ->
    collect l body h = (inl e, h).
Proof.
  induction l as [|x l IH]; intros k a Hk Hbefore Hfail; [destruct k; discriminate|].
  cbn [collect]. destruct k as [|k].
  - cbn in Hk. inversion Hk; subst x. rewrite (bind_err _ _ _ _ _ Hfail). reflexivity.
  - assert (H0 : (0 < S k)%nat) by lia.
    destruct (Hbefore 0%nat x H0 eq_refl) as [b Hb].
    rewrite (bind_ok _ _ _ _ _ Hb).
    assert (Hrest : collect l body h = (inl e, h)).
    { apply (IH k a Hk); [|exact Hfail].
      intros j y Hj Hy. apply (Hbefore (S j) y); [lia | exact Hy]. }
    rewrite (bind_err _ _ _ _ _ Hrest). reflexivity.
Qed.

Lemma nth_error_py_range a b (k : nat) :
  Z.of_nat k < b - a -> nth_error (py_range a b) k = Some (a + Z.of_nat k).
Proof.
  intros Hk. unfold py_range. rewrite nth_error_map.
  rewrite nth_error_seq. destruct (Nat.ltb_spec k (Z.to_nat (b - a))); [reflexivity | lia].
Qed.

Lemma nth_error_py_range_inv a b (j : nat) x :
  nth_error (py_range a b) j = Some x -> x = a + Z.of_nat j.
Proof.
  intros H. assert (Hlt : (j < length (py_range a b))%nat)
    by (apply nth_error_Some; congruence).
  unfold py_range in Hlt. rewrite length_map, length_seq in Hlt.
  rewrite nth_error_py_range in H by lia. congruence.
Qed.

Section BasalSlices.

Context {tk : Toolkit}.
Variable cfg : Config.

(** The first of the five slices on which a pass of the loop raises decides
    what the computation of [theta_0] raises. *)
Lemma basal_reference_angle_first_failure wc mid_extent (h : heap) rv (k : nat) e :
  (k < 5)%nat ->
  dict_get_image wc (label_right_ventricle cfg) h = (inr rv, h) ->
  (forall j, (j < k)%nat ->
     exists m, rv_insertion_angle cfg wc (np_where3 rv) (mid_extent + Z.of_nat j) h
               = (inr m, h)) ->
  rv_insertion_angle cfg wc (np_where3 rv) (mid_extent + Z.of_nat k) h = (inl e, h) ->
  basal_reference_angle cfg wc mid_extent h = (inl e, h).
Proof.
  intros Hk Hrv Hbefore Hfail. unfold basal_reference_angle.
  rewrite (bind_ok _ _ _ _ _ Hrv).
  assert (Hnth : nth_error (py_range mid_extent (mid_extent + 5)) k
                 = Some (mid_extent + Z.of_nat k)) by (apply nth_error_py_range; lia).
  assert (Hcol : collect (py_range mid_extent (mid_extent + 5))
                   (rv_insertion_angle cfg wc (np_where3 rv)) h = (inl e, h)).
  { apply (collect_first_failure _ h e _ k (mid_extent + Z.of_nat k) Hnth); [|exact Hfail].
    intros j x Hj Hx. apply nth_error_py_range_inv in Hx. subst x. apply Hbefore, Hj. }
  rewrite (bind_err _ _ _ _ _ Hcol). reflexivity.
Qed.

(** X15 (lines 283-302): [theta_0] needs a voxel of the right ventricle on
    each of the five slices from [mid_extent] on: on the first of them that
    has none, where the left ventricle has a centre, the array of angles is
    empty and [theta_rv.min()] raises [ValueError]. *)
Theorem basal_slice_without_right_ventricle_raises
        (wc : loc) (mid_extent : Z) (h : heap) (rv lv : Image) (k : nat)
        (lv_slice : Slice) (lv_com : R * R) :
  (k < 5)%nat ->
  dict_get_image wc (label_right_ventricle cfg) h = (inr rv, h) ->
  dict_get_image wc (label_left_ventricle cfg) h = (inr lv, h) ->
  (forall j, (j < k)%nat ->
     exists m, rv_insertion_angle cfg wc (np_where3 rv) (mid_extent + Z.of_nat j) h
               = (inr m, h)) ->
  slice_of lv (mid_extent + Z.of_nat k) = inr lv_slice ->
  get_com_slice lv_slice = inr lv_com ->
  (forall y x, ~ In (mid_extent + Z.of_nat k, y, x) (np_where3 rv)) ->
  basal_reference_angle cfg wc mid_extent h = (inl ValueError, h).
Proof.
  intros Hk Hrv Hlv Hbefore Hsl Hcom Hnone.
  apply (basal_reference_angle_first_failure wc mid_extent h rv k ValueError Hk Hrv Hbefore).
  unfold rv_insertion_angle. rewrite (bind_ok _ _ _ _ _ Hlv).
  rewrite Hsl. cbn [lift]. unfold bind at 1. cbn [ret].
  rewrite Hcom. cbn [lift]. unfold bind at 1. cbn [ret].
  assert (Hempty : rv_angles lv_com (np_where3 rv) (mid_extent + Z.of_nat k) = []).
  { destruct (rv_angles lv_com (np_where3 rv) (mid_extent + Z.of_nat k)) as [|a l] eqn:E;
      [reflexivity|].
    assert (Hin : In a (rv_angles lv_com (np_where3 rv) (mid_extent + Z.of_nat k)))
      by (rewrite E; left; reflexivity).
    apply In_rv_angles in Hin as (y & x & Hin & _). exfalso. exact (Hnone y x Hin). }
  rewrite Hempty. reflexivity.
Qed.

(** X16 (lines 286-295): the five slices are read from [mid_extent] on
    whatever the extent of the image: the first of them that lies beyond the
    last slice of the left-ventricle mask raises [IndexError]. *)
Theorem basal_slice_beyond_the_image_raises
        (wc : loc) (mid_extent : Z) (h : heap) (rv lv : Image) (k : nat) :
  (k < 5)%nat ->
  dict_get_image wc (label_right_ventricle cfg) h = (inr rv, h) ->
  dict_get_image wc (label_left_ventricle cfg) h = (inr lv, h) ->
  (forall j, (j < k)%nat ->
     exists m, rv_insertion_angle cfg wc (np_where3 rv) (mid_extent + Z.of_nat j) h
               = (inr m, h)) ->
  0 <= mid_extent ->
  size_z lv <= mid_extent + Z.of_nat k ->
  basal_reference_angle cfg wc mid_extent h = (inl IndexError, h).
Proof.
  intros Hk Hrv Hlv Hbefore Hmid Hbeyond.
  apply (basal_reference_angle_first_failure wc mid_extent h rv k IndexError Hk Hrv Hbefore).
  unfold rv_insertion_angle. rewrite (bind_ok _ _ _ _ _ Hlv).
  unfold slice_of, py_index.
  replace (mid_extent + Z.of_nat k <? size_z lv) with false by (symmetry; apply Z.ltb_ge; lia).
  replace (mid_extent + Z.of_nat k <? 0) with false by (symmetry; apply Z.ltb_ge; lia).
  rewrite !andb_false_r. reflexivity.
Qed.

End BasalSlices.

Lemma basal_slice_without_right_ventricle_raises_witness :
  basal_reference_angle (tk := grid_toolkit) toy_config 0%nat 4
    (toy_store (img_scale 0 tube)) =
  (inl ValueError, toy_store (img_scale 0 tube)).
Proof.
  apply (basal_slice_without_right_ventricle_raises (tk := grid_toolkit) toy_config 0%nat 4
           (toy_store (img_scale 0 tube)) (img_scale 0 tube) tube 0%nat
           (tube_slice 4) (2, 2)%R).
  - lia.
  - reflexivity.
  - reflexivity.
  - intros j Hj. lia.
  - apply slice_of_tube. lia.
  - apply (centroid_tube 4). lia.
  - intros y x Hin. vm_compute in Hin. exact Hin.
Defined.

Lemma basal_slice_beyond_the_image_raises_witness :
  basal_reference_angle (tk := grid_toolkit) toy_config 0%nat 12 (toy_store rv_side) =
  (inl IndexError, toy_store rv_side).
Proof.
  apply (basal_slice_beyond_the_image_raises (tk := grid_toolkit) toy_config 0%nat 12
           (toy_store rv_side) rv_side tube 0%nat).
  - lia.
  - reflexivity.
  - reflexivity.
  - intros j Hj. lia.
  - lia.
  - cbn. lia.
Defined.

(** ** The crop box of the cardiac segmentation *)

Lemma py_int_le_of_le r (n : Z) : (0 <= r)%R -> (r <= IZR n)%R -> py_int r <= n.
Proof.
  intros H0 Hn. destruct (py_int_floor r H0) as [Hlo _].
  apply le_IZR. lra.
Qed.

Lemma crop_box_axis_within (bb_index bb_size : Z) (expansion spacing : R) (img_size : Z) :
  0 <= bb_index -> 0 <= bb_size -> bb_index + bb_size <= img_size ->
  (0 <= expansion * spacing)%R ->
  0 <= fst (CardiacRun.crop_box_axis bb_index bb_size expansion spacing img_size) <= bb_index
  /\ 0 <= snd (CardiacRun.crop_box_axis bb_index bb_size expansion spacing img_size)
  /\ fst (CardiacRun.crop_box_axis bb_index bb_size expansion spacing img_size)
     + snd (CardiacRun.crop_box_axis bb_index bb_size expansion spacing img_size)
     <= img_size.
Proof.
  intros Hi Hs Hin He. unfold CardiacRun.crop_box_axis. cbv zeta. cbn [fst snd].
  set (e := (expansion * spacing)%R) in *.
  set (idx := Rmax (IZR bb_index - e) 0).
  set (sz := Rmin (IZR img_size - idx) (IZR bb_size + 2 * e)).
  assert (Hbi : (0 <= IZR bb_index)%R) by (apply IZR_le; exact Hi).
  assert (Hbs : (0 <= IZR bb_size)%R) by (apply IZR_le; exact Hs).
  assert (Hsum : (IZR bb_index + IZR bb_size <= IZR img_size)%R)
    by (rewrite <- plus_IZR; apply IZR_le; exact Hin).
  assert (Hidx : (0 <= idx <= IZR bb_index)%R).
  { unfold idx. split; [apply Rmax_r|]. apply Rmax_lub; lra. }
  assert (Hsz : (0 <= sz)%R).
  { unfold sz. apply Rmin_glb; lra. }
  assert (Hsz2 : (sz <= IZR img_size - idx)%R) by (unfold sz; apply Rmin_l).
  destruct (py_int_floor idx (proj1 Hidx)) as [Hfi _].
  destruct (py_int_floor sz Hsz) as [Hfs _].
  split; [split; [apply py_int_nonneg; lra | apply py_int_le_of_le; lra]|].
  split; [apply py_int_nonneg; exact Hsz|].
  apply le_IZR. rewrite plus_IZR. lra.
Qed.

(** X17 (run.py, lines 222-236): when the bounding box lies in the image
    and the expansion is not negative, the crop box that
    [run_cardiac_segmentation] gives to [RegionOfInterest] lies in the image
    on every axis: its index is between 0 and the index of the bounding box,
    its size is not negative, and index plus size does not pass the size of
    the image. *)
Theorem crop_box_lies_in_the_image
        (bx by_ bz sx sy sz : Z) (ex ey ez px py pz : R) (nx ny nz : Z) :
  0 <= bx /\ 0 <= sx /\ bx + sx <= nx /\ (0 <= ex * px)%R ->
  0 <= by_ /\ 0 <= sy /\ by_ + sy <= ny /\ (0 <= ey * py)%R ->
  0 <= bz /\ 0 <= sz /\ bz + sz <= nz /\ (0 <= ez * pz)%R ->
  exists ix iy iz wx wy wz,
    CardiacRun.crop_box ((bx, by_, bz), (sx, sy, sz)) (ex, ey, ez) (px, py, pz) (nx, ny, nz)
    = ((ix, iy, iz), (wx, wy, wz))
    /\ (0 <= ix <= bx /\ 0 <= wx /\ ix + wx <= nx)
    /\ (0 <= iy <= by_ /\ 0 <= wy /\ iy + wy <= ny)
    /\ (0 <= iz <= bz /\ 0 <= wz /\ iz + wz <= nz).
Proof.
  intros (Hbx & Hsx & Hnx & Hex) (Hby & Hsy & Hny & Hey) (Hbz & Hsz & Hnz & Hez).
  unfold CardiacRun.crop_box.
  pose proof (crop_box_axis_within bx sx ex px nx Hbx Hsx Hnx Hex) as Hx.
  pose proof (crop_box_axis_within by_ sy ey py ny Hby Hsy Hny Hey) as Hy.
  pose proof (crop_box_axis_within bz sz ez pz nz Hbz Hsz Hnz Hez) as Hz.
  destruct (CardiacRun.crop_box_axis bx sx ex px nx) as [ix wx].
  destruct (CardiacRun.crop_box_axis by_ sy ey py ny) as [iy wy].
  destruct (CardiacRun.crop_box_axis bz sz ez pz nz) as [iz wz].
  cbn [fst snd] in Hx, Hy, Hz.
  exists ix, iy, iz, wx, wy, wz. split; [reflexivity|]. repeat split; lia.
Qed.

Lemma crop_box_lies_in_the_image_witness :
  exists ix iy iz wx wy wz,
    CardiacRun.crop_box ((10, 10, 10), (20, 20, 20)) (2, 2, 2)%R (1, 1, 3)%R (40, 40, 30)
    = ((ix, iy, iz), (wx, wy, wz))
    /\ (0 <= ix <= 10 /\ 0 <= wx /\ ix + wx <= 40)
    /\ (0 <= iy <= 10 /\ 0 <= wy /\ iy + wy <= 40)
    /\ (0 <= iz <= 10 /\ 0 <= wz /\ iz + wz <= 30).
Proof.
  apply (crop_box_lies_in_the_image 10 10 10 20 20 20 2 2 2 1 1 3 40 40 30);
    repeat split; try lia; lra.
Defined.

(** ** The checks of the animation *)

(** X18 (animation.py, lines 82-87): a list of fewer than two images makes
    no animation.  The empty list passes the check of the images, and
    [image_list[0]] raises [IndexError]; with one two-dimensional image the
    size is read from it, and the spacing from [image_list[1]], which raises
    [IndexError]. *)
Theorem animation_needs_two_images
        (Result PlotArguments : Type)
        (render : R * R -> R -> list Animation.pyobj -> PlotArguments ->
                  Animation.World -> (Animation.error + Result) * Animation.World)
        (image_list : list Animation.pyobj) (figure_size_in : R)
        (arguments : PlotArguments) (w : Animation.World) :
  Animation.path_exists w "/usr/bin/convert" = true ->
  (forall i, In i image_list ->
     exists x_size y_size spacing, i = Animation.SitkImage [x_size; y_size] spacing) ->
  (length image_list < 2)%nat ->
  Animation.generate_animation_from_image_sequence Result PlotArguments render
    image_list figure_size_in arguments w =
  (inl Animation.IndexError, Animation.mkWorld "/usr/bin/convert" (Animation.path_exists w)).
Proof.
  intros Hconvert Himages Hlen.
  unfold Animation.generate_animation_from_image_sequence. cbv zeta.
  cbn [Animation.convert_path Animation.path_exists]. rewrite Hconvert. cbn [negb].
  destruct image_list as [|i [|j l]]; [reflexivity| |cbn [length] in Hlen; lia].
  destruct (Himages i (or_introl eq_refl)) as (x_size & y_size & spacing & ->).
  reflexivity.
Qed.

Lemma animation_needs_two_images_witness :
  Animation.generate_animation_from_image_sequence unit unit
    (fun _ _ _ _ w => (inr tt, w))
    [Animation.SitkImage [4; 4] [1; 1]%R] 6 tt
    (Animation.mkWorld "convert" (fun _ => true)) =
  (inl Animation.IndexError, Animation.mkWorld "/usr/bin/convert" (fun _ => true)).
Proof.
  apply (animation_needs_two_images unit unit (fun _ _ _ _ w => (inr tt, w))
           [Animation.SitkImage [4; 4] [1; 1]%R] 6 tt
           (Animation.mkWorld "convert" (fun _ => true))).
  - reflexivity.
  - intros i [<- | []]. exists 4, 4, [1; 1]%R. reflexivity.
  - cbn. lia.
Defined.
